(** * osrm-backend-nutiteq: the Nutiteq routing plugin, the routing graph
      handles and the OSM XML root element check

    A shallow embedding of
    - [NutiViaRoutePlugin] (plugins/nuti_viaroute.hpp): the constructor's
      package discovery and import loop, and [HandleRequest];
    - [Nuti::Routing::RoutingGraph] (RoutingGraph.h): identifiers, node
      blocks, [NodePtr], [SearchNode];
    - [osmium::io::detail::XMLParser::start_element] (xml_input_format.hpp).

    Machine integers are [Z] with the wrap-around written out, [std::string]
    is [string], [std::vector] is [list], [std::shared_ptr] is a counted
    reference into an explicit store, [double] is [spec_float]. *)

From Stdlib Require Import ZArith Lia Bool List Ascii String.
From Stdlib Require Import Sorting.Sorted Sorting.Permutation.
From Stdlib Require Floats.SpecFloat.
From stdpp Require Import base option list gmap strings pretty.

Import ListNotations.
#[local] Open Scope string_scope.
#[local] Open Scope list_scope.
#[local] Open Scope Z_scope.

(** ** Machine integers *)

Module Machine.

(** [std::size_t] and [std::string::npos] of the 64-bit build. *)
Definition size_t_modulus : Z := 2 ^ 64.
Definition to_size_t (z : Z) : Z := z mod size_t_modulus.
Definition npos : Z := size_t_modulus - 1.

(** [unsigned int] and [int] (32 bits, two's complement). *)
Definition to_unsigned (z : Z) : Z := z mod 2 ^ 32.
Definition to_int (z : Z) : Z := (z + 2 ^ 31) mod 2 ^ 32 - 2 ^ 31.

Definition int_range (z : Z) : Prop := - 2 ^ 31 <= z < 2 ^ 31.
Definition unsigned_range (z : Z) : Prop := 0 <= z < 2 ^ 32.

End Machine.

(** ** [std::string] operations used by the plugin *)

Module StdString.

Import Machine.

Definition size (s : string) : Z := Z.of_nat (String.length s).

(** First index of character [c], as [std::string::find(char)] without the
    [npos] encoding. *)
Fixpoint find_index (c : ascii) (s : string) : option nat :=
  match s with
  | EmptyString => None
  | String a s' =>
      if Ascii.eqb a c then Some O
      else match find_index c s' with
           | Some i => Some (S i)
           | None => None
           end
  end.

(** [s.find(c)]. *)
Definition find (c : ascii) (s : string) : Z :=
  match find_index c s with
  | Some i => Z.of_nat i
  | None => npos
  end.

(** Last index at which [pat] occurs in [s]; [i] is the index of the
    head of [s] in the whole string. *)
Fixpoint rfind_index (pat s : string) (i : nat) : option nat :=
  match s with
  | EmptyString => if String.prefix pat EmptyString then Some i else None
  | String _ s' =>
      match rfind_index pat s' (S i) with
      | Some j => Some j
      | None => if String.prefix pat s then Some i else None
      end
  end.

(** [s.rfind(pat)]. *)
Definition rfind (pat s : string) : Z :=
  match rfind_index pat s O with
  | Some i => Z.of_nat i
  | None => npos
  end.

(** [s.substr(0, n)] for a [size_t] count [n]: the first [min(n, size)]
    characters. *)
Definition substr0 (n : Z) (s : string) : string :=
  String.substring O (Z.to_nat (Z.min n (size s))) s.

End StdString.

(** ** The routing plugin *)

Module NutiViaRoute.

Import Machine StdString.

(** *** Constructor: package discovery and the import loop *)

(** One entry met by [fs::directory_iterator]: [dir_iter->path().string()]
    and [fs::is_regular_file(dir_iter->status())]. *)
Record directory_entry := {
  entry_path : string;
  entry_is_regular_file : bool
}.

(** [std::set<std::string>]: the sorted sequence it iterates in, with
    [insert] and [count]. *)
Fixpoint set_insert (x : string) (l : list string) : list string :=
  match l with
  | [] => [x]
  | y :: l' =>
      match String.compare x y with
      | Lt => x :: l
      | Eq => l
      | Gt => y :: set_insert x l'
      end
  end.

Definition set_count (x : string) (l : list string) : Z :=
  if existsb (String.eqb x) l then 1 else 0.

Definition nutigraph_ext : string := ".nutigraph".

(** [file_name.rfind(".nutigraph") == file_name.size() - 10], in [size_t]
    arithmetic. *)
Definition has_nutigraph_ext (file_name : string) : bool :=
  rfind nutigraph_ext file_name =? to_size_t (size file_name - 10).

(** The first loop: the set [nutigraph_files]. *)
Definition discover (dir : list directory_entry) : list string :=
  fold_left
    (fun nutigraph_files e =>
       let file_name := entry_path e in
       if entry_is_regular_file e && has_nutigraph_ext file_name
       then set_insert (substr0 (to_size_t (size file_name - 10)) file_name)
                       nutigraph_files
       else nutigraph_files)
    dir [].

Inductive log_level := logINFO | logWARNING.

(** What [routing_graph->import(fileName)] does to its caller: it returns
    a [bool] or throws a [std::exception] with message [what]. *)
Inductive import_outcome :=
  | Returned (ok : bool)
  | Threw (what : string).

(** The observable actions of the constructor, in order. *)
Inductive event :=
  | Write (level : log_level) (message : string)
  | ImportCall (fileName : string) (outcome : import_outcome).

(** The parent that makes the loop [continue] on [nutigraph_file]. *)
Definition skip_parent (nutigraph_files : list string) (nutigraph_file : string)
  : option string :=
  let pos := find "-"%char nutigraph_file in
  if negb (pos =? npos) then
    let parent_nutigraph_file := substr0 pos nutigraph_file in
    if 0 <? set_count parent_nutigraph_file nutigraph_files
    then Some parent_nutigraph_file
    else None
  else None.

(** Whether the loop skips [nutigraph_file]. *)
Definition skipped (nutigraph_files : list string) (nutigraph_file : string) : bool :=
  match skip_parent nutigraph_files nutigraph_file with
  | Some _ => true
  | None => false
  end.

Definition skipping_message (nutigraph_file parent : string) : string :=
  "Skipping " +:+ (nutigraph_file +:+ nutigraph_ext) +:+ " as "
    +:+ (parent +:+ nutigraph_ext) +:+ " exists".

Definition loading_message (nutigraph_file : string) : string :=
  "Loading " +:+ (nutigraph_file +:+ nutigraph_ext).

Definition failed_message (fileName what : string) : string :=
  "Failed to load " +:+ fileName +:+ ": " +:+ what.

Section Constructor.

(** [Nuti::Routing::RoutingGraph] and its [import(const std::string&)],
    whose body is not part of the plugin. *)
Variable Graph : Type.
Variable import : string -> Graph -> import_outcome * Graph.

(** One iteration of the second loop. *)
Definition load_one (nutigraph_files : list string) (nutigraph_file : string)
    (g : Graph) : Graph * list event :=
  match skip_parent nutigraph_files nutigraph_file with
  | Some parent =>
      (g, [Write logINFO (skipping_message nutigraph_file parent)])
  | None =>
      let fileName := nutigraph_file +:+ nutigraph_ext in
      let '(outcome, g') := import fileName g in
      (g', Write logINFO (loading_message nutigraph_file)
           :: ImportCall fileName outcome
           :: match outcome with
              | Threw what => [Write logWARNING (failed_message fileName what)]
              | Returned _ => []
              end)
  end.

(** The second loop over [rest], a suffix of the set's sequence. *)
Fixpoint load_files (nutigraph_files rest : list string) (g : Graph)
    : Graph * list event :=
  match rest with
  | [] => (g, [])
  | f :: rest' =>
      let '(g1, evs1) := load_one nutigraph_files f g in
      let '(g2, evs2) := load_files nutigraph_files rest' g1 in
      (g2, evs1 ++ evs2)
  end.

(** The constructor body up to [descriptor_table.emplace]. *)
Definition construct (dir : list directory_entry) (routing_graph : Graph)
    : Graph * list event :=
  let nutigraph_files := discover dir in
  load_files nutigraph_files nutigraph_files routing_graph.

End Constructor.

Arguments load_one {Graph} import nutigraph_files nutigraph_file g.
Arguments load_files {Graph} import nutigraph_files rest g.
Arguments construct {Graph} import dir routing_graph.

(** The files handed to [import], in call order. *)
Definition attempted (evs : list event) : list string :=
  omap (fun e => match e with ImportCall f _ => Some f | Write _ _ => None end) evs.

(** The messages written at [level], in order. *)
Definition written (level : log_level) (evs : list event) : list string :=
  omap (fun e => match e with
                 | Write logINFO m => match level with logINFO => Some m | _ => None end
                 | Write logWARNING m => match level with logWARNING => Some m | _ => None end
                 | ImportCall _ _ => None
                 end) evs.

(** A registry that records the file names it was given, used to run the
    constructor on concrete directories. *)
Definition import_ok (fileName : string) (g : list string)
  : import_outcome * list string := (Returned true, g ++ [fileName]).

(** An [import] that reports the failure of ["bad.nutigraph"] through its
    return value. *)
Definition import_refusing_bad (fileName : string) (g : list string)
  : import_outcome * list string :=
  if String.eqb fileName "bad.nutigraph" then (Returned false, g)
  else (Returned true, g ++ [fileName]).

(** An [import] that throws on ["bad.nutigraph"]. *)
Definition import_throwing_bad (fileName : string) (g : list string)
  : import_outcome * list string :=
  if String.eqb fileName "bad.nutigraph" then (Threw "bad version", g)
  else (Returned true, g ++ [fileName]).

Definition regular (path : string) : directory_entry :=
  {| entry_path := path; entry_is_regular_file := true |}.

(** *** [HandleRequest] *)

(** [FixedPointCoordinate]: latitude and longitude as scaled integers. *)
Record FixedPointCoordinate := {
  lat : Z;
  lon : Z
}.

(** The values of [BasePlugin::Status] that [HandleRequest] returns. *)
Inductive Status := Ok | Error.

Abbreviation double := SpecFloat.spec_float.

(** [Nuti::Routing::WGSPos], a pair of [double]s. *)
Record WGSPos := {
  pos_0 : double;
  pos_1 : double
}.

(** [Nuti::Routing::RoutingQuery(pos0, pos1)]. *)
Record RoutingQuery := {
  query_pos0 : WGSPos;
  query_pos1 : WGSPos
}.

(** [osrm::json::Value], as far as this plugin fills it. *)
#[warnings="-register-all"]
Inductive json_value :=
  | JString (s : string)
  | JNumber (d : double)
  | JArray (values : list json_value).

(** [std::to_string] on [std::size_t] and [int]. *)
Definition to_string (z : Z) : string := pretty z.

Definition too_many_message (size max_locations_viaroute : Z) : string :=
  "Number of entries " +:+ to_string size
    +:+ " is higher than current maximum ("
    +:+ to_string max_locations_viaroute +:+ ")".

Section HandleRequest.

(** [x / COORDINATE_PRECISION] on an [int] coordinate; the constant is
    declared outside the plugin. *)
Variable coordinate_to_degrees : Z -> double.

(** [Nuti::Routing::RoutingResult], with [getStatus() == FAILED], and
    [RouteFinder(routing_graph).find(query)], which returns a result or
    throws a [std::exception]. *)
Variable RoutingResult : Type.
Variable result_failed : RoutingResult -> bool.

Inductive find_outcome :=
  | Found (result : RoutingResult)
  | FindThrew (what : string).

Variable find : RoutingQuery -> find_outcome.

(** The description of the collected results: the encoded, generalised
    polyline and the instruction rows. *)
Variable route_geometry : list RoutingResult -> Z -> json_value.
Variable route_instructions : list RoutingResult -> json_value.

(** [route_parameters.coordinates[k]]; the two uses are guarded by
    [coordinates.size() >= 2]. *)
Definition coordinate_at (coordinates : list FixedPointCoordinate) (k : nat)
  : FixedPointCoordinate :=
  nth k coordinates {| lat := 0; lon := 0 |}.

Definition to_WGSPos (c : FixedPointCoordinate) : WGSPos :=
  {| pos_0 := coordinate_to_degrees (lat c);
     pos_1 := coordinate_to_degrees (lon c) |}.

(** The query built by one iteration of the routing loop. *)
Definition leg_query (coordinates : list FixedPointCoordinate) : RoutingQuery :=
  let pos0 := to_WGSPos (coordinate_at coordinates 0) in
  let pos1 := to_WGSPos (coordinate_at coordinates 1) in
  {| query_pos0 := pos0; query_pos1 := pos1 |}.

(** The routing loop [for (i = 1; i < coordinates.size(); i++)] with
    [legs] iterations left: the queries handed to [find], in order, and
    either the status message of the early [return Status::Error] or the
    collected [results]. *)
Fixpoint route_legs (coordinates : list FixedPointCoordinate) (legs : nat)
  : list RoutingQuery * (string + list RoutingResult) :=
  match legs with
  | O => ([], inr [])
  | S legs' =>
      let query := leg_query coordinates in
      match find query with
      | FindThrew what =>
          ([query], inl ("Routing failed, exception: " +:+ what))
      | Found result =>
          if result_failed result then ([query], inl "Routing failed")
          else
            let '(queries, rest) := route_legs coordinates legs' in
            (query :: queries,
             match rest with
             | inl message => inl message
             | inr results => inr (result :: results)
             end)
      end
  end.

(** What a call leaves behind: the returned status, [json_result.values]
    and the queries handed to [find]. *)
Record handled := {
  status : Status;
  values : gmap string json_value;
  queries : list RoutingQuery
}.

Definition HandleRequest (max_locations_viaroute : Z)
    (coordinates : list FixedPointCoordinate) (zoom_level : Z)
    (json_result : gmap string json_value) : handled :=
  let size := Z.of_nat (length coordinates) in
  if (0 <? max_locations_viaroute) && (max_locations_viaroute <? to_int size)
  then
    {| status := Error;
       values := <["status_message" :=
                     JString (too_many_message size max_locations_viaroute)]>
                   json_result;
       queries := [] |}
  else if size <? 2 then
    {| status := Error;
       values := <["status_message" := JString "Invalid coordinates"]> json_result;
       queries := [] |}
  else
    match route_legs coordinates (Z.to_nat (size - 1)) with
    | (qs, inl message) =>
        {| status := Error;
           values := <["status_message" := JString message]> json_result;
           queries := qs |}
    | (qs, inr results) =>
        {| status := Ok;
           values :=
             <["route_instructions" := route_instructions results]>
               (<["status_message" := JString "Found route between points"]>
                  (<["route_geometry" := route_geometry results zoom_level]>
                     json_result));
           queries := qs |}
    end.

End HandleRequest.

Arguments Found {RoutingResult} result.
Arguments FindThrew {RoutingResult} what.

(** A conversion, a route finder that finds a route for every query and
    a description, to run [HandleRequest] on concrete requests. *)
Definition degrees (z : Z) : double :=
  SpecFloat.SFdiv 53 1024
    (SpecFloat.binary_normalize 53 1024 z 0 false)
    (SpecFloat.binary_normalize 53 1024 1000000 0 false).

Definition find_any (query : RoutingQuery) : find_outcome unit := Found tt.

Definition HandleRequest_any : Z -> list FixedPointCoordinate -> Z ->
    gmap string json_value -> handled :=
  HandleRequest degrees unit (fun _ => false) find_any
    (fun _ _ => JString "geometry") (fun _ => JArray []).

Definition berlin : FixedPointCoordinate := {| lat := 52520000; lon := 13405000 |}.
Definition paris : FixedPointCoordinate := {| lat := 48856600; lon := 2352200 |}.
Definition rome : FixedPointCoordinate := {| lat := 41902800; lon := 12496400 |}.

End NutiViaRoute.


(** ** The routing graph *)

Module RoutingGraph.

Import Machine.

Abbreviation double := SpecFloat.spec_float.

(** *** Identifiers and block contents *)

Record BlockId := {
  packageId : Z;
  blockIndex : Z
}.

(** [BlockId::operator==]. *)
Definition BlockId_eqb (a b : BlockId) : bool :=
  (packageId a =? packageId b) && (blockIndex a =? blockIndex b).

Record ElementId := {
  blockId : BlockId;
  elementIndex : Z
}.

(** [ElementId::operator==]. *)
Definition ElementId_eqb (a b : ElementId) : bool :=
  BlockId_eqb (blockId a) (blockId b) && (elementIndex a =? elementIndex b).

(** The default-constructed identifiers. *)
Definition BlockId_default : BlockId := {| packageId := -1; blockIndex := -1 |}.
Definition ElementId_default : ElementId :=
  {| blockId := BlockId_default; elementIndex := -1 |}.

Abbreviation GeometryId := ElementId.
Abbreviation NameId := ElementId.
Abbreviation NodeId := ElementId.
Abbreviation GlobalNodeId := ElementId.
Abbreviation RTreeNodeId := ElementId.

Record Point := {
  lat : Z;
  lon : Z
}.

(** [EdgeData::weight] is [edge_weight], [NodeData::weight] is
    [node_weight]. *)
Record EdgeData := {
  edge_weight : Z;
  turnInstruction : Z
}.

Record Edge := {
  targetNodeId : NodeId;
  contractedNodeId : NodeId;
  contracted : bool;
  forward : bool;
  backward : bool;
  edgeData : EdgeData
}.

Record NodeData := {
  geometryId : GeometryId;
  geometryReversed : bool;
  nameId : NameId;
  node_weight : Z;
  travelMode : Z
}.

(** [firstEdge] and [lastEdge] point into the [edges] of the owning
    block: they are offsets into it, [None] is [nullptr]. *)
Record Node := {
  firstEdge : option nat;
  lastEdge : option nat;
  nodeData : NodeData
}.

Record NodeBlock := {
  nodes : list Node;
  edges : list Edge
}.

(** *** [std::shared_ptr<NodeBlock>] *)

(** The free store holds each live [NodeBlock] with the number of
    [shared_ptr]s that own it; the block is deleted when the last owner
    goes. A [shared_ptr] is the address of its block. *)
Record control_block := {
  pointee : NodeBlock;
  use_count : nat
}.

Abbreviation Store := (gmap nat control_block).

(** [std::make_shared<NodeBlock>(block)]. *)
Definition make_shared (block : NodeBlock) (h : Store) : nat * Store :=
  let a := fresh (dom h) in
  (a, <[a := {| pointee := block; use_count := 1 |}]> h).

(** Copy construction of a [shared_ptr] to [a]. *)
Definition shared_copy (a : nat) (h : Store) : Store :=
  match h !! a with
  | Some cb => <[a := {| pointee := pointee cb; use_count := S (use_count cb) |}]> h
  | None => h
  end.

(** Destruction of a [shared_ptr] to [a]. *)
Definition shared_release (a : nat) (h : Store) : Store :=
  match h !! a with
  | Some cb =>
      match use_count cb with
      | S (S n) => <[a := {| pointee := pointee cb; use_count := S n |}]> h
      | _ => delete a h
      end
  | None => h
  end.

(** *** [NodePtr] *)

(** [_node] is a raw pointer to an element of the [nodes] of the block at
    an address; [_nodeBlock] is the [shared_ptr] that keeps that block. *)
Record NodePtr := {
  _node : option (nat * nat);
  _nodeBlock : option nat
}.

(** [NodePtr() = default]. *)
Definition NodePtr_default : NodePtr := {| _node := None; _nodeBlock := None |}.

(** [std::out_of_range] from [vector::at], a failure of the block
    decoder, and the use of a [shared_ptr] whose block is gone (undefined
    in C++; [getNode] never does it). *)
Inductive exception :=
  | out_of_range
  | decode_error
  | invalid_pointer.

(** [std::vector::at(n)] for a [size_t] index. *)
Definition vector_at {A} (v : list A) (n : Z) : option A :=
  if n <? Z.of_nat (length v) then v !! Z.to_nat n else None.

(** [NodePtr(nodeBlock, elementIndex)]: [_node] is initialised first, from
    [&nodeBlock->nodes.at(elementIndex)], then [_nodeBlock] is copied from
    [nodeBlock]. The [int] index is converted to [size_t] by [at]. *)
Definition NodePtr_new (nodeBlock : nat) (elementIndex : Z) (h : Store)
  : (exception + NodePtr) * Store :=
  match h !! nodeBlock with
  | Some cb =>
      let n := to_size_t elementIndex in
      match vector_at (nodes (pointee cb)) n with
      | Some _ =>
          (inr {| _node := Some (nodeBlock, Z.to_nat n);
                  _nodeBlock := Some nodeBlock |},
           shared_copy nodeBlock h)
      | None => (inl out_of_range, h)
      end
  | None => (inl invalid_pointer, h)
  end.

(** [~NodePtr()]. *)
Definition NodePtr_delete (p : NodePtr) (h : Store) : Store :=
  match _nodeBlock p with
  | Some a => shared_release a h
  | None => h
  end.

(** [operator*] and [operator->]: the node [_node] points to, if the
    block it points into is still in the store. *)
Definition deref (p : NodePtr) (h : Store) : option Node :=
  match _node p with
  | Some (a, i) =>
      match h !! a with
      | Some cb => nodes (pointee cb) !! i
      | None => None
      end
  | None => None
  end.

(** The edges in [[node->firstEdge, node->lastEdge)]. *)
Definition node_edges (p : NodePtr) (h : Store) : option (list Edge) :=
  match _node p with
  | Some (a, i) =>
      match h !! a with
      | Some cb =>
          match nodes (pointee cb) !! i with
          | Some n =>
              match firstEdge n, lastEdge n with
              | Some first, Some last =>
                  Some (take (last - first) (drop first (edges (pointee cb))))
              | _, _ => Some []
              end
          | None => None
          end
      | None => None
      end
  | None => None
  end.

(** *** The node block cache and [getNode] *)

(** Modelled from the spec: [cache::lru_cache] (stdext/lru_cache.h) is
    missing. The cache is the list of its entries, most recently used
    first, each a key and a [shared_ptr] to the decoded block, with the
    configured capacity [nodeBlockCacheSize]. *)
Record State := {
  store : Store;
  nodeBlockCache : list (BlockId * nat);
  nodeBlockCacheSize : nat
}.

(** Modelled from the spec: lookup of a key in the cache. *)
Fixpoint cache_get (bid : BlockId) (entries : list (BlockId * nat)) : option nat :=
  match entries with
  | [] => None
  | (k, a) :: rest => if BlockId_eqb k bid then Some a else cache_get bid rest
  end.

(** Modelled from the spec: the entries without the first one for [bid],
    which a hit moves to the front. *)
Fixpoint cache_remove (bid : BlockId) (entries : list (BlockId * nat))
  : list (BlockId * nat) :=
  match entries with
  | [] => []
  | (k, a) :: rest =>
      if BlockId_eqb k bid then rest else (k, a) :: cache_remove bid rest
  end.

(** Modelled from the spec: eviction of the least recently used entry
    when the cache holds more than its capacity; it destroys the cache's
    own [shared_ptr] only. *)
Definition cache_evict (st : State) : State :=
  if (nodeBlockCacheSize st <? length (nodeBlockCache st))%nat then
    match last (nodeBlockCache st) with
    | Some (_, a) =>
        {| store := shared_release a (store st);
           nodeBlockCache := removelast (nodeBlockCache st);
           nodeBlockCacheSize := nodeBlockCacheSize st |}
    | None => st
    end
  else st.

Section Graph.

(** The decoder of a node block from its package's chunk; [None] is a
    decode failure. *)
Variable decodeNodeBlock : BlockId -> option NodeBlock.

(** Modelled from the spec: [loadNodeBlock] is declared, its body is
    missing. On a hit the cached [shared_ptr] is copied for the caller
    and the entry becomes the most recent one; on a miss the block is
    decoded, a [shared_ptr] to it is put in the cache, and the least
    recently used entry is evicted when the capacity is exceeded. *)
Definition loadNodeBlock (bid : BlockId) (st : State)
  : (exception + nat) * State :=
  match cache_get bid (nodeBlockCache st) with
  | Some a =>
      (inr a,
       {| store := shared_copy a (store st);
          nodeBlockCache := (bid, a) :: cache_remove bid (nodeBlockCache st);
          nodeBlockCacheSize := nodeBlockCacheSize st |})
  | None =>
      match decodeNodeBlock bid with
      | Some block =>
          let '(a, h) := make_shared block (store st) in
          (inr a,
           cache_evict
             {| store := shared_copy a h;
                nodeBlockCache := (bid, a) :: nodeBlockCache st;
                nodeBlockCacheSize := nodeBlockCacheSize st |})
      | None => (inl decode_error, st)
      end
  end.

(** Modelled from the spec: [getNode] is declared, its body is missing.
    It loads the node's block through the cache and builds the
    [NodePtr] from it; the local [shared_ptr] is destroyed on return
    and when the constructor throws. *)
Definition getNode (nodeId : NodeId) (st : State)
  : (exception + NodePtr) * State :=
  match loadNodeBlock (blockId nodeId) st with
  | (inr nodeBlock, st1) =>
      let '(r, h) := NodePtr_new nodeBlock (elementIndex nodeId) (store st1) in
      (r, {| store := shared_release nodeBlock h;
             nodeBlockCache := nodeBlockCache st1;
             nodeBlockCacheSize := nodeBlockCacheSize st1 |})
  | (inl e, st1) => (inl e, st1)
  end.

(** The graph together with the handles its callers hold. Every query
    takes the next slot of [held]: the handle if the caller keeps it,
    [None] if the query failed or the caller let the handle go. *)
Record World := {
  graph : State;
  held : list (option NodePtr)
}.

Inductive action :=
  | Query (nodeId : NodeId) (keep : bool)
  | Release (slot : nat).

Definition with_store (st : State) (h : Store) : State :=
  {| store := h;
     nodeBlockCache := nodeBlockCache st;
     nodeBlockCacheSize := nodeBlockCacheSize st |}.

Definition step (w : World) (a : action) : World :=
  match a with
  | Query nodeId keep =>
      match getNode nodeId (graph w) with
      | (inr p, st) =>
          if keep then {| graph := st; held := held w ++ [Some p] |}
          else {| graph := with_store st (NodePtr_delete p (store st));
                  held := held w ++ [None] |}
      | (inl _, st) => {| graph := st; held := held w ++ [None] |}
      end
  | Release slot =>
      match held w !! slot with
      | Some (Some p) =>
          {| graph := with_store (graph w) (NodePtr_delete p (store (graph w)));
             held := <[slot := None]> (held w) |}
      | _ => w
      end
  end.

Definition run (w : World) (actions : list action) : World :=
  fold_left step actions w.

(** A graph with an empty cache of the given capacity and no caller. *)
Definition new_world (capacity : nat) : World :=
  {| graph := {| store := ∅; nodeBlockCache := []; nodeBlockCacheSize := capacity |};
     held := [] |}.

End Graph.

(** *** Ownership of the blocks in the store *)

(** The number of times address [x] occurs among the owners [l]. *)
Definition owner_at (a x : nat) : nat := if Nat.eqb a x then 1%nat else 0%nat.

Fixpoint owns (l : list nat) (x : nat) : nat :=
  match l with
  | [] => 0%nat
  | a :: l' => (owner_at a x + owns l' x)%nat
  end.

(** Every address that has owners holds a block whose [use_count] covers
    them; [f] gives the number of owners of each address. *)
Definition counted (h : Store) (f : nat -> nat) : Prop :=
  forall a, (0 < f a)%nat ->
    exists cb, h !! a = Some cb /\ (f a <= use_count cb)%nat.

(** The block at an address, if any. *)
Definition block_at (h : Store) (a : nat) : option NodeBlock :=
  pointee <$> h !! a.

(** The blocks of the addresses that [f] counts are the same in both
    stores. *)
Definition keeps (h h' : Store) (f : nat -> nat) : Prop :=
  forall x, (0 < f x)%nat -> block_at h' x = block_at h x.

(** The [shared_ptr]s of the cache and of the handles the callers hold. *)
Definition cache_owners (st : State) : list nat :=
  map snd (nodeBlockCache st).

Definition handle_owner (o : option NodePtr) : option nat :=
  match o with
  | Some p => _nodeBlock p
  | None => None
  end.

Definition handle_owners (held : list (option NodePtr)) : list nat :=
  omap handle_owner held.

(** A handle built by [NodePtr_new]: [_node] points into the block that
    [_nodeBlock] owns. *)
Definition handle_ok (p : NodePtr) : Prop :=
  exists a i, _node p = Some (a, i) /\ _nodeBlock p = Some a.

(** The cache holds, under each key, the decoded block of that key. *)
Definition cache_faithful (decodeNodeBlock : BlockId -> option NodeBlock)
    (st : State) : Prop :=
  forall bid a, In (bid, a) (nodeBlockCache st) ->
    exists block, block_at (store st) a = Some block
                  /\ decodeNodeBlock bid = Some block.

(** The invariant of the graph and its callers. *)
Definition consistent (decodeNodeBlock : BlockId -> option NodeBlock)
    (w : World) : Prop :=
  counted (store (graph w))
          (fun x => (owns (cache_owners (graph w)) x
                     + owns (handle_owners (held w)) x)%nat)
  /\ cache_faithful decodeNodeBlock (graph w)
  /\ (forall p, In (Some p) (held w) -> handle_ok p).

(** Blocks of two nodes for every block index of package [0], and no
    other package, to run the graph on concrete queries. *)
Definition sample_node (w : Z) : Node :=
  {| firstEdge := Some 0%nat;
     lastEdge := Some 1%nat;
     nodeData := {| geometryId := ElementId_default;
                    geometryReversed := false;
                    nameId := ElementId_default;
                    node_weight := w;
                    travelMode := 1 |} |}.

Definition sample_edge (target : NodeId) : Edge :=
  {| targetNodeId := target;
     contractedNodeId := ElementId_default;
     contracted := false;
     forward := true;
     backward := false;
     edgeData := {| edge_weight := 7; turnInstruction := 0 |} |}.

Definition node_id (block index : Z) : NodeId :=
  {| blockId := {| packageId := 0; blockIndex := block |};
     elementIndex := index |}.

Definition sample_block (k : Z) : NodeBlock :=
  {| nodes := [sample_node (10 * k); sample_node (10 * k + 1)];
     edges := [sample_edge (node_id k 1)] |}.

Definition sample_decode (bid : BlockId) : option NodeBlock :=
  if packageId bid =? 0 then Some (sample_block (blockIndex bid)) else None.

(** *** [SearchNode] and the search queue *)

Record SearchNode := {
  rtreeNodeId : RTreeNodeId;
  distance : double
}.

(** [a > b] on [double]. *)
Definition double_gt (a b : double) : bool := SpecFloat.SFltb b a.

(** [SearchNode::operator<]. *)
Definition SearchNode_lt (a b : SearchNode) : bool :=
  double_gt (distance a) (distance b).

Definition is_nan (d : double) : bool :=
  match d with
  | SpecFloat.S754_nan => true
  | _ => false
  end.

(** The place of a [double] other than NaN in the order of the IEEE
    comparison, as a triple compared lexicographically: the class
    (negative infinity, negative, zero, positive, positive infinity),
    then the exponent and the mantissa, both negated for a negative
    number. *)
Definition double_rank (d : double) : Z * Z * Z :=
  match d with
  | SpecFloat.S754_nan => (0, 0, 0)
  | SpecFloat.S754_zero _ => (0, 0, 0)
  | SpecFloat.S754_infinity true => (-2, 0, 0)
  | SpecFloat.S754_infinity false => (2, 0, 0)
  | SpecFloat.S754_finite true m e => (-1, - e, Z.neg m)
  | SpecFloat.S754_finite false m e => (1, e, Z.pos m)
  end.

Definition rank_compare (a b : Z * Z * Z) : comparison :=
  match a.1.1 ?= b.1.1 with
  | Eq =>
      match a.1.2 ?= b.1.2 with
      | Eq => a.2 ?= b.2
      | c => c
      end
  | c => c
  end.

Definition rank_le (a b : Z * Z * Z) : Prop :=
  a.1.1 < b.1.1
  \/ (a.1.1 = b.1.1 /\ (a.1.2 < b.1.2 \/ (a.1.2 = b.1.2 /\ a.2 <= b.2))).

(** The queue entries ordered by distance, as [double]s compare. *)
Definition distance_le (x y : SearchNode) : Prop :=
  SpecFloat.SFleb (distance x) (distance y) = true.

(** A queue none of whose entries has a NaN distance. *)
Abbreviation no_nan := (Forall (fun x : SearchNode => is_nan (distance x) = false)).

(** [std::priority_queue<SearchNode>] by its contract: [top] is an
    element that is not less than any other under [operator<], [pop]
    removes it. [pq_extract] gives the top and the remaining queue. *)
Definition pq_push (x : SearchNode) (q : list SearchNode) : list SearchNode :=
  x :: q.

Fixpoint pq_extract (q : list SearchNode) : option (SearchNode * list SearchNode) :=
  match q with
  | [] => None
  | x :: q' =>
      match pq_extract q' with
      | None => Some (x, [])
      | Some (m, rest) =>
          if SearchNode_lt m x then Some (x, m :: rest) else Some (m, x :: rest)
      end
  end.

Definition pq_top (q : list SearchNode) : option SearchNode :=
  fst <$> pq_extract q.

Definition pq_pop (q : list SearchNode) : list SearchNode :=
  match pq_extract q with
  | Some (_, rest) => rest
  | None => []
  end.

(** Popping until the queue is empty, at most [fuel] times: the entries
    in the order they leave the queue. *)
Fixpoint pq_drain (fuel : nat) (q : list SearchNode) : list SearchNode :=
  match fuel with
  | O => []
  | S fuel' =>
      match pq_extract q with
      | Some (m, rest) => m :: pq_drain fuel' rest
      | None => []
      end
  end.

Definition at_distance (d : double) : SearchNode :=
  {| rtreeNodeId := ElementId_default; distance := d |}.

(** The doubles [1.0], [2.0] and [3.0]. *)
Definition one : double := SpecFloat.S754_finite false 4503599627370496 (-52).
Definition two : double := SpecFloat.S754_finite false 4503599627370496 (-51).
Definition three : double := SpecFloat.S754_finite false 6755399441055744 (-51).

(** *** Geometry coding *)

(** Modelled from the spec: [decodeZigZagValue] is declared, its body is
    missing; the spec gives [(v >> 1) ^ -(v & 1)] on an [unsigned int],
    returned as [int]. *)
Definition decodeZigZagValue (val : Z) : Z :=
  to_int (Z.lxor (Z.shiftr val 1) (to_unsigned (- Z.land val 1))).

(** Modelled from the spec: the zig-zag encoding that [decodeZigZagValue]
    reverses, [(n << 1) ^ (n >> 31)] on an [int], stored as
    [unsigned int]. The encoder is not among the sources. *)
Definition encodeZigZagValue (n : Z) : Z :=
  to_unsigned (Z.lxor (Z.shiftl n 1) (Z.shiftr n 31)).

(** Modelled from the spec: decoding walks the coded deltas, each
    relative to the previous point and the first relative to zero, and
    accumulates absolute coordinates in [int] arithmetic. *)
Fixpoint decodeGeometry_from (prev : Point) (coded : list (Z * Z)) : list Point :=
  match coded with
  | [] => []
  | (dlat, dlon) :: rest =>
      let point := {| lat := to_int (lat prev + decodeZigZagValue dlat);
                      lon := to_int (lon prev + decodeZigZagValue dlon) |} in
      point :: decodeGeometry_from point rest
  end.

Definition decodeGeometry (coded : list (Z * Z)) : list Point :=
  decodeGeometry_from {| lat := 0; lon := 0 |} coded.

(** Modelled from the spec: the delta and zig-zag encoding of a point
    sequence, the inverse direction of [decodeGeometry]. *)
Fixpoint encodeGeometry_from (prev : Point) (points : list Point) : list (Z * Z) :=
  match points with
  | [] => []
  | point :: rest =>
      (encodeZigZagValue (to_int (lat point - lat prev)),
       encodeZigZagValue (to_int (lon point - lon prev)))
        :: encodeGeometry_from point rest
  end.

Definition encodeGeometry (points : list Point) : list (Z * Z) :=
  encodeGeometry_from {| lat := 0; lon := 0 |} points.

Definition Point_in_range (p : Point) : Prop :=
  int_range (lat p) /\ int_range (lon p).

End RoutingGraph.

(** ** The OSM XML parser: the root element *)

Module XMLParser.

Inductive context :=
  | root
  | top
  | node
  | way
  | relation
  | changeset
  | ignored_node
  | ignored_way
  | ignored_relation
  | ignored_changeset
  | in_object.

(** [osmium::io::Header] (osmium/io/header.hpp, not among the sources),
    as far as the root element uses it: a key-value store with [set] and
    [get], where [get] answers the empty string for a key that is not
    set, and the flag for change files. *)
Record Header := {
  options : gmap string string;
  has_multiple_object_versions : bool
}.

Definition Header_new : Header :=
  {| options := ∅; has_multiple_object_versions := false |}.

Definition Header_set (key value : string) (h : Header) : Header :=
  {| options := <[key := value]> (options h);
     has_multiple_object_versions := has_multiple_object_versions h |}.

Definition Header_get (key : string) (h : Header) : string :=
  default "" (options h !! key).

Definition set_has_multiple_object_versions (b : bool) (h : Header) : Header :=
  {| options := options h; has_multiple_object_versions := b |}.

(** The exceptions [start_element] throws at the root, both derived from
    [osmium::io_error]: [what()] and, for [format_version_error], its
    [version] member. *)
Inductive io_error :=
  | format_version_error (what : string) (version : string)
  | xml_error (what : string).

(** [format_version_error()]. *)
Definition format_version_error_missing : io_error :=
  format_version_error
    "Can not read file without version (missing version attribute on osm element)."
    "".

(** [format_version_error(v)]. *)
Definition format_version_error_of (v : string) : io_error :=
  format_version_error ("Can not read file with version " +:+ v) v.

Section Parser.

(** The buffer and the builders, which only the contexts below the
    root use. *)
Variable Objects : Type.

Record XMLParser := {
  m_context : context;
  m_last_context : context;
  m_in_delete_section : bool;
  m_header : Header;
  m_objects : Objects;
  m_read_types : Z;
  m_header_is_done : bool
}.

(** The state of a parser as its constructors leave it. *)
Definition XMLParser_new (objects : Objects) (read_types : Z) : XMLParser :=
  {| m_context := root;
     m_last_context := root;
     m_in_delete_section := false;
     m_header := Header_new;
     m_objects := objects;
     m_read_types := read_types;
     m_header_is_done := false |}.

(** What a call leaves behind: the exception it threw, if any, and the
    parser. *)
Record outcome := {
  thrown : option io_error;
  parser : XMLParser
}.

Definition with_header (p : XMLParser) (h : Header) : XMLParser :=
  {| m_context := m_context p;
     m_last_context := m_last_context p;
     m_in_delete_section := m_in_delete_section p;
     m_header := h;
     m_objects := m_objects p;
     m_read_types := m_read_types p;
     m_header_is_done := m_header_is_done p |}.

Definition with_context (p : XMLParser) (c : context) : XMLParser :=
  {| m_context := c;
     m_last_context := m_last_context p;
     m_in_delete_section := m_in_delete_section p;
     m_header := m_header p;
     m_objects := m_objects p;
     m_read_types := m_read_types p;
     m_header_is_done := m_header_is_done p |}.

(** The loop over the attribute pairs of the root element. *)
Fixpoint root_attributes (attrs : list (string * string)) (header : Header)
  : option io_error * Header :=
  match attrs with
  | [] => (None, header)
  | (name, value) :: rest =>
      if String.eqb name "version" then
        let header := Header_set "version" value header in
        if negb (String.eqb value "0.6")
        then (Some (format_version_error_of value), header)
        else root_attributes rest header
      else if String.eqb name "generator" then
        root_attributes rest (Header_set "generator" value header)
      else root_attributes rest header
  end.

(** [start_element] in the contexts below the root. *)
Variable start_element_below : XMLParser -> string -> list (string * string) -> outcome.

Definition start_element (p : XMLParser) (element : string)
    (attrs : list (string * string)) : outcome :=
  match m_context p with
  | root =>
      if String.eqb element "osm" || String.eqb element "osmChange" then
        let header :=
          if String.eqb element "osmChange"
          then set_has_multiple_object_versions true (m_header p)
          else m_header p in
        match root_attributes attrs header with
        | (Some e, header) =>
            {| thrown := Some e; parser := with_header p header |}
        | (None, header) =>
            if String.eqb (Header_get "version" header) ""
            then {| thrown := Some format_version_error_missing;
                    parser := with_header p header |}
            else {| thrown := None;
                    parser := with_context (with_header p header) top |}
        end
      else
        {| thrown := Some (xml_error ("Unknown top-level element: " +:+ element));
           parser := p |}
  | _ => start_element_below p element attrs
  end.

End Parser.

Arguments m_context {Objects} _.
Arguments m_header {Objects} _.
Arguments thrown {Objects} _.
Arguments parser {Objects} _.
Arguments start_element {Objects} start_element_below p element attrs.
Arguments XMLParser_new {Objects} objects read_types.

End XMLParser.

(** ** The hashes of the identifiers *)

Module RoutingGraphHash.

Import Machine RoutingGraph.

(** [BlockId::Hash]: [packageId * 98317 ^ blockIndex] on [int], converted
    to [std::size_t]. The product is undefined when it leaves the range
    of [int]: [None]. *)
Definition BlockId_Hash (b : BlockId) : option Z :=
  let product := packageId b * 98317 in
  if (- 2 ^ 31 <=? product) && (product <? 2 ^ 31)
  then Some (to_size_t (Z.lxor product (blockIndex b)))
  else None.

(** [ElementId::Hash]: [BlockId::Hash()(blockId) * 769 ^ elementIndex] on
    [std::size_t], to which [769] and [elementIndex] are converted. *)
Definition ElementId_Hash (e : ElementId) : option Z :=
  match BlockId_Hash (blockId e) with
  | Some h => Some (Z.lxor (to_size_t (h * 769)) (to_size_t (elementIndex e)))
  | None => None
  end.

(** The members of an identifier are [int]s. *)
Definition BlockId_in_range (b : BlockId) : Prop :=
  int_range (packageId b) /\ int_range (blockIndex b).

Definition ElementId_in_range (e : ElementId) : Prop :=
  BlockId_in_range (blockId e) /\ int_range (elementIndex e).

End RoutingGraphHash.

(** ** The OSM XML parser: the elements below the root *)

Module XMLElements.

Import XMLParser.

(** The calls [start_element] and [end_element] make into the builders,
    the buffer and the header, whose code is outside the sources. Numbers
    are recorded as the attribute text they are converted from. *)
Inductive call :=
  | NodeBuilder_new
  | WayBuilder_new
  | RelationBuilder_new
  | ChangesetBuilder_new
  | TagListBuilder_new
  | WayNodeListBuilder_new
  | RelationMemberListBuilder_new
  | set_visible_false
  | location_set_lon (value : string)
  | location_set_lat (value : string)
  | set_attribute (name value : string)
  | set_location_if_defined
  | add_user (user : string)
  | min_set_lon (value : string)
  | min_set_lat (value : string)
  | max_set_lon (value : string)
  | max_set_lat (value : string)
  | bounds_extend_min_max
  | header_add_box
  | add_tag (key value : string)
  | add_node_ref (ref : string)
  | add_member (type : ascii) (ref : option string) (role : string)
  | commit
  | flush_buffer.

(** The [unique_ptr]s to the builders ([true] when not null) and the
    calls made so far, oldest first. *)
Record Builders := {
  m_node_builder : bool;
  m_way_builder : bool;
  m_relation_builder : bool;
  m_changeset_builder : bool;
  m_tl_builder : bool;
  m_wnl_builder : bool;
  m_rml_builder : bool;
  calls : list call
}.

Definition Builders_new : Builders :=
  {| m_node_builder := false; m_way_builder := false;
     m_relation_builder := false; m_changeset_builder := false;
     m_tl_builder := false; m_wnl_builder := false; m_rml_builder := false;
     calls := [] |}.

(** What leaves a callback besides a return: an [io_error], the internal
    [ParserIsDone], or a failed [assert]. *)
Inductive signal :=
  | io (e : io_error)
  | ParserIsDone
  | assert_failed.

Record result := {
  raised : option signal;
  after : XMLParser Builders
}.

Definition returns (p : XMLParser Builders) : result :=
  {| raised := None; after := p |}.

Definition with_objects (p : XMLParser Builders) (b : Builders) : XMLParser Builders :=
  {| m_context := m_context p;
     m_last_context := m_last_context Builders p;
     m_in_delete_section := m_in_delete_section Builders p;
     m_header := m_header p;
     m_objects := b;
     m_read_types := m_read_types Builders p;
     m_header_is_done := m_header_is_done Builders p |}.

Definition with_last_context (p : XMLParser Builders) (c : context) : XMLParser Builders :=
  {| m_context := m_context p;
     m_last_context := c;
     m_in_delete_section := m_in_delete_section Builders p;
     m_header := m_header p;
     m_objects := m_objects Builders p;
     m_read_types := m_read_types Builders p;
     m_header_is_done := m_header_is_done Builders p |}.

Definition with_in_delete_section (p : XMLParser Builders) (b : bool) : XMLParser Builders :=
  {| m_context := m_context p;
     m_last_context := m_last_context Builders p;
     m_in_delete_section := b;
     m_header := m_header p;
     m_objects := m_objects Builders p;
     m_read_types := m_read_types Builders p;
     m_header_is_done := m_header_is_done Builders p |}.

Definition with_header_is_done (p : XMLParser Builders) (b : bool) : XMLParser Builders :=
  {| m_context := m_context p;
     m_last_context := m_last_context Builders p;
     m_in_delete_section := m_in_delete_section Builders p;
     m_header := m_header p;
     m_objects := m_objects Builders p;
     m_read_types := m_read_types Builders p;
     m_header_is_done := b |}.

Definition builders (p : XMLParser Builders) : Builders := m_objects Builders p.

Definition called (p : XMLParser Builders) (cs : list call) : XMLParser Builders :=
  let b := builders p in
  with_objects p
    {| m_node_builder := m_node_builder b; m_way_builder := m_way_builder b;
       m_relation_builder := m_relation_builder b;
       m_changeset_builder := m_changeset_builder b;
       m_tl_builder := m_tl_builder b; m_wnl_builder := m_wnl_builder b;
       m_rml_builder := m_rml_builder b;
       calls := calls b ++ cs |}.

(** The four kinds of objects, with their element names. *)
Inductive kind := k_node | k_way | k_relation | k_changeset.

Definition kind_name (k : kind) : string :=
  match k with
  | k_node => "node"
  | k_way => "way"
  | k_relation => "relation"
  | k_changeset => "changeset"
  end.

Definition kind_context (k : kind) : context :=
  match k with
  | k_node => node
  | k_way => way
  | k_relation => relation
  | k_changeset => changeset
  end.

Definition kind_ignored (k : kind) : context :=
  match k with
  | k_node => ignored_node
  | k_way => ignored_way
  | k_relation => ignored_relation
  | k_changeset => ignored_changeset
  end.

(** [m_x_builder = unique_ptr(new XBuilder(m_buffer))]. *)
Definition set_builder (k : kind) (present : bool) (b : Builders) : Builders :=
  {| m_node_builder := match k with k_node => present | _ => m_node_builder b end;
     m_way_builder := match k with k_way => present | _ => m_way_builder b end;
     m_relation_builder :=
       match k with k_relation => present | _ => m_relation_builder b end;
     m_changeset_builder :=
       match k with k_changeset => present | _ => m_changeset_builder b end;
     m_tl_builder := m_tl_builder b; m_wnl_builder := m_wnl_builder b;
     m_rml_builder := m_rml_builder b;
     calls := calls b |}.

Definition set_lists (tl wnl rml : bool) (b : Builders) : Builders :=
  {| m_node_builder := m_node_builder b; m_way_builder := m_way_builder b;
     m_relation_builder := m_relation_builder b;
     m_changeset_builder := m_changeset_builder b;
     m_tl_builder := tl; m_wnl_builder := wnl; m_rml_builder := rml;
     calls := calls b |}.

(** The attribute loop of [init_object]: the calls on the object, and the
    [user] it returns. *)
Fixpoint init_object_attrs (attrs : list (string * string)) (user : string)
  : list call * string :=
  match attrs with
  | [] => ([], user)
  | (name, value) :: rest =>
      if String.eqb name "lon" then
        let '(cs, u) := init_object_attrs rest user in (location_set_lon value :: cs, u)
      else if String.eqb name "lat" then
        let '(cs, u) := init_object_attrs rest user in (location_set_lat value :: cs, u)
      else if String.eqb name "user" then init_object_attrs rest value
      else
        let '(cs, u) := init_object_attrs rest user in (set_attribute name value :: cs, u)
  end.

(** [init_object(object, attrs)] for the object of a builder of kind
    [k]. *)
Definition init_object (in_delete_section : bool) (k : kind)
    (attrs : list (string * string)) : list call * string :=
  let '(cs, user) := init_object_attrs attrs "" in
  ((if in_delete_section then [set_visible_false] else [])
     ++ cs
     ++ match k with k_node => [set_location_if_defined] | _ => [] end,
   user).

(** The attribute loop of [init_changeset]. *)
Fixpoint init_changeset_attrs (attrs : list (string * string)) (user : string)
  : list call * string :=
  match attrs with
  | [] => ([], user)
  | (name, value) :: rest =>
      if String.eqb name "min_lon" then
        let '(cs, u) := init_changeset_attrs rest user in (min_set_lon value :: cs, u)
      else if String.eqb name "min_lat" then
        let '(cs, u) := init_changeset_attrs rest user in (min_set_lat value :: cs, u)
      else if String.eqb name "max_lon" then
        let '(cs, u) := init_changeset_attrs rest user in (max_set_lon value :: cs, u)
      else if String.eqb name "max_lat" then
        let '(cs, u) := init_changeset_attrs rest user in (max_set_lat value :: cs, u)
      else if String.eqb name "user" then init_changeset_attrs rest value
      else
        let '(cs, u) := init_changeset_attrs rest user in (set_attribute name value :: cs, u)
  end.

Definition init_changeset (attrs : list (string * string)) : list call :=
  let '(cs, user) := init_changeset_attrs attrs "" in
  cs ++ [bounds_extend_min_max; add_user user].

(** The attribute loop of [check_tag]: the last ["k"] and the last ["v"]. *)
Fixpoint tag_attrs (attrs : list (string * string)) (key value : string)
  : string * string :=
  match attrs with
  | [] => (key, value)
  | (name, v) :: rest =>
      if String.eqb name "k" then tag_attrs rest v value
      else if String.eqb name "v" then tag_attrs rest key v
      else tag_attrs rest key value
  end.

Definition check_tag (p : XMLParser Builders) (element : string)
    (attrs : list (string * string)) : XMLParser Builders :=
  if String.eqb element "tag" then
    let b := builders p in
    let '(key, value) := tag_attrs attrs "" "" in
    called (with_objects p (set_lists true false false b))
           ((if m_tl_builder b then [] else [TagListBuilder_new])
              ++ [add_tag key value])
  else p.

(** The attribute loop of an [nd] element. *)
Definition nd_attrs (attrs : list (string * string)) : list call :=
  omap (fun '(name, value) =>
          if String.eqb name "ref" then Some (add_node_ref value) else None)
       attrs.

(** The attribute loop of a [member] element: [type], [ref] and [role]. *)
Fixpoint member_attrs (attrs : list (string * string)) (type : ascii)
    (ref : option string) (role : string) : call :=
  match attrs with
  | [] => add_member type ref role
  | (name, value) :: rest =>
      if String.eqb name "type" then
        member_attrs rest
          (match value with String c _ => c | EmptyString => Ascii.zero end) ref role
      else if String.eqb name "ref" then member_attrs rest type (Some value) role
      else if String.eqb name "role" then member_attrs rest type ref value
      else member_attrs rest type ref role
  end.

(** The attribute loop of a [bounds] element. *)
Definition bounds_attrs (attrs : list (string * string)) : list call :=
  omap (fun '(name, value) =>
          if String.eqb name "minlon" then Some (min_set_lon value)
          else if String.eqb name "minlat" then Some (min_set_lat value)
          else if String.eqb name "maxlon" then Some (max_set_lon value)
          else if String.eqb name "maxlat" then Some (max_set_lat value)
          else None)
       attrs.

Section Callbacks.

(** Whether [assert] is compiled out, and the constants of
    [osmium::osm_entity_bits], declared outside the sources. *)
Variable NDEBUG : bool.
Variable nothing : Z.
Variable kind_bit : kind -> Z.

(** [assert(condition)]. *)
Definition assert (condition : bool) (p : XMLParser Builders) : option result :=
  if NDEBUG || condition then None
  else Some {| raised := Some assert_failed; after := p |}.

(** [header_is_done()]. *)
Definition header_is_done (p : XMLParser Builders) : result :=
  let p := with_header_is_done p true in
  {| raised := if m_read_types Builders p =? nothing then Some ParserIsDone else None;
     after := p |}.

(** [m_read_types & osmium::osm_entity_bits::k]. *)
Definition reads (p : XMLParser Builders) (k : kind) : bool :=
  negb (Z.land (m_read_types Builders p) (kind_bit k) =? 0).

(** The branch of an object element at the top level. *)
Definition start_object (p : XMLParser Builders) (k : kind)
    (attrs : list (string * string)) : result :=
  let r := header_is_done p in
  match raised r with
  | Some s => r
  | None =>
      let p := after r in
      if reads p k then
        let cs :=
          match k with
          | k_node => NodeBuilder_new :: nil
          | k_way => WayBuilder_new :: nil
          | k_relation => RelationBuilder_new :: nil
          | k_changeset => ChangesetBuilder_new :: nil
          end
          ++ match k with
             | k_changeset => init_changeset attrs
             | _ =>
                 let '(cs, user) :=
                   init_object (m_in_delete_section Builders p) k attrs in
                 cs ++ [add_user user]
             end in
        returns (with_context Builders
                   (called (with_objects p (set_builder k true (builders p))) cs)
                   (kind_context k))
      else returns (with_context Builders p (kind_ignored k))
  end.

Definition start_element_top (p : XMLParser Builders) (element : string)
    (attrs : list (string * string)) : result :=
  match assert (negb (m_tl_builder (builders p))) p with
  | Some failed => failed
  | None =>
      if String.eqb element "node" then start_object p k_node attrs
      else if String.eqb element "way" then start_object p k_way attrs
      else if String.eqb element "relation" then start_object p k_relation attrs
      else if String.eqb element "changeset" then start_object p k_changeset attrs
      else if String.eqb element "bounds" then
        returns (called p (bounds_attrs attrs ++ [bounds_extend_min_max; header_add_box]))
      else if String.eqb element "delete" then
        returns (with_in_delete_section p true)
      else returns p
  end.

(** A child element of an object of kind [k]. *)
Definition start_child (p : XMLParser Builders) (k : kind) (element : string)
    (attrs : list (string * string)) : XMLParser Builders :=
  let p := with_context Builders (with_last_context p (kind_context k)) in_object in
  match k with
  | k_way =>
      if String.eqb element "nd" then
        let b := builders p in
        called (with_objects p (set_lists false true (m_rml_builder b) b))
               ((if m_wnl_builder b then [] else [WayNodeListBuilder_new])
                  ++ nd_attrs attrs)
      else check_tag p element attrs
  | k_relation =>
      if String.eqb element "member" then
        let b := builders p in
        called (with_objects p (set_lists false (m_wnl_builder b) true b))
               ((if m_rml_builder b then [] else [RelationMemberListBuilder_new])
                  ++ [member_attrs attrs "x"%char None ""])
      else check_tag p element attrs
  | _ => check_tag p element attrs
  end.

(** [start_element] in every context; the root is the branch of
    [XMLParser.start_element]. *)
Definition start_element (p : XMLParser Builders) (element : string)
    (attrs : list (string * string)) : result :=
  match m_context p with
  | root =>
      let r := XMLParser.start_element
                 (fun p _ _ => {| thrown := None; parser := p |}) p element attrs in
      {| raised := io <$> thrown r; after := parser r |}
  | top => start_element_top p element attrs
  | node => returns (start_child p k_node element attrs)
  | way => returns (start_child p k_way element attrs)
  | relation => returns (start_child p k_relation element attrs)
  | changeset => returns (start_child p k_changeset element attrs)
  | ignored_node => returns p
  | ignored_way => returns p
  | ignored_relation => returns p
  | ignored_changeset => returns p
  | in_object =>
      match assert false p with
      | Some failed => failed
      | None => returns p
      end
  end.

(** The end of an object of kind [k]. *)
Definition end_object (p : XMLParser Builders) (k : kind) (element : string) : result :=
  match assert (String.eqb element (kind_name k)) p with
  | Some failed => failed
  | None =>
      let b := builders p in
      let b :=
        match k with
        | k_node => set_lists false (m_wnl_builder b) (m_rml_builder b) b
        | k_way => set_lists false false (m_rml_builder b) b
        | k_relation => set_lists false (m_wnl_builder b) false b
        | k_changeset => set_lists false (m_wnl_builder b) (m_rml_builder b) b
        end in
      returns (called (with_context Builders
                         (with_objects p (set_builder k false b)) top)
                      [commit; flush_buffer])
  end.

Definition end_ignored (p : XMLParser Builders) (k : kind) (element : string) : result :=
  if String.eqb element (kind_name k)
  then returns (with_context Builders p top)
  else returns p.

Definition end_element (p : XMLParser Builders) (element : string) : result :=
  match m_context p with
  | root =>
      match assert false p with
      | Some failed => failed
      | None => returns p
      end
  | top =>
      if String.eqb element "osm" || String.eqb element "osmChange" then
        let r := header_is_done p in
        match raised r with
        | Some s => r
        | None => returns (with_context Builders (after r) root)
        end
      else if String.eqb element "delete" then
        returns (with_in_delete_section p false)
      else returns p
  | node => end_object p k_node element
  | way => end_object p k_way element
  | relation => end_object p k_relation element
  | changeset => end_object p k_changeset element
  | in_object => returns (with_context Builders p (m_last_context Builders p))
  | ignored_node => end_ignored p k_node element
  | ignored_way => end_ignored p k_way element
  | ignored_relation => end_ignored p k_relation element
  | ignored_changeset => end_ignored p k_changeset element
  end.

(** The callbacks Expat makes for a document, in order. *)
Inductive callback :=
  | Start (element : string) (attrs : list (string * string))
  | End_ (element : string).

Definition handle (p : XMLParser Builders) (c : callback) : result :=
  match c with
  | Start element attrs => start_element p element attrs
  | End_ element => end_element p element
  end.

(** The callbacks in order, up to the first one that does not return. *)
Fixpoint run (p : XMLParser Builders) (cs : list callback) : result :=
  match cs with
  | [] => returns p
  | c :: rest =>
      let r := handle p c in
      match raised r with
      | Some _ => r
      | None => run (after r) rest
      end
  end.

(** An object element with its children, each a childless element, and
    the callbacks for it. *)
Record object := {
  object_kind : kind;
  object_attrs : list (string * string);
  object_children : list (string * list (string * string))
}.

Definition object_callbacks (o : object) : list callback :=
  Start (kind_name (object_kind o)) (object_attrs o)
    :: flat_map (fun '(element, attrs) => [Start element attrs; End_ element])
                (object_children o)
    ++ [End_ (kind_name (object_kind o))].

End Callbacks.

(** No builder exists. *)
Definition idle (b : Builders) : bool :=
  negb (m_node_builder b || m_way_builder b || m_relation_builder b
        || m_changeset_builder b || m_tl_builder b || m_wnl_builder b
        || m_rml_builder b).

(** The builders that may exist while an object of kind [k] is open: its
    own, which does exist, a tag list, and the list of its kind. *)
Definition object_open (k : kind) (b : Builders) : bool :=
  match k with
  | k_node =>
      m_node_builder b
      && negb (m_way_builder b || m_relation_builder b || m_changeset_builder b
               || m_wnl_builder b || m_rml_builder b)
  | k_way =>
      m_way_builder b
      && negb (m_node_builder b || m_relation_builder b || m_changeset_builder b
               || m_rml_builder b)
  | k_relation =>
      m_relation_builder b
      && negb (m_node_builder b || m_way_builder b || m_changeset_builder b
               || m_wnl_builder b)
  | k_changeset =>
      m_changeset_builder b
      && negb (m_node_builder b || m_way_builder b || m_relation_builder b
               || m_wnl_builder b || m_rml_builder b)
  end.

Definition is_commit (c : call) : bool :=
  match c with
  | commit => true
  | _ => false
  end.

(** The number of objects committed to the buffer. *)
Definition count_commits (cs : list call) : nat := length (List.filter is_commit cs).

Definition is_set_visible_false (c : call) : bool :=
  match c with
  | set_visible_false => true
  | _ => false
  end.

(** Whether a callback is the end tag of [name]. *)
Definition ends (name : string) (c : callback) : bool :=
  match c with
  | End_ element => String.eqb element name
  | Start _ _ => false
  end.

(** No child element has the name of its object. *)
Definition well_nested (o : object) : bool :=
  forallb (fun '(element, _) => negb (String.eqb element (kind_name (object_kind o))))
          (object_children o).

(** The value of the last attribute called [name], or the empty string. *)
Definition last_attribute (name : string) (attrs : list (string * string)) : string :=
  default "" (last (omap (fun '(n, v) => if String.eqb n name then Some v else None)
                         attrs)).

(** The members of the parser that only the root element, [delete]
    sections and the constructor set. *)
Definition settings (p : XMLParser Builders) : bool * Header * Z :=
  (m_in_delete_section Builders p, m_header p, m_read_types Builders p).

(** The calls made since [p]. *)
Definition calls_since (p q : XMLParser Builders) (cs : list call) : Prop :=
  calls (builders q) = calls (builders p) ++ cs.

(** The entity bits as libosmium numbers them, to run the parser on
    concrete documents. *)
Definition sample_bit (k : kind) : Z :=
  match k with
  | k_node => 1
  | k_way => 2
  | k_relation => 4
  | k_changeset => 16
  end.

Definition top_parser (read_types : Z) : XMLParser Builders :=
  with_context Builders (XMLParser_new Builders_new read_types) top.

(** A parser that reads nodes only, inside a node element. *)
Definition node_parser : XMLParser Builders :=
  after (run false 0 sample_bit (top_parser 1) [Start "node" [("id", "1")]]).

(** A parser that reads ways only, inside a node element. *)
Definition ignoring_parser : XMLParser Builders :=
  after (run false 0 sample_bit (top_parser 2) [Start "node" [("id", "1")]]).

(** A node with a tag and a way with two node references. *)
Definition sample_objects : list object :=
  [ {| object_kind := k_node;
       object_attrs := [("id", "1"); ("lon", "8.5"); ("lat", "47.3")];
       object_children := [("tag", [("k", "name"); ("v", "x")])] |};
    {| object_kind := k_way;
       object_attrs := [("id", "7")];
       object_children := [("nd", [("ref", "1")]); ("nd", [("ref", "2")])] |} ].

End XMLElements.

(** ** The description of a found route *)

Module RouteDescription.

Import Machine NutiViaRoute.

(** [Nuti::Routing::RoutingInstruction::Type], declared outside the
    sources: the enumerators [HandleRequest] names, and the others. *)
Inductive InstructionType :=
  | NO_TURN
  | STAY_ON_ROUNDABOUT
  | REACHED_YOUR_DESTINATION
  | REACH_VIA_LOCATION
  | other_type (code : Z).

(** [Nuti::Routing::RoutingInstruction] and [RoutingResult], as far as
    [HandleRequest] reads them. *)
Record RoutingInstruction := {
  getType : InstructionType;
  getAddress : string;
  getDistance : double;
  getTime : double;
  getGeometryIndex : Z
}.

Record RoutingResult := {
  getGeometry : list WGSPos;
  getInstructions : list RoutingInstruction
}.

(** [SegmentInformation], as far as [HandleRequest] sets and reads it. *)
Record SegmentInformation := {
  location : FixedPointCoordinate;
  pre_turn_bearing : Z;
  post_turn_bearing : Z
}.

Definition double_zero : double := SpecFloat.S754_zero false.
Definition double_add (a b : double) : double := SpecFloat.SFadd 53 1024 a b.

Definition no_row (type : InstructionType) : bool :=
  match type with
  | NO_TURN | STAY_ON_ROUNDABOUT => true
  | _ => false
  end.

Section Describe.

(** [static_cast<int>(x * COORDINATE_PRECISION)]. *)
Variable degrees_to_coordinate : double -> Z.

(** The bearings a [SegmentInformation] is constructed with. *)
Variable constructed_pre_turn_bearing : Z.
Variable constructed_post_turn_bearing : Z.

(** [static_cast<short>(coordinate_calculation::bearing(a, b) * 10)]. *)
Variable bearing_tenths : FixedPointCoordinate -> FixedPointCoordinate -> Z.

(** [static_cast<int>(type)], the conversion of a [std::size_t] to a
    number of the array, [std::to_string(static_cast<unsigned>(d))],
    [s / 10.0] on a [short], and [bearing::get]. *)
Variable type_code : InstructionType -> Z.
Variable size_t_to_double : Z -> double.
Variable unsigned_text : double -> string.
Variable tenths_to_double : Z -> double.
Variable bearing_get : double -> string.

(** The segment pushed for a point of the geometry. *)
Definition new_segment (pos : WGSPos) : SegmentInformation :=
  {| location := {| lat := degrees_to_coordinate (pos_0 pos);
                    lon := degrees_to_coordinate (pos_1 pos) |};
     pre_turn_bearing := constructed_pre_turn_bearing;
     post_turn_bearing := constructed_post_turn_bearing |}.

(** The loop [for (i = first_index; i < path_description.size(); i++)]
    which sets the bearings of [path_description[i]] from the locations
    of [path_description[i - 1]] and of itself; it changes no
    location. *)
Definition set_bearings (path_description : list SegmentInformation)
    (first_index : nat) : list SegmentInformation :=
  imap (fun i second =>
          if (first_index <=? i)%nat then
            match path_description !! (i - 1)%nat with
            | Some first =>
                {| location := location second;
                   pre_turn_bearing := bearing_tenths (location second) (location first);
                   post_turn_bearing := bearing_tenths (location first) (location second) |}
            | None => second
            end
          else second)
       path_description.

(** One [json_instruction_row]. *)
Definition instruction_row (type : InstructionType) (address : string)
    (distance time : double) (point_index : Z) (segment : SegmentInformation)
  : json_value :=
  let post_turn_bearing_value := tenths_to_double (post_turn_bearing segment) in
  let pre_turn_bearing_value := tenths_to_double (pre_turn_bearing segment) in
  JArray [ JString (to_string (type_code type));
           JString address;
           JNumber distance;
           JNumber (size_t_to_double point_index);
           JNumber time;
           JString (unsigned_text distance +:+ "m");
           JString (bearing_get post_turn_bearing_value);
           JNumber post_turn_bearing_value;
           JString (bearing_get pre_turn_bearing_value);
           JNumber pre_turn_bearing_value ].

(** The loop over the instructions of one result, from the values
    [distance] and [time] have: the rows pushed, or [None] when
    [path_description[point_index]] is read out of range, which is
    undefined. [more_results] is [i + 1 < results.size()]. *)
Fixpoint instruction_rows (path_description : list SegmentInformation)
    (path_index : nat) (more_results : bool)
    (instructions : list RoutingInstruction) (distance time : double)
  : option (list json_value) :=
  match instructions with
  | [] => Some []
  | instr :: rest =>
      let distance := double_add distance (getDistance instr) in
      let time := double_add time (getTime instr) in
      if no_row (getType instr) then
        instruction_rows path_description path_index more_results rest distance time
      else
        let type :=
          match getType instr with
          | REACHED_YOUR_DESTINATION =>
              if more_results then REACH_VIA_LOCATION else REACHED_YOUR_DESTINATION
          | type => type
          end in
        let point_index := to_size_t (Z.of_nat path_index + getGeometryIndex instr) in
        match path_description !! Z.to_nat point_index with
        | Some segment =>
            match instruction_rows path_description path_index more_results rest
                    double_zero double_zero with
            | Some rows =>
                Some (instruction_row type (getAddress instr) distance time
                        point_index segment :: rows)
            | None => None
            end
        | None => None
        end
  end.

(** The loop over the results, from the [path_description] collected so
    far: the final [path_description] and the rows of
    [json_route_instructions]. *)
Fixpoint describe_from (results : list RoutingResult)
    (path_description : list SegmentInformation)
  : option (list SegmentInformation * list json_value) :=
  match results with
  | [] => Some (path_description, [])
  | result :: rest =>
      match getInstructions result with
      | [] => describe_from rest path_description
      | instructions =>
          let path_index := length path_description in
          let path_description :=
            set_bearings (path_description ++ map new_segment (getGeometry result))
                         (Nat.max 1 path_index) in
          match instruction_rows path_description path_index
                  (match rest with [] => false | _ => true end)
                  instructions double_zero double_zero with
          | Some rows =>
              match describe_from rest path_description with
              | Some (path_description, more) => Some (path_description, rows ++ more)
              | None => None
              end
          | None => None
          end
      end
  end.

Definition describe (results : list RoutingResult)
  : option (list SegmentInformation * list json_value) :=
  describe_from results [].

(** The points a result adds to the path. *)
Definition result_points (result : RoutingResult) : list FixedPointCoordinate :=
  match getInstructions result with
  | [] => []
  | _ => map (fun pos => location (new_segment pos)) (getGeometry result)
  end.

(** Every segment but the first has the bearings to and from the
    location before it. *)
Definition linked (path_description : list SegmentInformation) : Prop :=
  forall i first second,
    path_description !! i = Some first ->
    path_description !! S i = Some second ->
    pre_turn_bearing second = bearing_tenths (location second) (location first)
    /\ post_turn_bearing second = bearing_tenths (location first) (location second).

(** The geometry indexes of a result point into its geometry. *)
Definition indexes_in_geometry (result : RoutingResult) : Prop :=
  Forall (fun instr =>
            0 <= getGeometryIndex instr < Z.of_nat (length (getGeometry result)))
         (getInstructions result).

(** The number of instructions that give a row. *)
Definition count_rows (results : list RoutingResult) : nat :=
  length (List.filter (fun instr => negb (no_row (getType instr)))
                      (flat_map getInstructions results)).

End Describe.

(** A result of three points, with a turn after a stretch without one. *)
Definition sample_result : RoutingResult :=
  {| getGeometry :=
       [ {| pos_0 := double_zero; pos_1 := double_zero |};
         {| pos_0 := double_zero; pos_1 := double_zero |};
         {| pos_0 := double_zero; pos_1 := double_zero |} ];
     getInstructions :=
       [ {| getType := NO_TURN; getAddress := "Main Street";
            getDistance := double_zero; getTime := double_zero;
            getGeometryIndex := 0 |};
         {| getType := other_type 3; getAddress := "Side Street";
            getDistance := double_zero; getTime := double_zero;
            getGeometryIndex := 1 |};
         {| getType := REACHED_YOUR_DESTINATION; getAddress := "";
            getDistance := double_zero; getTime := double_zero;
            getGeometryIndex := 2 |} ] |}.

(** The description with the conversions outside the sources replaced by
    simple ones, to run it on concrete results. *)
Definition sample_describe (results : list RoutingResult)
  : option (list SegmentInformation * list json_value) :=
  describe (fun _ => 0) 0 0 (fun a b => lat b - lat a) (fun _ => 0)
    (fun _ => double_zero) (fun _ => "0") (fun _ => double_zero) (fun _ => "N")
    results.

Definition sample_instruction_rows (path_description : list SegmentInformation)
    (instructions : list RoutingInstruction) : option (list json_value) :=
  instruction_rows (fun _ => 0) (fun _ => double_zero) (fun _ => "0")
    (fun _ => double_zero) (fun _ => "N")
    path_description 0 false instructions double_zero double_zero.

End RouteDescription.

(** ** The promise keeper of the XML parser *)

Module PromiseKeeper.

Section Keeper.

(** The type of the data, and the data [m_data] refers to, which its
    owner may change between the calls. *)
Variable T : Type.

Record PromiseKeeper := {
  m_done : bool
}.

(** [PromiseKeeper(data, promise)]. *)
Definition PromiseKeeper_new : PromiseKeeper := {| m_done := false |}.

(** [fullfill_promise()] when [m_data] is [data]: the keeper, and the
    values handed to [m_promise.set_value]. *)
Definition fullfill_promise (k : PromiseKeeper) (data : T) : PromiseKeeper * list T :=
  if m_done k then (k, []) else ({| m_done := true |}, [data]).

(** [~PromiseKeeper()]. *)
Definition PromiseKeeper_delete (k : PromiseKeeper) (data : T) : list T :=
  (fullfill_promise k data).2.

(** Calls of [fullfill_promise], one for each element of [datas], the
    data at the time of the call. *)
Fixpoint fullfill_all (k : PromiseKeeper) (datas : list T) : PromiseKeeper * list T :=
  match datas with
  | [] => (k, [])
  | data :: rest =>
      let '(k, set) := fullfill_promise k data in
      let '(k, sets) := fullfill_all k rest in
      (k, set ++ sets)
  end.

(** The life of a keeper: construction, the calls, destruction. *)
Definition lifetime (datas : list T) (final : T) : list T :=
  let '(k, sets) := fullfill_all PromiseKeeper_new datas in
  sets ++ PromiseKeeper_delete k final.

End Keeper.

Arguments fullfill_promise {T} k data.
Arguments PromiseKeeper_delete {T} k data.
Arguments fullfill_all {T} k datas.
Arguments lifetime {T} datas final.

End PromiseKeeper.

(** ** The plugin registry and query dispatch *)

Module OSRM.

(** What [OSRM_impl] does besides its results: the log lines, the reload
    check of the shared facade, the notification of the processes that
    wait for the queries to end, and a failed [BOOST_ASSERT_MSG]. *)
Inductive event :=
  | Log (message : string)
  | CheckAndReloadFacade
  | notify_all
  | assertion_failed (message : string).

Section Impl.

(** [RouteParameters] with its [service] member, and [BasePlugin::Status]
    with its conversion to [int], all declared outside the sources. *)
Variable RouteParameters : Type.
Variable service : RouteParameters -> string.
Variable Status : Type.
Variable status_code : Status -> Z.

(** A plugin: [GetDescriptor()] and [HandleRequest(route_parameters,
    json_result)], which returns a status and fills [json_result]. *)
Record BasePlugin := {
  GetDescriptor : string;
  HandleRequest : RouteParameters -> gmap string NutiViaRoute.json_value ->
                  Status * gmap string NutiViaRoute.json_value
}.

(** [SharedBarriers], as far as the query counting uses it; the locks
    have no effect on a single thread. *)
Record SharedBarriers := {
  number_of_queries : Z
}.

(** [plugin_map] and [barrier], which is [None] for a null pointer. *)
Record OSRM_impl := {
  plugin_map : gmap string BasePlugin;
  barrier : option SharedBarriers
}.

Definition RegisterPlugin (impl : OSRM_impl) (plugin_ptr : BasePlugin)
  : OSRM_impl * list event :=
  ({| plugin_map := <[GetDescriptor plugin_ptr := plugin_ptr]> (plugin_map impl);
      barrier := barrier impl |},
   [Log ("loaded plugin: " +:+ GetDescriptor plugin_ptr)]).

Definition decrease_concurrent_query_count (impl : OSRM_impl)
  : OSRM_impl * list event :=
  match barrier impl with
  | None => (impl, [])
  | Some b =>
      let n := number_of_queries b - 1 in
      ({| plugin_map := plugin_map impl;
          barrier := Some {| number_of_queries := n |} |},
       (if 0 <=? n then [] else [assertion_failed "invalid number of queries"])
         ++ (if 0 =? n then [notify_all] else []))
  end.

Definition increase_concurrent_query_count (impl : OSRM_impl)
  : OSRM_impl * list event :=
  match barrier impl with
  | None => (impl, [])
  | Some b =>
      ({| plugin_map := plugin_map impl;
          barrier := Some {| number_of_queries := number_of_queries b + 1 |} |},
       [CheckAndReloadFacade])
  end.

(** What [RunQuery] leaves behind: the returned code, [json_result], the
    object and the events. *)
Record ran := {
  return_code : Z;
  json_result : gmap string NutiViaRoute.json_value;
  impl_after : OSRM_impl;
  events : list event
}.

Definition RunQuery (impl : OSRM_impl) (route_parameters : RouteParameters)
    (json : gmap string NutiViaRoute.json_value) : ran :=
  match plugin_map impl !! service route_parameters with
  | None =>
      {| return_code := 400;
         json_result :=
           <["status_message" := NutiViaRoute.JString "Service not found"]> json;
         impl_after := impl;
         events := [] |}
  | Some plugin =>
      let '(impl1, events1) := increase_concurrent_query_count impl in
      let '(code, json') := HandleRequest plugin route_parameters json in
      let '(impl2, events2) := decrease_concurrent_query_count impl1 in
      {| return_code := status_code code;
         json_result := json';
         impl_after := impl2;
         events := events1 ++ events2 |}
  end.

(** The registrations of a constructor, in order. *)
Definition register_all (impl : OSRM_impl) (plugins : list BasePlugin)
  : OSRM_impl * list event :=
  fold_left
    (fun '(impl, evs) plugin =>
       let '(impl', evs') := RegisterPlugin impl plugin in (impl', evs ++ evs'))
    plugins (impl, []).

(** The object before the constructor body runs. *)
Definition OSRM_impl_empty : OSRM_impl :=
  {| plugin_map := ∅; barrier := None |}.

End Impl.

Arguments GetDescriptor {RouteParameters Status} _.
Arguments HandleRequest {RouteParameters Status} _ _ _.
Arguments Build_BasePlugin {RouteParameters Status} _ _.
Arguments plugin_map {RouteParameters Status} _.
Arguments barrier {RouteParameters Status} _.
Arguments Build_OSRM_impl {RouteParameters Status} _ _.
Arguments RegisterPlugin {RouteParameters Status} impl plugin_ptr.
Arguments increase_concurrent_query_count {RouteParameters Status} impl.
Arguments decrease_concurrent_query_count {RouteParameters Status} impl.
Arguments RunQuery {RouteParameters} service {Status} status_code impl route_parameters json.
Arguments register_all {RouteParameters Status} impl plugins.
Arguments OSRM_impl_empty {RouteParameters Status}.
Arguments return_code {RouteParameters Status} _.
Arguments json_result {RouteParameters Status} _.
Arguments impl_after {RouteParameters Status} _.
Arguments events {RouteParameters Status} _.

Section NutiServer.

(** The members of [RouteParameters] that [NutiViaRoutePlugin] reads, and
    what its [HandleRequest] needs from outside the plugin. *)
Variable RouteParameters : Type.
Variable coordinates : RouteParameters -> list NutiViaRoute.FixedPointCoordinate.
Variable zoom_level : RouteParameters -> Z.
Variable coordinate_to_degrees : Z -> NutiViaRoute.double.
Variable RoutingResult : Type.
Variable result_failed : RoutingResult -> bool.
Variable find : NutiViaRoute.RoutingQuery -> NutiViaRoute.find_outcome RoutingResult.
Variable route_geometry : list RoutingResult -> Z -> NutiViaRoute.json_value.
Variable route_instructions : list RoutingResult -> NutiViaRoute.json_value.

(** [NutiViaRoutePlugin] as a plugin: [descriptor_string] is "viaroute". *)
Definition NutiViaRoutePlugin (max_locations_viaroute : Z)
  : BasePlugin RouteParameters NutiViaRoute.Status :=
  {| GetDescriptor := "viaroute";
     HandleRequest := fun route_parameters json =>
       let r := NutiViaRoute.HandleRequest coordinate_to_degrees RoutingResult
                  result_failed find route_geometry route_instructions
                  max_locations_viaroute (coordinates route_parameters)
                  (zoom_level route_parameters) json in
       (NutiViaRoute.status r, NutiViaRoute.values r) |}.

(** The constructor of [OSRM_impl] when [NUTISERVER] is defined. *)
Definition OSRM_impl_nutiserver (max_locations_viaroute : Z)
  : OSRM_impl RouteParameters NutiViaRoute.Status * list event :=
  RegisterPlugin OSRM_impl_empty (NutiViaRoutePlugin max_locations_viaroute).

End NutiServer.

(** Requests and plugins to run the registry on: a request is its service
    name, a plugin answers with its own number. *)
Definition echo_plugin (descriptor : string) (code : Z) : BasePlugin string Z :=
  {| GetDescriptor := descriptor;
     HandleRequest := fun _ json =>
       (code, <["status_message" := NutiViaRoute.JString descriptor]> json) |}.

End OSRM.

(** * Properties *)

(** ** Machine integers and strings *)

Module MachineFacts.

Import Machine StdString.

Lemma to_int_id z : int_range z -> to_int z = z.
Proof.
  unfold int_range, to_int. intros H.
  rewrite Z.mod_small by lia. lia.
Qed.

Lemma to_int_range z : int_range (to_int z).
Proof.
  unfold int_range, to_int.
  pose proof (Z.mod_pos_bound (z + 2 ^ 31) (2 ^ 32)). lia.
Qed.

Lemma to_unsigned_range z : unsigned_range (to_unsigned z).
Proof. unfold unsigned_range, to_unsigned. apply Z.mod_pos_bound. lia. Qed.

(** Two integers that differ by a multiple of [2^32] are the same [int]. *)
Lemma to_int_congr a b k : a = b + k * 2 ^ 32 -> to_int a = to_int b.
Proof.
  unfold to_int. intros ->. f_equal.
  replace (b + k * 2 ^ 32 + 2 ^ 31) with (b + 2 ^ 31 + k * 2 ^ 32) by lia.
  apply Z_mod_plus_full.
Qed.

Lemma find_index_lt c s i : find_index c s = Some i -> (i < String.length s)%nat.
Proof.
  revert i. induction s as [|a s IH]; simpl; intros i H; [discriminate|].
  destruct (Ascii.eqb a c).
  - injection H as <-. lia.
  - destruct (find_index c s) as [j|]; [|discriminate].
    injection H as <-. specialize (IH j eq_refl). lia.
Qed.

(** The text before the first occurrence of [c] does not contain [c]. *)
Lemma find_index_prefix c s i :
  find_index c s = Some i ->
  find_index c (String.substring O i s) = None.
Proof.
  revert i. induction s as [|a s IH]; simpl; intros i H; [discriminate|].
  destruct (Ascii.eqb a c) eqn:E.
  - injection H as <-. reflexivity.
  - destruct (find_index c s) as [j|]; [|discriminate].
    injection H as <-. simpl. rewrite E, (IH j eq_refl). reflexivity.
Qed.

(** The text before the first occurrence of [c], taken with [substr0], has
    no [c]: [find] answers [npos] on it. *)
Lemma find_substr0_npos c s :
  find c s <> npos -> find c (substr0 (find c s) s) = npos.
Proof.
  unfold find at 1 3. destruct (find_index c s) as [i|] eqn:E; [|done].
  intros _. unfold substr0, size.
  pose proof (find_index_lt _ _ _ E).
  rewrite Z.min_l by lia. rewrite Nat2Z.id.
  unfold find. rewrite (find_index_prefix _ _ _ E). reflexivity.
Qed.

Lemma length_append (s t : string) :
  String.length (s +:+ t) = (String.length s + String.length t)%nat.
Proof.
  induction s as [|a s IH]; [reflexivity|].
  change (String a s +:+ t) with (String a (s +:+ t)).
  simpl. rewrite IH. reflexivity.
Qed.

Lemma append_inj_l (s t u : string) : s +:+ u = t +:+ u -> s = t.
Proof.
  revert t. induction s as [|a s IH]; intros [|b t] H.
  - reflexivity.
  - exfalso. apply (f_equal String.length) in H.
    rewrite !length_append in H. simpl in H. lia.
  - exfalso. apply (f_equal String.length) in H.
    rewrite !length_append in H. simpl in H. lia.
  - change (String a (s +:+ u) = String b (t +:+ u)) in H.
    injection H as -> H. f_equal. apply IH, H.
Qed.

End MachineFacts.

(** ** The plugin constructor *)

Module NutiViaRouteFacts.

Import Machine StdString NutiViaRoute MachineFacts.

Example discover_example :
  discover [regular "region-sub.nutigraph"; regular "readme.txt";
            regular "region.nutigraph"; regular "region.nutigraph"]
  = ["region"; "region-sub"].
Proof. vm_compute. reflexivity. Qed.

(** A path of exactly nine characters passes the extension test: [rfind]
    answers [npos], which is also [size() - 10] in [size_t]. *)
Example discover_nine_characters :
  discover [regular "notes.txt"] = ["notes.txt"].
Proof. vm_compute. reflexivity. Qed.

Example construct_example :
  construct import_ok [regular "b.nutigraph"; regular "a-x.nutigraph"] []
  = (["a-x.nutigraph"; "b.nutigraph"],
     [Write logINFO "Loading a-x.nutigraph";
      ImportCall "a-x.nutigraph" (Returned true);
      Write logINFO "Loading b.nutigraph";
      ImportCall "b.nutigraph" (Returned true)]).
Proof. vm_compute. reflexivity. Qed.

Section Loop.

Context {Graph : Type} (import : string -> Graph -> import_outcome * Graph).

Lemma set_count_pos x l : (0 <? set_count x l) = true <-> In x l.
Proof.
  unfold set_count. destruct (existsb (String.eqb x) l) eqn:E.
  - split; [intros _|reflexivity].
    apply existsb_exists in E as (y & Hy & Heq).
    apply String.eqb_eq in Heq. subst. exact Hy.
  - split; [discriminate|]. intros HIn. exfalso.
    assert (existsb (String.eqb x) l = true) as E'; [|congruence].
    apply existsb_exists. exists x. split; [exact HIn|apply String.eqb_refl].
Qed.

(** [skip_parent] answers the text before the first dash exactly when
    there is a dash and that text is in the set. *)
Lemma skip_parent_Some files f parent :
  skip_parent files f = Some parent <->
  find "-"%char f <> npos /\ parent = substr0 (find "-"%char f) f /\ In parent files.
Proof.
  unfold skip_parent.
  destruct (Z.eqb_spec (find "-"%char f) npos) as [E|E]; simpl.
  - split; [discriminate|]. intros (H & _). contradiction.
  - destruct (0 <? set_count _ files) eqn:C.
    + apply set_count_pos in C. split.
      * intros [= <-]. auto.
      * intros (_ & -> & _). reflexivity.
    + split; [discriminate|]. intros (_ & -> & HIn).
      apply set_count_pos in HIn. congruence.
Qed.

Lemma skip_parent_no_dash files f :
  find "-"%char f = npos -> skip_parent files f = None.
Proof.
  unfold skip_parent. intros ->. rewrite Z.eqb_refl. reflexivity.
Qed.

(** The events of the loop are those of its iterations. *)
Lemma load_files_elem files rest g e :
  In e (load_files import files rest g).2 ->
  exists f g', In f rest /\ In e (load_one import files f g').2.
Proof.
  revert g. induction rest as [|f rest IH]; intros g; simpl; [tauto|].
  destruct (load_one import files f g) as [g1 evs1] eqn:E1.
  destruct (load_files import files rest g1) as [g2 evs2] eqn:E2.
  simpl. intros [H|H]%in_app_or.
  - exists f, g. rewrite E1. auto.
  - destruct (IH g1) as (f' & g' & ? & ?); [rewrite E2; exact H|].
    exists f', g'. auto.
Qed.

Lemma load_files_iteration files rest g f :
  In f rest ->
  exists g', forall e, In e (load_one import files f g').2 ->
                       In e (load_files import files rest g).2.
Proof.
  revert g. induction rest as [|f0 rest IH]; intros g; simpl; [tauto|].
  destruct (load_one import files f0 g) as [g1 evs1] eqn:E1.
  destruct (load_files import files rest g1) as [g2 evs2] eqn:E2.
  intros [->|HIn].
  - exists g. rewrite E1. simpl. intros e He. apply in_or_app. auto.
  - destruct (IH g1 HIn) as (g' & Hg'). exists g'.
    intros e He. simpl. apply in_or_app. right.
    specialize (Hg' e He). rewrite E2 in Hg'. exact Hg'.
Qed.

Lemma load_one_skipped files f parent g :
  skip_parent files f = Some parent ->
  load_one import files f g = (g, [Write logINFO (skipping_message f parent)]).
Proof. unfold load_one. intros ->. reflexivity. Qed.

Lemma load_one_loaded files f g :
  skip_parent files f = None ->
  load_one import files f g =
    ((import (f +:+ nutigraph_ext) g).2,
     Write logINFO (loading_message f)
     :: ImportCall (f +:+ nutigraph_ext) (import (f +:+ nutigraph_ext) g).1
     :: match (import (f +:+ nutigraph_ext) g).1 with
        | Threw what => [Write logWARNING (failed_message (f +:+ nutigraph_ext) what)]
        | Returned _ => []
        end).
Proof.
  unfold load_one. intros ->.
  destruct (import (f +:+ nutigraph_ext) g) as [o g']. reflexivity.
Qed.

Lemma attempted_In (evs : list event) x :
  In x (attempted evs) <-> exists out, In (ImportCall x out) evs.
Proof.
  unfold attempted. rewrite <- list_elem_of_In, list_elem_of_omap. split.
  - intros ([lvl m|f out] & He & Hx); [discriminate|].
    injection Hx as ->. exists out. by apply list_elem_of_In.
  - intros (out & He). exists (ImportCall x out).
    split; [by apply list_elem_of_In|reflexivity].
Qed.

Lemma attempted_app (evs1 evs2 : list event) :
  attempted (evs1 ++ evs2) = attempted evs1 ++ attempted evs2.
Proof. unfold attempted. apply omap_app. Qed.

(** The files attempted by the loop are the files it does not skip, in
    the order of the set, whatever [import] answers. *)
Lemma load_files_attempted files rest g :
  attempted (load_files import files rest g).2 =
  map (fun f => f +:+ nutigraph_ext)
      (List.filter (fun f => negb (skipped files f)) rest).
Proof.
  revert g. induction rest as [|f rest IH]; intros g; simpl; [reflexivity|].
  destruct (load_one import files f g) as [g1 evs1] eqn:E1.
  destruct (load_files import files rest g1) as [g2 evs2] eqn:E2.
  simpl. rewrite attempted_app. specialize (IH g1). rewrite E2 in IH.
  simpl in IH. rewrite IH. unfold skipped.
  destruct (skip_parent files f) as [parent|] eqn:S; simpl.
  - rewrite (load_one_skipped _ _ _ _ S) in E1. by injection E1 as <- <-.
  - rewrite (load_one_loaded _ _ _ S) in E1. injection E1 as <- <-.
    by destruct (import (f +:+ nutigraph_ext) g).1.
Qed.

(** In the events of one iteration, an [import] that threw is followed
    by its warning. *)
Lemma load_one_warned files f g i fileName what :
  (load_one import files f g).2 !! i = Some (ImportCall fileName (Threw what)) ->
  (load_one import files f g).2 !! S i
    = Some (Write logWARNING (failed_message fileName what)).
Proof.
  destruct (skip_parent files f) as [parent|] eqn:S.
  - rewrite (load_one_skipped _ _ _ _ S). simpl.
    destruct i as [|i]; simpl; [discriminate|by rewrite lookup_nil].
  - rewrite (load_one_loaded _ _ _ S). simpl.
    destruct i as [|[|i]]; simpl; [discriminate| |].
    + intros [= <- E]. rewrite E. reflexivity.
    + destruct (import (f +:+ nutigraph_ext) g).1 as [ok|w]; simpl;
        [by rewrite lookup_nil|].
      destruct i; simpl; [discriminate|by rewrite lookup_nil].
Qed.

Lemma load_files_warned files rest g i fileName what :
  (load_files import files rest g).2 !! i
    = Some (ImportCall fileName (Threw what)) ->
  (load_files import files rest g).2 !! S i
    = Some (Write logWARNING (failed_message fileName what)).
Proof.
  revert g i. induction rest as [|f rest IH]; intros g i; simpl.
  - by rewrite lookup_nil.
  - pose proof (load_one_warned files f g) as H1.
    destruct (load_one import files f g) as [g1 evs1] eqn:E1.
    specialize (IH g1).
    destruct (load_files import files rest g1) as [g2 evs2] eqn:E2.
    simpl in *. intros H.
    destruct (decide (i < length evs1)%nat) as [Hlt|Hge].
    + rewrite lookup_app_l in H by exact Hlt.
      specialize (H1 _ _ _ H).
      apply lookup_app_l_Some. exact H1.
    + rewrite lookup_app_r in H by lia.
      specialize (IH _ H).
      rewrite lookup_app_r by lia.
      replace (S i - length evs1)%nat with (S (i - length evs1)) by lia.
      exact IH.
Qed.

End Loop.

(** C1, as stated, fails on the directory of the spec's own example: with
    [region] and [region-sub] the loop loads [region] and skips
    [region-sub]; [region-sub] is never handed to [import], and the skip
    that is logged is the one of [region-sub]. *)
Lemma region_loaded_region_sub_skipped :
  let evs := (construct import_ok
                [regular "region.nutigraph"; regular "region-sub.nutigraph"] []).2 in
  attempted evs = ["region.nutigraph"]
  /\ written logINFO evs
     = ["Loading region.nutigraph";
        "Skipping region-sub.nutigraph as region.nutigraph exists"]
  /\ ~ In "region-sub.nutigraph" (attempted evs).
Proof.
  vm_compute. split; [reflexivity|]. split; [reflexivity|].
  intros [H|[]]. discriminate H.
Qed.

(** C1 (amended): for every pair of discovered names where [parent] is
    the text of [child] before its first ['-'], the constructor skips the
    child, the dashed name: it logs "Skipping child.nutigraph as
    parent.nutigraph exists", never hands the child's file to [import],
    and does hand the parent's file to [import]. *)
Theorem dashed_child_skipped_parent_loaded
    {Graph : Type} (import : string -> Graph -> import_outcome * Graph)
    (routing_graph : Graph) (dir : list directory_entry) (parent child : string) :
  In parent (discover dir) ->
  In child (discover dir) ->
  find "-"%char child <> npos ->
  parent = substr0 (find "-"%char child) child ->
  let evs := (construct import dir routing_graph).2 in
  In (Write logINFO (skipping_message child parent)) evs
  /\ ~ In (child +:+ nutigraph_ext) (attempted evs)
  /\ In (parent +:+ nutigraph_ext) (attempted evs).
Proof.
  unfold construct. set (files := discover dir).
  intros Hparent Hchild Hdash Hpre.
  assert (skip_parent files child = Some parent) as Hskip
    by (apply skip_parent_Some; auto).
  assert (skip_parent files parent = None) as Hload.
  { apply skip_parent_no_dash. subst parent. by apply find_substr0_npos. }
  split; [|split].
  - destruct (load_files_iteration import files files routing_graph child Hchild)
      as (g' & Hg').
    apply Hg'. rewrite (load_one_skipped _ _ _ _ _ Hskip). simpl. auto.
  - intros (out & Hin)%attempted_In.
    apply load_files_elem in Hin as (f & g' & Hf & Hin).
    destruct (skip_parent files f) as [p|] eqn:S.
    + rewrite (load_one_skipped _ _ _ _ _ S) in Hin. simpl in Hin.
      destruct Hin as [Hin|[]]. discriminate Hin.
    + rewrite (load_one_loaded _ _ _ _ S) in Hin. simpl in Hin.
      destruct Hin as [Hin|[Hin|Hin]]; [discriminate Hin| |].
      * injection Hin as Hname _. apply append_inj_l in Hname. congruence.
      * destruct (import (f +:+ nutigraph_ext) g').1; simpl in Hin;
          [contradiction|]. destruct Hin as [Hin|[]]. discriminate Hin.
  - apply attempted_In.
    destruct (load_files_iteration import files files routing_graph parent Hparent)
      as (g' & Hg').
    exists (import (parent +:+ nutigraph_ext) g').1.
    apply Hg'. rewrite (load_one_loaded _ _ _ _ Hload). simpl. auto.
Qed.

(** The amended C1 on the spec's example directory. *)
Lemma dashed_child_skipped_parent_loaded_witness :
  let evs := (construct import_ok
                [regular "region.nutigraph"; regular "region-sub.nutigraph"] []).2 in
  In (Write logINFO (skipping_message "region-sub" "region")) evs
  /\ ~ In ("region-sub" +:+ nutigraph_ext) (attempted evs)
  /\ In ("region" +:+ nutigraph_ext) (attempted evs).
Proof.
  apply (dashed_child_skipped_parent_loaded import_ok []
           [regular "region.nutigraph"; regular "region-sub.nutigraph"]
           "region" "region-sub").
  - vm_compute. auto.
  - vm_compute. auto.
  - vm_compute. discriminate.
  - vm_compute. reflexivity.
Defined.

(** C6, as stated, fails when [import] reports the failure through its
    return value: the value is discarded, nothing but the "Loading" line
    is written for the failed package. The next package is still
    loaded. *)
Lemma refused_import_not_logged :
  construct import_refusing_bad
    [regular "bad.nutigraph"; regular "good.nutigraph"] []
  = (["good.nutigraph"],
     [Write logINFO "Loading bad.nutigraph";
      ImportCall "bad.nutigraph" (Returned false);
      Write logINFO "Loading good.nutigraph";
      ImportCall "good.nutigraph" (Returned true)])
  /\ written logWARNING
       (construct import_refusing_bad
          [regular "bad.nutigraph"; regular "good.nutigraph"] []).2 = [].
Proof. vm_compute. split; reflexivity. Qed.

Example thrown_import_logged :
  (construct import_throwing_bad
     [regular "bad.nutigraph"; regular "good.nutigraph"] []).2
  = [Write logINFO "Loading bad.nutigraph";
     ImportCall "bad.nutigraph" (Threw "bad version");
     Write logWARNING "Failed to load bad.nutigraph: bad version";
     Write logINFO "Loading good.nutigraph";
     ImportCall "good.nutigraph" (Returned true)].
Proof. vm_compute. reflexivity. Qed.

(** C6 (amended): whatever each [import] call does, return [true],
    return [false] or throw a [std::exception], the constructor hands to
    [import] every discovered package that the naming rule does not
    skip, in the order of the set; and every [import] that throws is
    followed by the warning "Failed to load <file>: <what>". *)
Theorem import_failure_does_not_abort
    {Graph : Type} (import : string -> Graph -> import_outcome * Graph)
    (routing_graph : Graph) (dir : list directory_entry) :
  let nutigraph_files := discover dir in
  let evs := (construct import dir routing_graph).2 in
  attempted evs
  = map (fun f => f +:+ nutigraph_ext)
        (List.filter (fun f => negb (skipped nutigraph_files f)) nutigraph_files)
  /\ forall i fileName what,
       evs !! i = Some (ImportCall fileName (Threw what)) ->
       evs !! S i = Some (Write logWARNING (failed_message fileName what)).
Proof.
  unfold construct. split.
  - apply load_files_attempted.
  - apply load_files_warned.
Qed.

End NutiViaRouteFacts.

(** ** [HandleRequest] *)

Module HandleRequestFacts.

Import Machine NutiViaRoute MachineFacts.

Section Request.

Context (coordinate_to_degrees : Z -> double).
Context {RoutingResult : Type} (result_failed : RoutingResult -> bool).
Context (find : RoutingQuery -> find_outcome RoutingResult).
Context (route_geometry : list RoutingResult -> Z -> json_value).
Context (route_instructions : list RoutingResult -> json_value).

#[local] Abbreviation route_legs :=
  (route_legs coordinate_to_degrees RoutingResult result_failed find).
#[local] Abbreviation leg_query := (leg_query coordinate_to_degrees).
#[local] Abbreviation HandleRequest :=
  (HandleRequest coordinate_to_degrees RoutingResult result_failed find
                 route_geometry route_instructions).

(** Every query of the routing loop is the one built from the first
    two coordinates. *)
Lemma route_legs_queries coordinates legs q :
  In q (route_legs coordinates legs).1 -> q = leg_query coordinates.
Proof.
  induction legs as [|legs IH]; simpl; [tauto|].
  destruct (find (leg_query coordinates)) as [result|what]; simpl.
  - destruct (result_failed result); simpl.
    + intros [<-|[]]. reflexivity.
    + destruct (route_legs coordinates legs) as [qs rest]. simpl in *.
      intros [<-|H]; [reflexivity|]. apply IH, H.
  - intros [<-|[]]. reflexivity.
Qed.

(** A loop that collects results has run all its iterations. *)
Lemma route_legs_complete coordinates legs results :
  (route_legs coordinates legs).2 = inr results ->
  length (route_legs coordinates legs).1 = legs.
Proof.
  revert results. induction legs as [|legs IH]; intros results; simpl;
    [reflexivity|].
  destruct (find (leg_query coordinates)) as [result|what]; simpl;
    [|discriminate].
  destruct (result_failed result); simpl; [discriminate|].
  destruct (route_legs coordinates legs) as [qs [m|rs]]; simpl in *;
    [discriminate|].
  intros _. f_equal. by apply (IH rs).
Qed.

(** A loop with at least one iteration hands its query to [find]. *)
Lemma route_legs_first coordinates legs :
  exists qs, (route_legs coordinates (S legs)).1 = leg_query coordinates :: qs.
Proof.
  simpl. destruct (find (leg_query coordinates)) as [result|what]; simpl;
    [|by eexists].
  destruct (result_failed result); [by eexists|].
  destruct (route_legs coordinates legs) as [qs rest]. by eexists.
Qed.

(** The loop reads the coordinates through its query only. *)
Lemma route_legs_ext coordinates coordinates' legs :
  leg_query coordinates = leg_query coordinates' ->
  route_legs coordinates legs = route_legs coordinates' legs.
Proof.
  intros E. induction legs as [|legs IH]; simpl; [reflexivity|].
  rewrite <- E, IH. reflexivity.
Qed.

Lemma HandleRequest_routes max_locations_viaroute coordinates zoom_level json_result :
  (0 <? max_locations_viaroute)
    && (max_locations_viaroute <? to_int (Z.of_nat (length coordinates))) = false ->
  (Z.of_nat (length coordinates) <? 2) = false ->
  queries (HandleRequest max_locations_viaroute coordinates zoom_level json_result)
  = (route_legs coordinates (length coordinates - 1)).1
  /\ (status (HandleRequest max_locations_viaroute coordinates zoom_level json_result) = Ok ->
      exists results,
        (route_legs coordinates (length coordinates - 1)).2 = inr results).
Proof.
  intros E1 E2. unfold NutiViaRoute.HandleRequest. rewrite E1, E2.
  replace (Z.to_nat (Z.of_nat (length coordinates) - 1))
    with (length coordinates - 1)%nat by lia.
  destruct (route_legs coordinates (length coordinates - 1)) as [qs [m|rs]];
    simpl; split; try reflexivity; try discriminate. by exists rs.
Qed.


(** C9: on a request whose number of coordinates fits an [int],
    [HandleRequest] returns [Status::Error], hands nothing to the route
    finder and only sets ["status_message"] when
    [max_locations_viaroute] is positive and exceeded (the message
    counts the entries) or when there are fewer than two coordinates
    ("Invalid coordinates"); in every other case the first routing
    query is handed to the route finder. *)
Theorem HandleRequest_rejects_before_routing
    max_locations_viaroute coordinates zoom_level json_result :
  let n := Z.of_nat (length coordinates) in
  n < 2 ^ 31 ->
  let r := HandleRequest max_locations_viaroute coordinates zoom_level json_result in
  (0 < max_locations_viaroute < n ->
     r = {| status := Error;
            values := <["status_message" :=
                          JString (too_many_message n max_locations_viaroute)]>
                        json_result;
            queries := [] |})
  /\ (~ 0 < max_locations_viaroute < n -> n < 2 ->
        r = {| status := Error;
               values := <["status_message" := JString "Invalid coordinates"]>
                           json_result;
               queries := [] |})
  /\ (~ 0 < max_locations_viaroute < n -> 2 <= n ->
        exists qs, queries r = leg_query coordinates :: qs).
Proof.
  intros n Hn r. subst r.
  assert (to_int n = n) as Hint by (apply to_int_id; unfold int_range; lia).
  unfold NutiViaRoute.HandleRequest. fold n. rewrite Hint.
  split; [|split].
  - intros [H1 H2].
    assert ((0 <? max_locations_viaroute) && (max_locations_viaroute <? n) = true)
      as -> by (apply andb_true_iff; split; apply Z.ltb_lt; lia).
    reflexivity.
  - intros Hmax Hlt.
    assert ((0 <? max_locations_viaroute) && (max_locations_viaroute <? n) = false)
      as ->.
    { apply andb_false_iff.
      destruct (Z.ltb_spec 0 max_locations_viaroute); [|by left].
      right. apply Z.ltb_ge. lia. }
    assert ((n <? 2) = true) as -> by (apply Z.ltb_lt; lia).
    reflexivity.
  - intros Hmax Hge.
    assert ((0 <? max_locations_viaroute) && (max_locations_viaroute <? n) = false)
      as ->.
    { apply andb_false_iff.
      destruct (Z.ltb_spec 0 max_locations_viaroute); [|by left].
      right. apply Z.ltb_ge. lia. }
    assert ((n <? 2) = false) as -> by (apply Z.ltb_ge; lia).
    destruct (Z.to_nat (n - 1)) as [|legs] eqn:E; [lia|].
    destruct (route_legs_first coordinates legs) as [qs Hqs].
    destruct (route_legs coordinates (S legs)) as [qs' [m|rs]];
      simpl in *; subst qs'; by exists qs.
Qed.

End Request.

Example HandleRequest_three_coordinates :
  queries (HandleRequest_any 0 [berlin; paris; rome] 18 ∅)
  = [{| query_pos0 := to_WGSPos degrees berlin; query_pos1 := to_WGSPos degrees paris |};
     {| query_pos0 := to_WGSPos degrees berlin; query_pos1 := to_WGSPos degrees paris |}].
Proof. vm_compute. reflexivity. Qed.

Example HandleRequest_too_many :
  HandleRequest_any 2 [berlin; paris; rome] 18 ∅
  = {| status := Error;
       values := {["status_message" :=
                     JString "Number of entries 3 is higher than current maximum (2)"]};
       queries := [] |}.
Proof. vm_compute. reflexivity. Qed.


(** C9 on requests with three coordinates and with one coordinate: the
    first exceeds a maximum of two, the second is too short, and three
    coordinates without a maximum reach the route finder. *)
Lemma HandleRequest_rejects_before_routing_witness :
  HandleRequest_any 2 [berlin; paris; rome] 18 ∅
  = {| status := Error;
       values := <["status_message" := JString (too_many_message 3 2)]> ∅;
       queries := [] |}
  /\ HandleRequest_any 2 [berlin] 18 ∅
     = {| status := Error;
          values := <["status_message" := JString "Invalid coordinates"]> ∅;
          queries := [] |}
  /\ exists qs, queries (HandleRequest_any 0 [berlin; paris; rome] 18 ∅)
                = leg_query degrees [berlin; paris; rome] :: qs.
Proof.
  split; [|split].
  - apply (HandleRequest_rejects_before_routing degrees (fun _ => false) find_any
             (fun _ _ => JString "geometry") (fun _ => JArray [])
             2 [berlin; paris; rome] 18 ∅); simpl; lia.
  - apply (HandleRequest_rejects_before_routing degrees (fun _ => false) find_any
             (fun _ _ => JString "geometry") (fun _ => JArray [])
             2 [berlin] 18 ∅); simpl; lia.
  - apply (HandleRequest_rejects_before_routing degrees (fun _ => false) find_any
             (fun _ _ => JString "geometry") (fun _ => JArray [])
             0 [berlin; paris; rome] 18 ∅); simpl; lia.
Defined.

End HandleRequestFacts.

(** ** Geometry coding *)

Module GeometryFacts.

Import Machine RoutingGraph MachineFacts.

(** Exclusive-or with the all-ones word is the complement within the
    word. *)
Lemma lxor_ones_32 a : 0 <= a < 2 ^ 32 -> Z.lxor a (2 ^ 32 - 1) = 2 ^ 32 - 1 - a.
Proof.
  intros Ha.
  assert (2 ^ 32 - 1 - a = Z.lnot a mod 2 ^ 32) as ->.
  { unfold Z.lnot. apply Z.mod_unique_pos with (q := -1); lia. }
  change (2 ^ 32 - 1) with (Z.ones 32).
  apply Z.bits_inj'. intros n Hn.
  rewrite Z.lxor_spec, Z.testbit_ones_nonneg by lia.
  destruct (Z.ltb_spec n 32) as [Hlt|Hge].
  - rewrite Z.mod_pow2_bits_low by lia.
    rewrite Z.lnot_spec by lia. by destruct (Z.testbit a n).
  - rewrite Z.mod_pow2_bits_high by lia.
    assert (Z.testbit a n = false) as ->; [|reflexivity].
    rewrite <- (Z.mod_small a (2 ^ 32)) by lia.
    apply Z.mod_pow2_bits_high. lia.
Qed.

Lemma land_1 v : Z.land v 1 = v mod 2.
Proof. change 1 with (Z.ones 1) at 1. rewrite Z.land_ones by lia. reflexivity. Qed.

(** The encoding sends [0, -1, 1, -2, 2, ...] to [0, 1, 2, 3, 4, ...]. *)
Lemma encodeZigZagValue_spec n :
  int_range n ->
  encodeZigZagValue n = if 0 <=? n then 2 * n else - 2 * n - 1.
Proof.
  unfold int_range, encodeZigZagValue, to_unsigned. intros Hn.
  rewrite Z.shiftl_mul_pow2, Z.shiftr_div_pow2 by lia.
  change (2 ^ 1) with 2.
  destruct (Z.leb_spec 0 n) as [Hpos|Hneg].
  - rewrite Z.div_small by lia. rewrite Z.lxor_0_r.
    rewrite Z.mod_small by lia. lia.
  - assert (n / 2 ^ 31 = -1) as -> by (symmetry; apply Z.div_unique_pos with (r := n + 2 ^ 31); lia).
    rewrite Z.lxor_m1_r. unfold Z.lnot.
    rewrite Z.mod_small by lia. lia.
Qed.

(** The decoding formula sends an even code to its half and an odd code
    to minus the half of its successor. *)
Lemma decodeZigZagValue_spec v :
  unsigned_range v ->
  decodeZigZagValue v = if Z.even v then v / 2 else - ((v + 1) / 2).
Proof.
  unfold unsigned_range, decodeZigZagValue, to_unsigned. intros Hv.
  rewrite Z.shiftr_div_pow2, land_1 by lia. change (2 ^ 1) with 2.
  rewrite Zmod_even. destruct (Z.even v) eqn:E.
  - simpl. rewrite Z.lxor_0_r. apply to_int_id.
    unfold int_range. pose proof (Z.div_mod v 2).
    pose proof (Z.mod_pos_bound v 2). lia.
  - change (- 1 mod 2 ^ 32) with (2 ^ 32 - 1).
    assert (0 <= v / 2 < 2 ^ 31) as Hhalf.
    { pose proof (Z.div_mod v 2). pose proof (Z.mod_pos_bound v 2). lia. }
    rewrite lxor_ones_32 by lia.
    assert ((v + 1) / 2 = v / 2 + 1) as ->.
    { assert (v mod 2 = 1) as Hodd by (rewrite Zmod_even, E; reflexivity).
      pose proof (Z.div_mod v 2). pose proof (Z.div_mod (v + 1) 2).
      pose proof (Z.mod_pos_bound (v + 1) 2). lia. }
    rewrite (to_int_congr _ (- (v / 2 + 1)) 1) by lia.
    apply to_int_id. unfold int_range. lia.
Qed.

Lemma decodeZigZagValue_encodeZigZagValue n :
  int_range n -> decodeZigZagValue (encodeZigZagValue n) = n.
Proof.
  intros Hn. rewrite decodeZigZagValue_spec by apply to_unsigned_range.
  rewrite encodeZigZagValue_spec by exact Hn.
  destruct (Z.leb_spec 0 n) as [Hpos|Hneg].
  - rewrite Z.even_mul. simpl. rewrite Z.mul_comm, Z.div_mul by lia. reflexivity.
  - replace (- 2 * n - 1) with (1 + 2 * (- n - 1)) by lia.
    rewrite Z.even_add_mul_2. simpl.
    replace (1 + 2 * (- n - 1) + 1) with ((- n) * 2) by lia.
    rewrite Z.div_mul by lia. lia.
Qed.

(** Adding the [int] difference of two [int]s to the first gives the
    second, in [int] arithmetic. *)
Lemma to_int_add_delta a b : int_range b -> to_int (a + to_int (b - a)) = b.
Proof.
  intros Hb.
  assert (exists k, to_int (b - a) = b - a + k * 2 ^ 32) as [k Hk].
  { unfold to_int. exists (- ((b - a + 2 ^ 31) / 2 ^ 32)).
    pose proof (Z.div_mod (b - a + 2 ^ 31) (2 ^ 32)). lia. }
  rewrite (to_int_congr _ b k) by lia. apply to_int_id, Hb.
Qed.

Lemma decodeGeometry_from_encodeGeometry_from prev points :
  Forall Point_in_range points ->
  decodeGeometry_from prev (encodeGeometry_from prev points) = points.
Proof.
  intros H. revert prev. induction H as [|[plat plon] points [Hlat Hlon] _ IH];
    intros prev; simpl; [reflexivity|].
  rewrite !decodeZigZagValue_encodeZigZagValue by apply to_int_range.
  simpl in Hlat, Hlon.
  rewrite !to_int_add_delta by assumption.
  f_equal. apply IH.
Qed.

Example encodeGeometry_example :
  encodeGeometry [{| lat := 3; lon := -2 |}; {| lat := 1; lon := -2 |}]
  = [(6, 3); (3, 0)].
Proof. vm_compute. reflexivity. Qed.

Example decodeGeometry_example :
  decodeGeometry [(6, 3); (3, 0)]
  = [{| lat := 3; lon := -2 |}; {| lat := 1; lon := -2 |}].
Proof. vm_compute. reflexivity. Qed.

(** C5: decoding, with [decodeZigZagValue v = (v >> 1) ^ -(v & 1)] on
    each latitude and longitude delta accumulated from zero, reverses
    the delta and zig-zag encoding of every sequence of points with
    [int] coordinates; in particular of the empty sequence and of a
    single point. *)
Theorem decodeGeometry_encodeGeometry points :
  Forall Point_in_range points ->
  decodeGeometry (encodeGeometry points) = points
  /\ decodeGeometry (encodeGeometry []) = []
  /\ (forall p, In p points -> decodeGeometry (encodeGeometry [p]) = [p])
  /\ (forall v, decodeZigZagValue v
                = to_int (Z.lxor (Z.shiftr v 1) (to_unsigned (- Z.land v 1))))
  /\ (forall n, int_range n -> decodeZigZagValue (encodeZigZagValue n) = n).
Proof.
  intros H. split; [|split; [|split; [|split]]].
  - by apply decodeGeometry_from_encodeGeometry_from.
  - reflexivity.
  - intros p Hp. apply decodeGeometry_from_encodeGeometry_from.
    constructor; [|constructor].
    rewrite List.Forall_forall in H. by apply H.
  - reflexivity.
  - apply decodeZigZagValue_encodeZigZagValue.
Qed.

(** C5 on a geometry that spans the whole [int] range. *)
Lemma decodeGeometry_encodeGeometry_witness :
  let points := [{| lat := 2147483647; lon := -2147483648 |};
                 {| lat := -2147483648; lon := 2147483647 |};
                 {| lat := 0; lon := 0 |}] in
  decodeGeometry (encodeGeometry points) = points.
Proof.
  apply (fun H => proj1 (decodeGeometry_encodeGeometry
           [{| lat := 2147483647; lon := -2147483648 |};
            {| lat := -2147483648; lon := 2147483647 |};
            {| lat := 0; lon := 0 |}] H)).
  repeat constructor; vm_compute; congruence.
Defined.

End GeometryFacts.

(** ** [SearchNode] and the search queue *)

Module SearchNodeFacts.

Import RoutingGraph SpecFloat.

(** On doubles other than NaN the IEEE comparison is the lexicographic
    comparison of the ranks. *)
Lemma SFcompare_rank a b :
  is_nan a = false -> is_nan b = false ->
  SFcompare a b = Some (rank_compare (double_rank a) (double_rank b)).
Proof.
  destruct a as [sa|sa| |sa ma ea], b as [sb|sb| |sb mb eb];
    try discriminate; intros _ _;
    try (destruct sa); try (destruct sb); try reflexivity.
  (* two negative numbers: the exponents and mantissas compare reversed *)
  unfold SFcompare, double_rank, rank_compare. simpl fst. simpl snd.
  change (-1 ?= -1) with Eq. cbv iota.
  rewrite Z.compare_opp, (Z.compare_antisym ea eb).
  destruct (ea ?= eb); reflexivity.
Qed.

Lemma rank_compare_le a b : rank_compare a b <> Gt <-> rank_le a b.
Proof.
  destruct a as [[a1 a2] a3], b as [[b1 b2] b3].
  unfold rank_compare, rank_le. simpl.
  destruct (Z.compare_spec a1 b1), (Z.compare_spec a2 b2), (Z.compare_spec a3 b3);
    split; intros Hle; try congruence; try lia; try (exfalso; lia).
Qed.

Lemma rank_compare_antisym a b : rank_compare b a = CompOpp (rank_compare a b).
Proof.
  destruct a as [[a1 a2] a3], b as [[b1 b2] b3].
  unfold rank_compare. simpl.
  rewrite (Z.compare_antisym a1 b1), (Z.compare_antisym a2 b2),
    (Z.compare_antisym a3 b3).
  destruct (a1 ?= b1), (a2 ?= b2), (a3 ?= b3); reflexivity.
Qed.

Lemma SFleb_rank a b :
  is_nan a = false -> is_nan b = false ->
  SFleb a b = true <-> rank_le (double_rank a) (double_rank b).
Proof.
  intros Ha Hb. unfold SFleb. rewrite (SFcompare_rank a b Ha Hb).
  rewrite <- rank_compare_le.
  destruct (rank_compare _ _); split; congruence.
Qed.

Lemma rank_le_trans a b c : rank_le a b -> rank_le b c -> rank_le a c.
Proof. unfold rank_le. lia. Qed.

Lemma rank_le_refl a : rank_le a a.
Proof. unfold rank_le. lia. Qed.

(** [a > b] is the comparison [Gt], also on NaN, where both fail. *)
Lemma double_gt_compare a b : double_gt a b = true <-> SFcompare a b = Some Gt.
Proof.
  unfold double_gt, SFltb.
  destruct (is_nan a) eqn:Ha; [destruct a; try discriminate; by destruct b|].
  destruct (is_nan b) eqn:Hb; [destruct b; try discriminate; by destruct a|].
  rewrite (SFcompare_rank b a Hb Ha), (SFcompare_rank a b Ha Hb).
  rewrite rank_compare_antisym.
  destruct (rank_compare _ _); simpl; split; congruence.
Qed.

(** Without NaN, an entry that is not less than another under
    [operator<] is at most as far. *)
Lemma not_lt_distance_le m x :
  is_nan (distance m) = false -> is_nan (distance x) = false ->
  SearchNode_lt m x = false -> distance_le m x.
Proof.
  intros Hm Hx H. unfold distance_le. apply SFleb_rank; [done..|].
  apply rank_compare_le. intros Hgt.
  assert (SearchNode_lt m x = true); [|congruence].
  apply double_gt_compare. rewrite (SFcompare_rank _ _ Hm Hx). by f_equal.
Qed.

Lemma lt_distance_le m x :
  is_nan (distance m) = false -> is_nan (distance x) = false ->
  SearchNode_lt m x = true -> distance_le x m.
Proof.
  intros Hm Hx H. unfold distance_le. apply SFleb_rank; [done..|].
  apply double_gt_compare in H. rewrite (SFcompare_rank _ _ Hm Hx) in H.
  apply rank_compare_le. rewrite rank_compare_antisym.
  injection H as ->. discriminate.
Qed.

Lemma distance_le_trans x y z :
  is_nan (distance x) = false -> is_nan (distance y) = false ->
  is_nan (distance z) = false ->
  distance_le x y -> distance_le y z -> distance_le x z.
Proof.
  unfold distance_le. intros Hx Hy Hz.
  rewrite !SFleb_rank by done. apply rank_le_trans.
Qed.

Lemma distance_le_refl x : is_nan (distance x) = false -> distance_le x x.
Proof. intros Hx. unfold distance_le. rewrite SFleb_rank by done. apply rank_le_refl. Qed.

Lemma pq_extract_None q : pq_extract q = None -> q = [].
Proof.
  destruct q as [|x q]; [done|]. simpl.
  destruct (pq_extract q) as [[m rest]|]; [|discriminate].
  destruct (SearchNode_lt m x); discriminate.
Qed.

(** [pq_extract] takes one entry out of the queue and keeps the others. *)
Lemma pq_extract_Permutation q m rest :
  pq_extract q = Some (m, rest) -> Permutation q (m :: rest).
Proof.
  revert m rest. induction q as [|x q IH]; intros m rest; simpl; [discriminate|].
  destruct (pq_extract q) as [[m' rest']|] eqn:E.
  - specialize (IH m' rest' eq_refl).
    destruct (SearchNode_lt m' x); intros [= <- <-].
    + by constructor.
    + rewrite IH. apply perm_swap.
  - apply pq_extract_None in E as ->. by intros [= <- <-].
Qed.

(** Without NaN, the entry [pq_extract] takes is at most as far as every
    entry of the queue. *)
Lemma pq_extract_least q m rest :
  no_nan q -> pq_extract q = Some (m, rest) ->
  Forall (distance_le m) q.
Proof.
  intros Hq. revert m rest.
  induction Hq as [|x q Hx Hq IH]; intros m rest; simpl; [discriminate|].
  destruct (pq_extract q) as [[m' rest']|] eqn:E.
  - specialize (IH m' rest' eq_refl).
    assert (is_nan (distance m') = false) as Hm'.
    { apply pq_extract_Permutation in E.
      rewrite List.Forall_forall in Hq. apply Hq.
      apply (Permutation_in _ (Permutation_sym E)). by left. }
    destruct (SearchNode_lt m' x) eqn:L; intros [= <- <-].
    + constructor; [by apply distance_le_refl|].
      rewrite List.Forall_forall in IH, Hq |- *. intros y Hy.
      apply (distance_le_trans x m' y); auto.
      by apply lt_distance_le.
    + constructor; [by apply not_lt_distance_le|exact IH].
  - apply pq_extract_None in E as ->. intros [= <- <-].
    constructor; [by apply distance_le_refl|constructor].
Qed.

Lemma pq_drain_sorted fuel q :
  no_nan q -> length q = fuel ->
  Permutation (pq_drain fuel q) q /\ StronglySorted distance_le (pq_drain fuel q).
Proof.
  revert q. induction fuel as [|fuel IH]; intros q Hq Hlen; simpl.
  - destruct q; [|discriminate]. split; constructor.
  - destruct (pq_extract q) as [[m rest]|] eqn:E.
    + pose proof (pq_extract_Permutation _ _ _ E) as HP.
      pose proof (pq_extract_least _ _ _ Hq E) as Hleast.
      assert (no_nan rest) as Hrest.
      { rewrite HP in Hq. by inversion Hq. }
      assert (length rest = fuel) as Hlen'.
      { apply Permutation_length in HP. simpl in HP. lia. }
      destruct (IH rest Hrest Hlen') as [HP' HS]. split.
      * rewrite HP. by constructor.
      * constructor; [exact HS|].
        rewrite HP in Hleast. inversion Hleast as [|? ? _ Hrest_le]; subst.
        by rewrite HP'.
    + apply pq_extract_None in E as ->. discriminate.
Qed.

Example pq_drain_example :
  pq_drain 3 (pq_push (at_distance two) (pq_push (at_distance three)
               (pq_push (at_distance one) [])))
  = [at_distance one; at_distance two; at_distance three].
Proof. vm_compute. reflexivity. Qed.

(** With a NaN in the queue [operator<] no longer orders the entries. *)
Example pq_top_nan :
  pq_top [at_distance one; at_distance S754_nan] = Some (at_distance S754_nan).
Proof. vm_compute. reflexivity. Qed.



End SearchNodeFacts.

(** ** Shared ownership of node blocks *)

Module StoreFacts.

Import Machine RoutingGraph.

Lemma owner_at_same a : owner_at a a = 1%nat.
Proof. unfold owner_at. by rewrite Nat.eqb_refl. Qed.

Lemma owner_at_other a x : a <> x -> owner_at a x = 0%nat.
Proof. unfold owner_at. intros H. by apply Nat.eqb_neq in H as ->. Qed.

Lemma owns_app l1 l2 x : owns (l1 ++ l2) x = (owns l1 x + owns l2 x)%nat.
Proof. induction l1 as [|a l1 IH]; simpl; [reflexivity|]. rewrite IH. lia. Qed.

Lemma owns_In l x : (0 < owns l x)%nat <-> In x l.
Proof.
  induction l as [|a l IH]; simpl; [split; [lia|tauto]|].
  destruct (decide (a = x)) as [->|Hne].
  - rewrite owner_at_same. split; [auto|lia].
  - rewrite owner_at_other by done. simpl. rewrite IH. split; [auto|].
    intros [?|?]; [contradiction|done].
Qed.

Lemma counted_mono h (f g : nat -> nat) :
  counted h f -> (forall x, (g x <= f x)%nat) -> counted h g.
Proof.
  intros H Hle a Ha. specialize (Hle a).
  destruct (H a) as (cb & E & Hcb); [lia|].
  exists cb. split; [exact E|lia].
Qed.

(** Copying a [shared_ptr] changes no block. *)
Lemma block_at_copy a h x : block_at (shared_copy a h) x = block_at h x.
Proof.
  unfold shared_copy, block_at. destruct (h !! a) as [cb|] eqn:E; [|reflexivity].
  destruct (decide (a = x)) as [<-|Hne].
  - by rewrite lookup_insert_eq, E.
  - by rewrite lookup_insert_ne.
Qed.

Lemma counted_copy h a f :
  counted h f -> is_Some (h !! a) ->
  counted (shared_copy a h) (fun x => (owner_at a x + f x)%nat).
Proof.
  intros H [cb E] x Hx. unfold shared_copy. rewrite E.
  destruct (decide (a = x)) as [<-|Hne].
  - rewrite lookup_insert_eq. eexists. split; [reflexivity|]. simpl.
    rewrite owner_at_same.
    destruct (f a) as [|n] eqn:Ef; [lia|].
    destruct (H a) as (cb' & E' & Hle); [lia|].
    rewrite E in E'. injection E' as <-. lia.
  - rewrite lookup_insert_ne by done.
    rewrite owner_at_other in Hx |- * by done. by apply H.
Qed.

Lemma counted_release h a f :
  counted h (fun x => (owner_at a x + f x)%nat) ->
  counted (shared_release a h) f.
Proof.
  intros H x Hx. destruct (H x) as (cb & E & Hle); [lia|].
  unfold shared_release. destruct (h !! a) as [cba|] eqn:Ea.
  - destruct (decide (a = x)) as [<-|Hne].
    + rewrite Ea in E. injection E as ->. rewrite owner_at_same in Hle.
      destruct (use_count cb) as [|[|n]] eqn:Ec; [lia..|].
      rewrite lookup_insert_eq. eexists. split; [reflexivity|]. simpl. lia.
    + rewrite owner_at_other in Hle by done.
      destruct (use_count cba) as [|[|n]].
      * rewrite lookup_delete_ne by done. eauto.
      * rewrite lookup_delete_ne by done. eauto.
      * rewrite lookup_insert_ne by done. eauto.
  - exists cb. split; [exact E|lia].
Qed.

(** Destroying a [shared_ptr] keeps every block that has another
    owner. *)
Lemma block_at_release h a f x :
  counted h (fun x => (owner_at a x + f x)%nat) ->
  (0 < f x)%nat ->
  block_at (shared_release a h) x = block_at h x.
Proof.
  intros H Hx. destruct (H x) as (cb & E & Hle); [lia|].
  unfold shared_release, block_at. destruct (h !! a) as [cba|] eqn:Ea; [|done].
  destruct (decide (a = x)) as [<-|Hne].
  - rewrite Ea in E. injection E as ->. rewrite owner_at_same in Hle.
    destruct (use_count cb) as [|[|n]] eqn:Ec; [lia..|].
    by rewrite lookup_insert_eq, Ea.
  - destruct (use_count cba) as [|[|n]].
    + by rewrite lookup_delete_ne.
    + by rewrite lookup_delete_ne.
    + by rewrite lookup_insert_ne.
Qed.

Lemma make_shared_fresh block h : h !! (make_shared block h).1 = None.
Proof. simpl. apply not_elem_of_dom, is_fresh. Qed.

Lemma block_at_make_shared block h :
  block_at (make_shared block h).2 (make_shared block h).1 = Some block.
Proof. unfold block_at. simpl. by rewrite lookup_insert_eq. Qed.

Lemma block_at_make_shared_other block h x :
  is_Some (h !! x) ->
  block_at (make_shared block h).2 x = block_at h x.
Proof.
  intros [cb E]. unfold block_at. simpl.
  rewrite lookup_insert_ne; [done|].
  intros <-. pose proof (make_shared_fresh block h) as F. simpl in F. congruence.
Qed.

Lemma counted_make_shared block h f :
  counted h f ->
  counted (make_shared block h).2
          (fun x => (owner_at (make_shared block h).1 x + f x)%nat).
Proof.
  intros H x Hx. pose proof (make_shared_fresh block h) as F. simpl in *.
  destruct (decide (fresh (dom h) = x)) as [<-|Hne].
  - rewrite lookup_insert_eq. eexists. split; [reflexivity|]. simpl.
    rewrite owner_at_same.
    destruct (f (fresh (dom h))) as [|n] eqn:Ef; [lia|].
    destruct (H (fresh (dom h))) as (cb & E & _); [lia|]. congruence.
  - rewrite lookup_insert_ne by done.
    rewrite owner_at_other in Hx |- * by done. by apply H.
Qed.

Lemma counted_is_Some h f x : counted h f -> (0 < f x)%nat -> is_Some (h !! x).
Proof. intros H Hx. destruct (H x Hx) as (cb & E & _). by exists cb. Qed.

End StoreFacts.

(** ** The node block cache and [getNode] *)

Module GraphFacts.

Import Machine RoutingGraph MachineFacts StoreFacts.

Lemma BlockId_eqb_eq k bid : BlockId_eqb k bid = true -> k = bid.
Proof.
  destruct k, bid. unfold BlockId_eqb. simpl.
  intros [H1 H2]%andb_true_iff. apply Z.eqb_eq in H1, H2. by subst.
Qed.

Lemma cache_get_In bid entries a :
  cache_get bid entries = Some a -> In (bid, a) entries.
Proof.
  induction entries as [|[k a'] rest IH]; simpl; [discriminate|].
  destruct (BlockId_eqb k bid) eqn:E.
  - intros [= ->]. apply BlockId_eqb_eq in E as ->. by left.
  - auto.
Qed.

Lemma cache_remove_In bid entries e :
  In e (cache_remove bid entries) -> In e entries.
Proof.
  induction entries as [|[k a] rest IH]; simpl; [tauto|].
  destruct (BlockId_eqb k bid); simpl; [auto|]. intros [?|?]; auto.
Qed.

Lemma owns_cache_remove bid entries a x :
  cache_get bid entries = Some a ->
  owns (map snd entries) x
  = (owner_at a x + owns (map snd (cache_remove bid entries)) x)%nat.
Proof.
  induction entries as [|[k a'] rest IH]; simpl; [discriminate|].
  destruct (BlockId_eqb k bid).
  - by intros [= ->].
  - intros H. simpl. rewrite (IH H). lia.
Qed.

Lemma removelast_In {A} (l : list A) e : In e (removelast l) -> In e l.
Proof.
  induction l as [|x l IH]; [tauto|].
  destruct l as [|y l]; [intros []|].
  change (removelast (x :: y :: l)) with (x :: removelast (y :: l)).
  intros [?|?]; [by left|]. right. by apply IH.
Qed.

Lemma owns_removelast (entries : list (BlockId * nat)) k a x :
  last entries = Some (k, a) ->
  owns (map snd entries) x
  = (owner_at a x + owns (map snd (removelast entries)) x)%nat.
Proof.
  induction entries as [|e entries IH]; [discriminate|].
  destruct entries as [|e' rest].
  - intros [= ->]. simpl. lia.
  - intros H. specialize (IH H).
    change (removelast (e :: e' :: rest)) with (e :: removelast (e' :: rest)).
    change (map snd (e :: e' :: rest)) with (e.2 :: map snd (e' :: rest)).
    change (map snd (e :: removelast (e' :: rest)))
      with (e.2 :: map snd (removelast (e' :: rest))).
    simpl owns. simpl owns in IH. lia.
Qed.

Section Graph.

Context (decodeNodeBlock : BlockId -> option NodeBlock).

#[local] Abbreviation loadNodeBlock := (loadNodeBlock decodeNodeBlock).
#[local] Abbreviation getNode := (getNode decodeNodeBlock).
#[local] Abbreviation cache_faithful := (cache_faithful decodeNodeBlock).

(** Eviction drops the cache's own pointer and nothing else. *)
Lemma cache_evict_inv st (f : nat -> nat) :
  counted (store st) (fun x => (owns (cache_owners st) x + f x)%nat) ->
  cache_faithful st ->
  counted (store (cache_evict st))
          (fun x => (owns (cache_owners (cache_evict st)) x + f x)%nat)
  /\ cache_faithful (cache_evict st)
  /\ keeps (store st) (store (cache_evict st)) f
  /\ nodeBlockCacheSize (cache_evict st) = nodeBlockCacheSize st.
Proof.
  intros Hc Hf. unfold cache_evict.
  destruct (nodeBlockCacheSize st <? length (nodeBlockCache st))%nat;
    [|by repeat split].
  destruct (last (nodeBlockCache st)) as [[k a]|] eqn:L; [|by repeat split].
  unfold cache_owners in *. simpl.
  assert (counted (store st)
            (fun x => (owner_at a x
                       + (owns (map snd (removelast (nodeBlockCache st))) x + f x))%nat))
    as Hc'.
  { apply (counted_mono _ _ _ Hc). intros x.
    rewrite (owns_removelast _ k a x L). lia. }
  split; [by apply counted_release|]. split; [|split; [|reflexivity]].
  - intros bid a' Hin. unfold RoutingGraph.cache_faithful in Hf. simpl in *.
    destruct (Hf bid a' (removelast_In _ _ Hin)) as (block & Hb & Hd).
    exists block. split; [|exact Hd].
    rewrite (block_at_release _ _ _ _ Hc'); [exact Hb|].
    assert (0 < owns (map snd (removelast (nodeBlockCache st))) a')%nat; [|lia].
    apply owns_In. apply (in_map snd) in Hin. exact Hin.
  - intros x Hx. apply (block_at_release _ _ _ _ Hc'). lia.
Qed.

(** [loadNodeBlock] gives its caller a pointer to the decoded block of
    the key, keeps the count of every owner, and changes no block that
    has an owner. *)
Lemma loadNodeBlock_inv st bid (f : nat -> nat) :
  counted (store st) (fun x => (owns (cache_owners st) x + f x)%nat) ->
  cache_faithful st ->
  match loadNodeBlock bid st with
  | (inr a, st') =>
      counted (store st')
              (fun x => (owner_at a x + (owns (cache_owners st') x + f x))%nat)
      /\ cache_faithful st'
      /\ (exists block, block_at (store st') a = Some block
                        /\ decodeNodeBlock bid = Some block)
      /\ keeps (store st) (store st') f
      /\ nodeBlockCacheSize st' = nodeBlockCacheSize st
  | (inl e, st') =>
      st' = st /\ e = decode_error /\ decodeNodeBlock bid = None
  end.
Proof.
  intros Hc Hf. unfold RoutingGraph.loadNodeBlock.
  destruct (cache_get bid (nodeBlockCache st)) as [a|] eqn:G.
  - (* hit *)
    pose proof (cache_get_In _ _ _ G) as Hin.
    destruct (Hf bid a Hin) as (block & Hb & Hd).
    unfold cache_owners in *. simpl.
    split; [|split; [|split; [|split]]].
    + eapply counted_mono.
      * apply (counted_copy _ a _ Hc).
        unfold block_at in Hb. destruct (store st !! a); [eauto|discriminate].
      * intros x. simpl. rewrite (owns_cache_remove bid _ a x G). lia.
    + intros bid' a' [[= <- <-]|Hin']; simpl.
      * exists block. by rewrite block_at_copy.
      * destruct (Hf bid' a' (cache_remove_In _ _ _ Hin')) as (b' & ? & ?).
        exists b'. by rewrite block_at_copy.
    + exists block. by rewrite block_at_copy.
    + intros x _. apply block_at_copy.
    + reflexivity.
  - (* miss *)
    destruct (decodeNodeBlock bid) as [block|] eqn:D; [|done].
    destruct (make_shared block (store st)) as [a h] eqn:M.
    assert (a = (make_shared block (store st)).1) as Ea by (by rewrite M).
    assert (h = (make_shared block (store st)).2) as Eh by (by rewrite M).
    set (s1 := {| store := shared_copy a h;
                  nodeBlockCache := (bid, a) :: nodeBlockCache st;
                  nodeBlockCacheSize := nodeBlockCacheSize st |}).
    assert (block_at h a = Some block) as Hba
      by (subst a h; apply block_at_make_shared).
    assert (forall x, is_Some (store st !! x) -> block_at h x = block_at (store st) x)
      as Hold by (intros x Hx; subst h; by apply block_at_make_shared_other).
    assert (counted (store s1)
              (fun x => (owns (cache_owners s1) x + (owner_at a x + f x))%nat)) as Hc1.
    { simpl. eapply counted_mono.
      - apply (counted_copy h a).
        + subst a h. apply (counted_make_shared block _ _ Hc).
        + unfold block_at in Hba. destruct (h !! a); [eauto|discriminate].
      - intros x. rewrite <- Ea. unfold cache_owners. simpl. lia. }
    assert (cache_faithful s1) as Hf1.
    { intros bid' a' [[= <- <-]|Hin']; simpl.
      - exists block. by rewrite block_at_copy.
      - destruct (Hf bid' a' Hin') as (b' & Hb' & ?).
        exists b'. rewrite block_at_copy, Hold; [done|].
        unfold block_at in Hb'. destruct (store st !! a'); [eauto|discriminate]. }
    destruct (cache_evict_inv s1 _ Hc1 Hf1) as (Hc2 & Hf2 & Hk2 & Hsz).
    split; [|split; [|split; [|split]]].
    + eapply counted_mono; [exact Hc2|]. intros x. simpl. lia.
    + exact Hf2.
    + exists block. split; [|reflexivity].
      rewrite Hk2 by (rewrite owner_at_same; lia).
      simpl. by rewrite block_at_copy.
    + intros x Hx. rewrite Hk2 by lia. simpl. rewrite block_at_copy.
      apply Hold. apply (counted_is_Some _ _ _ Hc). lia.
    + exact Hsz.
Qed.

(** [getNode] either fails and leaves every owner as it was, or gives
    a handle that owns the decoded block of the node's key. *)
Lemma getNode_inv st nodeId (f : nat -> nat) :
  counted (store st) (fun x => (owns (cache_owners st) x + f x)%nat) ->
  cache_faithful st ->
  match getNode nodeId st with
  | (inr p, st') =>
      exists a block,
        p = {| _node := Some (a, Z.to_nat (to_size_t (elementIndex nodeId)));
               _nodeBlock := Some a |}
        /\ block_at (store st') a = Some block
        /\ decodeNodeBlock (blockId nodeId) = Some block
        /\ is_Some (vector_at (nodes block) (to_size_t (elementIndex nodeId)))
        /\ counted (store st')
                   (fun x => (owner_at a x + (owns (cache_owners st') x + f x))%nat)
        /\ cache_faithful st'
        /\ keeps (store st) (store st') f
  | (inl e, st') =>
      counted (store st') (fun x => (owns (cache_owners st') x + f x)%nat)
      /\ cache_faithful st'
      /\ keeps (store st) (store st') f
      /\ ((e = decode_error /\ decodeNodeBlock (blockId nodeId) = None)
          \/ (e = out_of_range
              /\ exists block,
                   decodeNodeBlock (blockId nodeId) = Some block
                   /\ vector_at (nodes block) (to_size_t (elementIndex nodeId)) = None))
  end.
Proof.
  intros Hc Hf. unfold RoutingGraph.getNode.
  pose proof (loadNodeBlock_inv st (blockId nodeId) f Hc Hf) as H.
  destruct (loadNodeBlock (blockId nodeId) st) as [[e|a] st1].
  { destruct H as (-> & -> & Hd).
    split; [exact Hc|]. split; [exact Hf|]. split; [by intros x _|]. by left. }
  destruct H as (Hc1 & Hf1 & (block & Hb & Hd) & Hk & Hsz).
  unfold NodePtr_new.
  assert (exists cb, store st1 !! a = Some cb /\ pointee cb = block) as (cb & Ecb & <-).
  { unfold block_at in Hb. destruct (store st1 !! a) as [cb|]; [|discriminate].
    injection Hb as Hb. by exists cb. }
  rewrite Ecb.
  destruct (vector_at (nodes (pointee cb)) (to_size_t (elementIndex nodeId)))
    as [n|] eqn:V; simpl.
  - exists a, (pointee cb).
    assert (counted (shared_copy a (store st1))
              (fun x => (owner_at a x
                         + (owner_at a x + (owns (cache_owners st1) x + f x)))%nat))
      as Hc2 by (apply counted_copy; eauto).
    pose proof (counted_release _ _ _ Hc2) as Hc3.
    assert (forall x, (0 < owner_at a x + (owns (cache_owners st1) x + f x))%nat ->
              block_at (shared_release a (shared_copy a (store st1))) x
              = block_at (store st1) x) as Hkeep.
    { intros x Hx. rewrite (block_at_release _ _ _ _ Hc2) by exact Hx.
      apply block_at_copy. }
    split; [reflexivity|]. split.
    { rewrite Hkeep by (rewrite owner_at_same; lia). exact Hb. }
    split; [exact Hd|]. split; [by rewrite V|]. split; [exact Hc3|]. split.
    + intros bid a' Hin. simpl in *.
      destruct (Hf1 bid a' Hin) as (b' & Hb' & Hd').
      exists b'. split; [|exact Hd']. rewrite Hkeep; [exact Hb'|].
      assert (0 < owns (cache_owners st1) a')%nat; [|lia].
      apply owns_In. apply (in_map snd) in Hin. exact Hin.
    + intros x Hx. simpl. rewrite Hkeep by lia. by apply Hk.
  - pose proof (counted_release _ _ _ Hc1) as Hc3.
    assert (forall x, (0 < owns (cache_owners st1) x + f x)%nat ->
              block_at (shared_release a (store st1)) x = block_at (store st1) x)
      as Hkeep.
    { intros x Hx. by rewrite (block_at_release _ _ _ _ Hc1). }
    split; [exact Hc3|]. split; [|split].
    + intros bid a' Hin. simpl in *.
      destruct (Hf1 bid a' Hin) as (b' & Hb' & Hd').
      exists b'. split; [|exact Hd']. rewrite Hkeep; [exact Hb'|].
      assert (0 < owns (cache_owners st1) a')%nat; [|lia].
      apply owns_In. apply (in_map snd) in Hin. exact Hin.
    + intros x Hx. simpl. rewrite Hkeep by lia. by apply Hk.
    + right. split; [reflexivity|]. by exists (pointee cb).
Qed.

#[local] Abbreviation step := (step decodeNodeBlock).
#[local] Abbreviation run := (run decodeNodeBlock).
#[local] Abbreviation consistent := (consistent decodeNodeBlock).

Lemma handle_owners_snoc held o :
  handle_owners (held ++ [o])
  = handle_owners held ++ match handle_owner o with Some a => [a] | None => [] end.
Proof.
  unfold handle_owners. rewrite omap_app. simpl.
  by destruct (handle_owner o).
Qed.

Lemma owns_handle_release held slot p a x :
  held !! slot = Some (Some p) -> _nodeBlock p = Some a ->
  owns (handle_owners held) x
  = (owner_at a x + owns (handle_owners (<[slot := None]> held)) x)%nat.
Proof.
  revert slot. induction held as [|o held IH]; intros slot; [by rewrite lookup_nil|].
  destruct slot as [|slot]; simpl.
  - intros [= ->] Ha. unfold handle_owners. simpl. by rewrite Ha.
  - intros Hs Ha. specialize (IH slot Hs Ha).
    unfold handle_owners in *. simpl.
    destruct (handle_owner o); simpl; lia.
Qed.

Lemma owns_handle_held held slot p a :
  held !! slot = Some (Some p) -> _nodeBlock p = Some a ->
  (0 < owns (handle_owners held) a)%nat.
Proof.
  intros Hs Ha. apply owns_In. apply list_elem_of_In.
  unfold handle_owners. apply list_elem_of_omap. exists (Some p).
  split; [|exact Ha]. by apply list_elem_of_lookup_2 with slot.
Qed.

Lemma consistent_new_world capacity : consistent (new_world capacity).
Proof.
  split; [|split].
  - intros a Ha. simpl in Ha. lia.
  - intros bid a [].
  - intros p [].
Qed.

(** One action keeps the invariant, keeps every handle but the
    released one in its slot, and keeps the block of every handle that
    stays. *)
Lemma step_inv w act :
  consistent w ->
  consistent (step w act)
  /\ (forall slot p a,
        held w !! slot = Some (Some p) -> _nodeBlock p = Some a ->
        act <> Release slot ->
        held (step w act) !! slot = Some (Some p)
        /\ block_at (store (graph (step w act))) a
           = block_at (store (graph w)) a).
Proof.
  intros (Hc & Hf & Hok). destruct act as [nodeId keep|slot']; simpl.
  - pose proof (getNode_inv (graph w) nodeId _ Hc Hf) as H.
    destruct (getNode nodeId (graph w)) as [[e|p] st'].
    + destruct H as (Hc' & Hf' & Hk & _). split.
      * split; [|split]; simpl.
        -- rewrite handle_owners_snoc. simpl. by rewrite app_nil_r.
        -- exact Hf'.
        -- intros p [Hp|[Hp|[]]]%in_app_or; [by apply Hok|discriminate].
      * intros slot p a Hs Ha _. simpl. split.
        -- by apply lookup_app_l_Some.
        -- apply Hk. by apply (owns_handle_held _ slot p).
    + destruct H as (a0 & block & -> & Hb & Hd & Hv & Hc' & Hf' & Hk).
      destruct keep; simpl.
      * split.
        -- split; [|split]; simpl.
           ++ eapply counted_mono; [exact Hc'|]. intros x.
              rewrite handle_owners_snoc, owns_app. simpl. lia.
           ++ exact Hf'.
           ++ intros p [Hp|[Hp|[]]]%in_app_or; [by apply Hok|].
              injection Hp as <-. by exists a0, (Z.to_nat (to_size_t (elementIndex nodeId))).
        -- intros slot p a Hs Ha _. simpl. split.
           ++ by apply lookup_app_l_Some.
           ++ apply Hk. by apply (owns_handle_held _ slot p).
      * unfold NodePtr_delete. simpl. split.
        -- split; [|split]; simpl.
           ++ rewrite handle_owners_snoc. simpl. rewrite app_nil_r.
              by apply counted_release.
           ++ intros bid a' Hin. simpl in *.
              destruct (Hf' bid a' Hin) as (b' & Hb' & Hd').
              exists b'. split; [|exact Hd'].
              rewrite (block_at_release _ _ _ _ Hc'); [exact Hb'|].
              assert (0 < owns (cache_owners st') a')%nat; [|lia].
              apply owns_In. apply (in_map snd) in Hin. exact Hin.
           ++ intros p [Hp|[Hp|[]]]%in_app_or; [by apply Hok|discriminate].
        -- intros slot p a Hs Ha _. simpl. split.
           ++ by apply lookup_app_l_Some.
           ++ pose proof (owns_handle_held _ slot p a Hs Ha) as Hpos.
              rewrite (block_at_release _ _ _ _ Hc') by lia.
              by apply Hk.
  - destruct (held w !! slot') as [[p'|]|] eqn:Hs'.
    2,3: split; [by repeat split|]; intros slot p a Hs Ha _; by split.
    assert (In (Some p') (held w)) as Hin'
      by (apply list_elem_of_In; by apply list_elem_of_lookup_2 with slot').
    destruct (Hok p' Hin') as (a' & i' & Hn' & Ha').
    unfold NodePtr_delete. rewrite Ha'. simpl.
    assert (counted (store (graph w))
              (fun x => (owner_at a' x
                         + (owns (cache_owners (graph w)) x
                            + owns (handle_owners (<[slot' := None]> (held w))) x))%nat))
      as Hc'.
    { eapply counted_mono; [exact Hc|]. intros x. simpl.
      rewrite (owns_handle_release _ slot' p' a' x Hs' Ha'). lia. }
    split.
    + split; [|split]; simpl.
      * by apply counted_release.
      * intros bid a Hin. simpl in *.
        destruct (Hf bid a Hin) as (b & Hb & Hd).
        exists b. split; [|exact Hd].
        rewrite (block_at_release _ _ _ _ Hc'); [exact Hb|].
        assert (0 < owns (cache_owners (graph w)) a)%nat; [|lia].
        apply owns_In. apply (in_map snd) in Hin. exact Hin.
      * intros p Hp. apply Hok.
        apply list_elem_of_In in Hp. apply list_elem_of_In.
        apply list_elem_of_lookup in Hp as [k Hk].
        destruct (decide (slot' = k)) as [->|Hne].
        -- rewrite list_lookup_insert_eq in Hk; [discriminate|].
           by apply lookup_lt_Some in Hs'.
        -- rewrite list_lookup_insert_ne in Hk by done.
           by apply list_elem_of_lookup_2 with k.
    + intros slot p a Hs Ha Hne. simpl.
      assert (slot' <> slot) as Hne' by congruence.
      assert (<[slot' := None]> (held w) !! slot = Some (Some p)) as Hs2
        by (by rewrite list_lookup_insert_ne).
      split; [exact Hs2|].
      rewrite (block_at_release _ _ _ _ Hc'); [reflexivity|].
      pose proof (owns_handle_held _ slot p a Hs2 Ha). lia.
Qed.

Lemma run_consistent w actions : consistent w -> consistent (run w actions).
Proof.
  revert w. induction actions as [|act actions IH]; intros w Hw; simpl; [exact Hw|].
  apply IH. by apply step_inv.
Qed.

(** A handle that is not released stays in its slot, and the block it
    owns stays in the store, through any actions. *)
Lemma run_keeps w actions slot p a :
  consistent w ->
  held w !! slot = Some (Some p) -> _nodeBlock p = Some a ->
  Forall (fun act => act <> Release slot) actions ->
  held (run w actions) !! slot = Some (Some p)
  /\ block_at (store (graph (run w actions))) a = block_at (store (graph w)) a.
Proof.
  revert w. induction actions as [|act actions IH]; intros w Hw Hs Ha Hact; simpl.
  - by split.
  - inversion Hact as [|? ? Hne Hrest]; subst.
    destruct (step_inv w act Hw) as (Hw' & Hkeep).
    destruct (Hkeep slot p a Hs Ha Hne) as (Hs' & Hb').
    destruct (IH (step w act) Hw' Hs' Ha Hrest) as (Hs'' & Hb'').
    split; [exact Hs''|]. by rewrite Hb''.
Qed.

Lemma deref_block_at p h :
  deref p h = match _node p with
              | Some (a, i) => block_at h a ≫= fun block => nodes block !! i
              | None => None
              end.
Proof.
  unfold deref, block_at. destruct (_node p) as [[a i]|]; [|done].
  by destruct (h !! a).
Qed.

Lemma node_edges_block_at p h :
  node_edges p h
  = match _node p with
    | Some (a, i) =>
        block_at h a ≫= fun block =>
          nodes block !! i ≫= fun n =>
            match firstEdge n, lastEdge n with
            | Some first, Some last =>
                Some (take (last - first) (drop first (edges block)))
            | _, _ => Some []
            end
    | None => None
    end.
Proof.
  unfold node_edges, block_at. destruct (_node p) as [[a i]|]; [|done].
  destruct (h !! a) as [cb|]; [|done]. simpl.
  by destruct (nodes (pointee cb) !! i).
Qed.

(** [at] with an [int] index converted to [size_t] is in range exactly
    when the index is, for a vector below the maximal size. *)
Lemma vector_at_to_size_t {A} (v : list A) (index : Z) :
  int_range index -> Z.of_nat (length v) < 2 ^ 63 ->
  (0 <= index < Z.of_nat (length v) ->
     vector_at v (to_size_t index) = v !! Z.to_nat index
     /\ is_Some (v !! Z.to_nat index)
     /\ to_size_t index = index)
  /\ (~ 0 <= index < Z.of_nat (length v) ->
        vector_at v (to_size_t index) = None).
Proof.
  unfold int_range, vector_at, to_size_t, size_t_modulus. intros Hi Hv. split.
  - intros Hin. rewrite Z.mod_small by lia.
    assert ((index <? Z.of_nat (length v)) = true) as -> by (apply Z.ltb_lt; lia).
    split; [reflexivity|]. split; [|reflexivity].
    apply lookup_lt_is_Some. lia.
  - intros Hout. destruct (Z_lt_le_dec index 0) as [Hneg|Hpos].
    + assert (index mod 2 ^ 64 = index + 2 ^ 64) as ->.
      { symmetry. apply Z.mod_unique_pos with (q := -1); lia. }
      assert ((index + 2 ^ 64 <? Z.of_nat (length v)) = false) as ->
        by (apply Z.ltb_ge; lia).
      reflexivity.
    + rewrite Z.mod_small by lia.
      assert ((index <? Z.of_nat (length v)) = false) as ->
        by (apply Z.ltb_ge; lia).
      reflexivity.
Qed.

(** C7: in every state the graph reaches, for a node whose block
    decodes, [getNode] with an index outside the block's nodes throws
    [std::out_of_range] from [vector::at] and returns no handle; with
    an index inside it returns a handle that dereferences to exactly
    the node at that index. *)
Theorem getNode_checks_index capacity actions nodeId block :
  let w := run (new_world capacity) actions in
  let index := elementIndex nodeId in
  decodeNodeBlock (blockId nodeId) = Some block ->
  int_range index ->
  Z.of_nat (length (nodes block)) < 2 ^ 63 ->
  (~ 0 <= index < Z.of_nat (length (nodes block)) ->
     (getNode nodeId (graph w)).1 = inl out_of_range)
  /\ (0 <= index < Z.of_nat (length (nodes block)) ->
        exists p n,
          (getNode nodeId (graph w)).1 = inr p
          /\ nodes block !! Z.to_nat index = Some n
          /\ deref p (store (getNode nodeId (graph w)).2) = Some n).
Proof.
  intros w index Hd Hi Hv.
  assert (consistent w) as (Hc & Hf & _)
    by (apply run_consistent, consistent_new_world).
  pose proof (getNode_inv (graph w) nodeId _ Hc Hf) as H.
  destruct (vector_at_to_size_t (nodes block) index Hi Hv) as (Hin & Hout).
  fold index in H.
  destruct (getNode nodeId (graph w)) as [[e|p] st']; simpl.
  - destruct H as (_ & _ & _ & [(-> & Hnone)|(-> & b & Hb & Hat)]);
      [congruence|].
    rewrite Hd in Hb. injection Hb as <-.
    split; [reflexivity|].
    intros Hrange. destruct (Hin Hrange) as (E & [n Hn] & _).
    rewrite E, Hn in Hat. discriminate.
  - destruct H as (a & b & -> & Hba & Hb & Hat & _).
    rewrite Hd in Hb. injection Hb as <-.
    split.
    + intros Hrange. rewrite (Hout Hrange) in Hat. by destruct Hat.
    + intros Hrange. destruct (Hin Hrange) as (E & [n Hn] & Es).
      eexists _, n. split; [reflexivity|]. split; [exact Hn|].
      rewrite deref_block_at. simpl. rewrite Hba. simpl.
      by rewrite Es.
Qed.

(** C2: a handle that [getNode] returned and that its caller keeps
    dereferences to the same node, with the same edges, after any
    further queries, cache loads, evictions and releases of other
    handles; the handle's own [shared_ptr] keeps the block in the
    store. *)
Theorem NodePtr_survives_eviction capacity before nodeId p after :
  let w0 := run (new_world capacity) before in
  let slot := length (held w0) in
  let w1 := step w0 (Query nodeId true) in
  let w2 := run w1 after in
  (getNode nodeId (graph w0)).1 = inr p ->
  Forall (fun act => act <> Release slot) after ->
  held w2 !! slot = Some (Some p)
  /\ is_Some (deref p (store (graph w1)))
  /\ deref p (store (graph w2)) = deref p (store (graph w1))
  /\ node_edges p (store (graph w2)) = node_edges p (store (graph w1)).
Proof.
  intros w0 slot w1 w2 Hget Hafter.
  assert (consistent w0) as Hw0 by (apply run_consistent, consistent_new_world).
  assert (consistent w1) as Hw1 by (by apply step_inv).
  destruct Hw0 as (Hc & Hf & _).
  pose proof (getNode_inv (graph w0) nodeId _ Hc Hf) as H.
  assert (held w1 !! slot = Some (Some p)
          /\ graph w1 = (getNode nodeId (graph w0)).2) as (Hs & Hg).
  { subst w1. simpl.
    destruct (getNode nodeId (graph w0)) as [[e|p'] st']; simpl in *;
      [discriminate|].
    injection Hget as ->. simpl. split; [|reflexivity].
    apply list_lookup_middle. reflexivity. }
  destruct (getNode nodeId (graph w0)) as [[e|p'] st']; simpl in *;
    [discriminate|].
  injection Hget as ->.
  destruct H as (a & block & -> & Hba & _ & Hat & _).
  destruct (run_keeps w1 after slot _ a Hw1 Hs eq_refl Hafter) as (Hs2 & Hb2).
  fold w2 in Hs2, Hb2.
  split; [exact Hs2|].
  rewrite !deref_block_at, !node_edges_block_at. simpl.
  rewrite Hb2, Hg, Hba. simpl.
  split; [|by split].
  unfold vector_at in Hat.
  destruct (_ <? _); [exact Hat|by destruct Hat].
Qed.

End Graph.

Example getNode_out_of_range :
  (getNode sample_decode (node_id 0 2) (graph (new_world 1))).1 = inl out_of_range
  /\ (getNode sample_decode (node_id 0 (-1)) (graph (new_world 1))).1 = inl out_of_range.
Proof. vm_compute. split; reflexivity. Qed.

(** The cache keeps the most recently used blocks: with room for two,
    after blocks 0, 1, 0 and 2 it holds 2 and 0. *)
Example cache_least_recently_used :
  (nodeBlockCache (graph (run sample_decode (new_world 2)
      [Query (node_id 0 0) false; Query (node_id 1 0) false;
       Query (node_id 0 1) false; Query (node_id 2 0) false]))).*1
  = [blockId (node_id 2 0); blockId (node_id 0 0)].
Proof. vm_compute. reflexivity. Qed.

(** With a cache of one block, loading block 1 evicts block 0; the kept
    handle still reads its node, and the cache no longer has block 0. *)
Example handle_after_eviction :
  let w := run sample_decode (new_world 1)
             [Query (node_id 0 1) true; Query (node_id 1 0) false] in
  cache_get (blockId (node_id 0 1)) (nodeBlockCache (graph w)) = None
  /\ (held w !! 0%nat) = Some (Some {| _node := Some (0, 1)%nat; _nodeBlock := Some 0%nat |})
  /\ deref {| _node := Some (0, 1)%nat; _nodeBlock := Some 0%nat |} (store (graph w))
     = Some (sample_node 1).
Proof. vm_compute. repeat split; reflexivity. Qed.

(** Once the caller releases the handle of an evicted block, the block
    is deleted: the raw pointer of the released handle dangles. *)
Example handle_released_after_eviction :
  let w := run sample_decode (new_world 1)
             [Query (node_id 0 1) true; Query (node_id 1 0) false; Release 0] in
  deref {| _node := Some (0, 1)%nat; _nodeBlock := Some 0%nat |} (store (graph w)) = None.
Proof. vm_compute. reflexivity. Qed.

(** C7 on the second block of the sample package, after some queries. *)
Lemma getNode_checks_index_witness :
  (getNode sample_decode (node_id 1 5)
     (graph (run sample_decode (new_world 1) [Query (node_id 0 0) true]))).1
  = inl out_of_range
  /\ exists p n,
       (getNode sample_decode (node_id 1 1)
          (graph (run sample_decode (new_world 1) [Query (node_id 0 0) true]))).1 = inr p
       /\ nodes (sample_block 1) !! Z.to_nat 1 = Some n
       /\ deref p (store (getNode sample_decode (node_id 1 1)
                            (graph (run sample_decode (new_world 1)
                                      [Query (node_id 0 0) true]))).2)
          = Some n.
Proof.
  split.
  - apply (getNode_checks_index sample_decode 1 [Query (node_id 0 0) true]
             (node_id 1 5) (sample_block 1)).
    + reflexivity.
    + unfold int_range. simpl. lia.
    + simpl. lia.
    + simpl. lia.
  - apply (getNode_checks_index sample_decode 1 [Query (node_id 0 0) true]
             (node_id 1 1) (sample_block 1)).
    + reflexivity.
    + unfold int_range. simpl. lia.
    + simpl. lia.
    + simpl. lia.
Defined.

(** C2 on a cache of one block: the handle to a node of block 0 is kept
    while blocks 1, 2 and 3 are loaded, each evicting the one before,
    and another handle is taken and released. *)
Lemma NodePtr_survives_eviction_witness :
  let p := {| _node := Some (0, 1)%nat; _nodeBlock := Some 0%nat |} in
  let after := [Query (node_id 1 0) false; Query (node_id 2 1) true;
                Query (node_id 3 0) false; Release 1] in
  let w1 := step sample_decode (new_world 1) (Query (node_id 0 1) true) in
  let w2 := run sample_decode w1 after in
  held w2 !! 0%nat = Some (Some p)
  /\ is_Some (deref p (store (graph w1)))
  /\ deref p (store (graph w2)) = deref p (store (graph w1))
  /\ node_edges p (store (graph w2)) = node_edges p (store (graph w1)).
Proof.
  apply (NodePtr_survives_eviction sample_decode 1 [] (node_id 0 1)
           {| _node := Some (0, 1)%nat; _nodeBlock := Some 0%nat |}
           [Query (node_id 1 0) false; Query (node_id 2 1) true;
            Query (node_id 3 0) false; Release 1]).
  - vm_compute. reflexivity.
  - repeat constructor; discriminate.
Defined.

End GraphFacts.

(** ** The root element of an OSM XML file *)

Module XMLParserFacts.

Import XMLParser.

Lemma Header_get_set_other key key' value h :
  key <> key' -> Header_get key' (Header_set key value h) = Header_get key' h.
Proof. intros H. unfold Header_get, Header_set. simpl. by rewrite lookup_insert_ne. Qed.

Lemma Header_get_set key value h : Header_get key (Header_set key value h) = value.
Proof. unfold Header_get, Header_set. simpl. by rewrite lookup_insert_eq. Qed.

(** The loop stops at the first version attribute that is not "0.6". *)
Lemma root_attributes_unknown pre v post header :
  (forall v0, In ("version", v0) pre -> v0 = "0.6") ->
  v <> "0.6" ->
  exists header',
    root_attributes (pre ++ ("version", v) :: post) header
    = (Some (format_version_error_of v), header').
Proof.
  intros Hpre Hv. revert header.
  induction pre as [|[name value] pre IH]; intros header; simpl.
  - apply String.eqb_neq in Hv. rewrite Hv. simpl. by eexists.
  - destruct (String.eqb_spec name "version") as [->|Hname].
    + rewrite (Hpre value) by (by left). simpl.
      apply IH. intros v0 H0. apply Hpre. by right.
    + destruct (String.eqb name "generator");
        apply IH; intros v0 H0; apply Hpre; by right.
Qed.

(** Any version attribute that is not "0.6" makes the loop stop with the
    error of such an attribute. *)
Lemma root_attributes_some_unknown attrs v header :
  In ("version", v) attrs -> v <> "0.6" ->
  exists v' header',
    root_attributes attrs header = (Some (format_version_error_of v'), header')
    /\ In ("version", v') attrs /\ v' <> "0.6".
Proof.
  intros Hin Hv. revert header.
  induction attrs as [|[name value] attrs IH]; intros header; [destruct Hin|].
  simpl. destruct (String.eqb_spec name "version") as [->|Hname].
  - destruct (String.eqb_spec value "0.6") as [->|Hvalue]; simpl.
    + destruct Hin as [Heq|Hin]; [congruence|].
      destruct (IH Hin (Header_set "version" "0.6" header)) as (v' & h' & E & ? & ?).
      exists v', h'. split; [exact E|]. split; [by right|done].
    + exists value. eexists. split; [reflexivity|]. split; [by left|done].
  - destruct Hin as [Heq|Hin]; [congruence|].
    destruct (String.eqb name "generator").
    + destruct (IH Hin (Header_set "generator" value header)) as (v' & h' & E & ? & ?).
      exists v', h'. split; [exact E|]. split; [by right|done].
    + destruct (IH Hin header) as (v' & h' & E & ? & ?).
      exists v', h'. split; [exact E|]. split; [by right|done].
Qed.

(** Without a version attribute the loop ends and leaves the version of
    the header as it was. *)
Lemma root_attributes_missing attrs header :
  (forall v, ~ In ("version", v) attrs) ->
  exists header',
    root_attributes attrs header = (None, header')
    /\ Header_get "version" header' = Header_get "version" header.
Proof.
  revert header. induction attrs as [|[name value] attrs IH]; intros header Hno; simpl.
  - by eexists.
  - destruct (String.eqb_spec name "version") as [->|Hname].
    + exfalso. apply (Hno value). by left.
    + assert (forall v, ~ In ("version", v) attrs) as Hno'
        by (intros v H; apply (Hno v); by right).
      destruct (String.eqb_spec name "generator") as [->|Hgen].
      * destruct (IH (Header_set "generator" value header) Hno') as (h' & E & G).
        exists h'. split; [exact E|]. rewrite G.
        by apply Header_get_set_other.
      * by apply IH.
Qed.

(** When the loop ends, every version attribute was "0.6", and the
    header has the version it had unless there was such an attribute. *)
Lemma root_attributes_done attrs header header' :
  root_attributes attrs header = (None, header') ->
  (forall v, In ("version", v) attrs -> v = "0.6")
  /\ (Header_get "version" header' = Header_get "version" header
      \/ In ("version", "0.6") attrs).
Proof.
  revert header. induction attrs as [|[name value] attrs IH]; intros header; simpl.
  - intros [= <-]. split; [tauto|by left].
  - destruct (String.eqb_spec name "version") as [->|Hname].
    + destruct (String.eqb_spec value "0.6") as [->|Hvalue]; simpl; [|discriminate].
      intros H. destruct (IH _ H) as (Hall & _). split.
      * intros v [Heq|Hin]; [congruence|by apply Hall].
      * right. by left.
    + destruct (String.eqb_spec name "generator") as [->|Hgen]; intros H;
        destruct (IH _ H) as (Hall & Hget); split.
      * intros v [Heq|Hin]; [congruence|by apply Hall].
      * destruct Hget as [Hget|Hin]; [left|right; by right].
        rewrite Hget. by apply Header_get_set_other.
      * intros v [Heq|Hin]; [congruence|by apply Hall].
      * destruct Hget as [Hget|Hin]; [by left|right; by right].
Qed.

Section Root.

Context {Objects : Type}.
Context (start_element_below :
           XMLParser Objects -> string -> list (string * string) -> outcome Objects).

#[local] Abbreviation start_element := (start_element start_element_below).

(** C10: at the root of a document, where the header has no version
    yet, on an [osm] or [osmChange] element: the first version
    attribute whose value is not "0.6" makes [start_element] throw
    [format_version_error] with that value; without any version
    attribute it throws the [format_version_error] for a missing
    version; in both cases the parser stays in the root context; and
    when it does not throw, the element has a version attribute "0.6"
    and no other version. *)
Theorem start_element_root_version (p : XMLParser Objects) element attrs :
  m_context p = root ->
  Header_get "version" (m_header p) = "" ->
  element = "osm" \/ element = "osmChange" ->
  (forall pre v post,
     attrs = pre ++ ("version", v) :: post ->
     (forall v0, In ("version", v0) pre -> v0 = "0.6") ->
     v <> "0.6" ->
     thrown (start_element p element attrs) = Some (format_version_error_of v)
     /\ m_context (parser (start_element p element attrs)) = root)
  /\ (forall v,
        In ("version", v) attrs -> v <> "0.6" ->
        exists v',
          In ("version", v') attrs /\ v' <> "0.6"
          /\ thrown (start_element p element attrs)
             = Some (format_version_error_of v')
          /\ m_context (parser (start_element p element attrs)) = root)
  /\ ((forall v, ~ In ("version", v) attrs) ->
        thrown (start_element p element attrs) = Some format_version_error_missing
        /\ m_context (parser (start_element p element attrs)) = root)
  /\ (thrown (start_element p element attrs) = None ->
        m_context (parser (start_element p element attrs)) = top
        /\ In ("version", "0.6") attrs
        /\ forall v, In ("version", v) attrs -> v = "0.6").
Proof.
  intros Hroot Hfresh Helement.
  set (header := if String.eqb element "osmChange"
                 then set_has_multiple_object_versions true (m_header p)
                 else m_header p).
  assert (Header_get "version" header = "") as Hheader
    by (subst header; by destruct (String.eqb element "osmChange")).
  assert (start_element p element attrs
          = match root_attributes attrs header with
            | (Some e, header') =>
                {| thrown := Some e; parser := with_header Objects p header' |}
            | (None, header') =>
                if String.eqb (Header_get "version" header') ""
                then {| thrown := Some format_version_error_missing;
                        parser := with_header Objects p header' |}
                else {| thrown := None;
                        parser := with_context Objects
                                    (with_header Objects p header') top |}
            end) as ->.
  { unfold XMLParser.start_element. rewrite Hroot.
    by destruct Helement as [-> | ->]. }
  split; [|split; [|split]].
  - intros pre v post -> Hpre Hv.
    destruct (root_attributes_unknown pre v post header Hpre Hv) as (h' & ->).
    simpl. by split.
  - intros v Hin Hv.
    destruct (root_attributes_some_unknown attrs v header Hin Hv)
      as (v' & h' & -> & Hin' & Hv').
    exists v'. simpl. by repeat split.
  - intros Hno.
    destruct (root_attributes_missing attrs header Hno) as (h' & -> & Hget).
    rewrite Hget, Hheader. simpl. by split.
  - destruct (root_attributes attrs header) as [[e|] h'] eqn:E; simpl;
      [discriminate|].
    destruct (String.eqb_spec (Header_get "version" h') "") as [Hempty|Hset];
      simpl; [discriminate|].
    intros _. destruct (root_attributes_done _ _ _ E) as (Hall & [Hget|Hin]).
    + congruence.
    + by repeat split.
Qed.

End Root.

Example start_element_osm_0_6 :
  let r := start_element (fun p _ _ => {| thrown := None; parser := p |})
             (XMLParser_new tt 0) "osm"
             [("version", "0.6"); ("generator", "JOSM")] in
  thrown r = None /\ m_context (parser r) = top
  /\ Header_get "generator" (m_header (parser r)) = "JOSM".
Proof. vm_compute. repeat split; reflexivity. Qed.

(** The element name is checked before the version. *)
Example start_element_unknown_root :
  thrown (start_element (fun p _ _ => {| thrown := None; parser := p |})
            (XMLParser_new tt 0) "gpx" [("version", "1.1")])
  = Some (xml_error "Unknown top-level element: gpx").
Proof. vm_compute. reflexivity. Qed.

(** C10 on a change file of version 0.5 and on an [osm] element without
    attributes. *)
Lemma start_element_root_version_witness :
  let below := fun (p : XMLParser unit) (_ : string) (_ : list (string * string)) =>
                 {| thrown := None; parser := p |} in
  (thrown (start_element below (XMLParser_new tt 0) "osmChange"
             [("generator", "osmosis"); ("version", "0.5")])
   = Some (format_version_error "Can not read file with version 0.5" "0.5")
   /\ m_context (parser (start_element below (XMLParser_new tt 0) "osmChange"
                           [("generator", "osmosis"); ("version", "0.5")])) = root)
  /\ (thrown (start_element below (XMLParser_new tt 0) "osm" [])
      = Some format_version_error_missing
      /\ m_context (parser (start_element below (XMLParser_new tt 0) "osm" [])) = root).
Proof.
  intros below. split.
  - apply (proj1 (start_element_root_version below (XMLParser_new tt 0) "osmChange"
                    [("generator", "osmosis"); ("version", "0.5")]
                    eq_refl eq_refl (or_intror eq_refl))
             [("generator", "osmosis")] "0.5" []).
    + reflexivity.
    + intros v0 [H|[]]. discriminate H.
    + discriminate.
  - apply (proj1 (proj2 (proj2 (start_element_root_version below (XMLParser_new tt 0)
                                  "osm" [] eq_refl eq_refl (or_introl eq_refl))))).
    intros v [].
Defined.

End XMLParserFacts.

(** ** Package discovery *)

Module DiscoverFacts.

Import Machine StdString NutiViaRoute MachineFacts NutiViaRouteFacts.

Lemma prefix_length p s : String.prefix p s = true -> (String.length p <= String.length s)%nat.
Proof.
  revert p. induction s as [|a s IH]; intros [|b p]; simpl; try (intros; lia); try discriminate.
  destruct (ascii_dec b a); [|discriminate]. intros H. specialize (IH p H). lia.
Qed.

Lemma prefix_split p s : String.prefix p s = true -> exists post, s = p +:+ post.
Proof.
  revert p. induction s as [|a s IH]; intros [|b p]; simpl; try discriminate.
  - by exists "".
  - by exists (String a s).
  - destruct (ascii_dec b a) as [->|]; [|discriminate]. intros H.
    destruct (IH p H) as [post ->]. by exists post.
Qed.

Lemma prefix_append p post : String.prefix p (p +:+ post) = true.
Proof.
  induction p as [|b p IH]; [by destruct post|].
  change (String b p +:+ post) with (String b (p +:+ post)). simpl.
  by destruct (ascii_dec b b).
Qed.

Lemma substring_append name rest :
  String.substring 0 (String.length name) (name +:+ rest) = name.
Proof.
  induction name as [|a name IH]; [by destruct rest|].
  change (String a name +:+ rest) with (String a (name +:+ rest)).
  simpl. by rewrite IH.
Qed.

Lemma substring_all s : String.substring 0 (String.length s) s = s.
Proof. induction s as [|a s IH]; [done|]. simpl. by rewrite IH. Qed.

Lemma append_nil_r s : s +:+ "" = s.
Proof.
  induction s as [|a s IH]; [done|].
  change (String a s +:+ "") with (String a (s +:+ "")). by rewrite IH.
Qed.

Lemma append_assoc (s t u : string) : (s +:+ t) +:+ u = s +:+ (t +:+ u).
Proof.
  induction s as [|a s IH]; [done|].
  change (String a (s +:+ t) +:+ u = String a (s +:+ (t +:+ u))).
  change (String a ((s +:+ t) +:+ u) = String a (s +:+ (t +:+ u))).
  by rewrite IH.
Qed.

Lemma rfind_index_nil pat i :
  rfind_index pat "" i = if String.prefix pat "" then Some i else None.
Proof. reflexivity. Qed.

Lemma rfind_index_cons pat a s i :
  rfind_index pat (String a s) i
  = match rfind_index pat s (S i) with
    | Some j => Some j
    | None => if String.prefix pat (String a s) then Some i else None
    end.
Proof. reflexivity. Qed.

(** A string shorter than the pattern does not contain it. *)
Lemma rfind_index_short pat s i :
  (String.length s < String.length pat)%nat -> rfind_index pat s i = None.
Proof.
  revert i. induction s as [|a s IH]; intros i Hlen.
  - rewrite rfind_index_nil. destruct (String.prefix pat "") eqn:E; [|done].
    apply prefix_length in E. lia.
  - rewrite rfind_index_cons, IH by (simpl in Hlen; lia).
    destruct (String.prefix pat (String a s)) eqn:E; [|done].
    apply prefix_length in E. lia.
Qed.

(** What [rfind_index] finds is an occurrence of the pattern. *)
Lemma rfind_index_Some pat s i j :
  rfind_index pat s i = Some j ->
  exists pre post, s = pre +:+ (pat +:+ post) /\ j = (i + String.length pre)%nat.
Proof.
  revert i. induction s as [|a s IH]; intros i.
  - rewrite rfind_index_nil. destruct (String.prefix pat "") eqn:E; [|discriminate].
    intros [= <-]. apply prefix_split in E as [post E].
    exists "", post. split; [exact E|simpl; lia].
  - rewrite rfind_index_cons. destruct (rfind_index pat s (S i)) as [k|] eqn:R.
    + intros [= <-]. destruct (IH _ R) as (pre & post & -> & ->).
      exists (String a pre), post. split; [done|]. simpl. lia.
    + destruct (String.prefix pat (String a s)) eqn:E; [|discriminate].
      intros [= <-]. apply prefix_split in E as [post E].
      exists "", post. split; [exact E|simpl; lia].
Qed.

(** The last occurrence of a pattern in a string that ends with it is at
    the end. *)
Lemma rfind_index_suffix pat name i :
  pat <> "" ->
  rfind_index pat (name +:+ pat) i = Some (i + String.length name)%nat.
Proof.
  intros Hpat. revert i. induction name as [|a name IH]; intros i.
  - change ("" +:+ pat) with pat. destruct pat as [|c pat']; [done|].
    rewrite rfind_index_cons, rfind_index_short by (simpl; lia).
    assert (String.prefix (String c pat') (String c pat') = true) as ->.
    { rewrite <- (append_nil_r (String c pat')) at 2. apply prefix_append. }
    f_equal. simpl. lia.
  - change (String a name +:+ pat) with (String a (name +:+ pat)).
    rewrite rfind_index_cons, IH. f_equal. simpl. lia.
Qed.

(** The extension test of the first loop: it accepts the paths that end
    with ".nutigraph" and, through the wrap of [size() - 10], the paths of
    exactly nine characters; the name it yields is the path without the
    extension, and the whole path for nine characters. *)
Lemma has_nutigraph_ext_iff file_name :
  size file_name < size_t_modulus ->
  has_nutigraph_ext file_name = true <->
  (exists name, file_name = name +:+ nutigraph_ext) \/ String.length file_name = 9%nat.
Proof.
  unfold has_nutigraph_ext, rfind, to_size_t, size, size_t_modulus, npos.
  intros Hsize. split.
  - intros H. apply Z.eqb_eq in H.
    destruct (rfind_index nutigraph_ext file_name 0) as [i|] eqn:R.
    + destruct (rfind_index_Some _ _ _ _ R) as (pre & post & E & ->).
      left. exists pre.
      assert (String.length file_name
              = (String.length pre + (10 + String.length post))%nat) as Hlen.
      { rewrite E, !length_append. reflexivity. }
      rewrite Z.mod_small in H by (unfold size_t_modulus in *; lia).
      assert (String.length post = 0%nat) as Hpost by lia.
      destruct post; [|discriminate]. by rewrite append_nil_r in E.
    + right. destruct (Z_lt_le_dec (Z.of_nat (String.length file_name)) 10) as [Hlt|Hge].
      * assert ((Z.of_nat (String.length file_name) - 10) mod 2 ^ 64
                = Z.of_nat (String.length file_name) - 10 + 2 ^ 64) as E.
        { symmetry. apply Z.mod_unique_pos with (q := -1); lia. }
        unfold size_t_modulus in H. lia.
      * rewrite Z.mod_small in H by (unfold size_t_modulus in *; lia).
        unfold size_t_modulus in *. lia.
  - intros [[name ->]|Hnine]; apply Z.eqb_eq.
    + rewrite rfind_index_suffix by done. rewrite length_append in *. simpl in *.
      rewrite Z.mod_small by lia. lia.
    + rewrite rfind_index_short by (rewrite Hnine; simpl; lia).
      rewrite Hnine. reflexivity.
Qed.

Lemma name_of_nutigraph name :
  size (name +:+ nutigraph_ext) < size_t_modulus ->
  substr0 (to_size_t (size (name +:+ nutigraph_ext) - 10)) (name +:+ nutigraph_ext) = name.
Proof.
  unfold substr0, to_size_t, size, size_t_modulus. rewrite length_append. simpl.
  intros H. rewrite Z.mod_small by lia. rewrite Z.min_l by lia.
  replace (Z.to_nat (Z.of_nat (String.length name + 10) - 10)) with (String.length name) by lia.
  apply substring_append.
Qed.

Lemma name_of_nine file_name :
  String.length file_name = 9%nat ->
  substr0 (to_size_t (size file_name - 10)) file_name = file_name.
Proof.
  unfold substr0, to_size_t, size, size_t_modulus. intros H. rewrite H.
  change ((Z.of_nat 9 - 10) mod 2 ^ 64) with (2 ^ 64 - 1).
  rewrite Z.min_r by lia. rewrite <- (substring_all file_name) at 2.
  rewrite H. reflexivity.
Qed.

Lemma set_insert_In x y l : In x (set_insert y l) <-> x = y \/ In x l.
Proof.
  induction l as [|a l IH]; simpl.
  { split; intros [->|[]]; by left. }
  destruct (String.compare y a) eqn:C; simpl.
  - apply String.compare_eq_iff in C as ->.
    split; [intros [<-|H]; auto|intros [->|[<-|H]]; auto].
  - split; intros [->|H]; auto.
  - rewrite IH. split; [intros [H|[H|H]]; auto|intros [H|[H|H]]; auto].
Qed.

(** One step of the first loop. *)
Lemma discover_cons e dir :
  discover (e :: dir)
  = fold_left
      (fun nutigraph_files e =>
         let file_name := entry_path e in
         if entry_is_regular_file e && has_nutigraph_ext file_name
         then set_insert (substr0 (to_size_t (size file_name - 10)) file_name)
                         nutigraph_files
         else nutigraph_files)
      dir
      (if entry_is_regular_file e && has_nutigraph_ext (entry_path e)
       then [substr0 (to_size_t (size (entry_path e) - 10)) (entry_path e)]
       else []).
Proof. reflexivity. Qed.

Lemma fold_discover_In dir acc name :
  In name
     (fold_left
        (fun nutigraph_files e =>
           let file_name := entry_path e in
           if entry_is_regular_file e && has_nutigraph_ext file_name
           then set_insert (substr0 (to_size_t (size file_name - 10)) file_name)
                           nutigraph_files
           else nutigraph_files)
        dir acc)
  <-> In name acc
      \/ exists e, In e dir /\ entry_is_regular_file e = true
                   /\ has_nutigraph_ext (entry_path e) = true
                   /\ name = substr0 (to_size_t (size (entry_path e) - 10)) (entry_path e).
Proof.
  revert acc. induction dir as [|e dir IH]; intros acc; simpl.
  - split; [auto|]. intros [H|(e & [] & _)]. exact H.
  - rewrite IH. clear IH.
    destruct (entry_is_regular_file e) eqn:R; simpl.
    + destruct (has_nutigraph_ext (entry_path e)) eqn:X.
      * rewrite set_insert_In. split.
        -- intros [[->|H]|(e' & H & ?)]; [right|by left|right].
           ++ exists e. by rewrite R, X; auto.
           ++ exists e'. auto.
        -- intros [H|(e' & [<-|H] & ? & ? & ?)]; [by left; right| |].
           ++ left. by left.
           ++ right. exists e'. auto.
      * split.
        -- intros [H|(e' & H & ?)]; [by left|right]. exists e'. auto.
        -- intros [H|(e' & [<-|H] & ? & ? & ?)]; [by left|congruence|].
           right. exists e'. auto.
    + split.
      * intros [H|(e' & H & ?)]; [by left|right]. exists e'. auto.
      * intros [H|(e' & [<-|H] & ? & ? & ?)]; [by left|congruence|].
        right. exists e'. auto.
Qed.

(** X1: the names the first loop discovers are exactly the paths of the
    regular files that end with ".nutigraph", without that extension,
    and the paths of the regular files of exactly nine characters, as
    they are. *)
Theorem discover_names dir name :
  (forall e, In e dir -> size (entry_path e) < size_t_modulus) ->
  In name (discover dir) <->
  exists e, In e dir /\ entry_is_regular_file e = true
            /\ (entry_path e = name +:+ nutigraph_ext
                \/ (entry_path e = name /\ String.length name = 9%nat)).
Proof.
  intros Hsize. unfold discover. rewrite fold_discover_In. split.
  - intros [[]|(e & He & R & X & ->)]. exists e. split; [exact He|]. split; [exact R|].
    apply has_nutigraph_ext_iff in X; [|by apply Hsize].
    destruct X as [[name E]|Hnine].
    + left. rewrite E. rewrite name_of_nutigraph; [reflexivity|].
      rewrite <- E. by apply Hsize.
    + right. by rewrite name_of_nine.
  - intros (e & He & R & [E|[E Hnine]]); right; exists e;
      (split; [exact He|]); (split; [exact R|]); split.
    + apply has_nutigraph_ext_iff; [by apply Hsize|]. left. by exists name.
    + rewrite E. symmetry. apply name_of_nutigraph. rewrite <- E. by apply Hsize.
    + apply has_nutigraph_ext_iff; [by apply Hsize|]. right. by rewrite E.
    + rewrite E. symmetry. by apply name_of_nine.
Qed.

(** X1 on a directory with a graph, a text file of nine characters and a
    subdirectory. *)
Lemma discover_names_witness :
  In "region" (discover [regular "region.nutigraph"; regular "notes.txt";
                         {| entry_path := "sub.nutigraph";
                            entry_is_regular_file := false |}])
  /\ In "notes.txt" (discover [regular "region.nutigraph"; regular "notes.txt";
                               {| entry_path := "sub.nutigraph";
                                  entry_is_regular_file := false |}]).
Proof.
  assert (forall e,
            In e [regular "region.nutigraph"; regular "notes.txt";
                  {| entry_path := "sub.nutigraph"; entry_is_regular_file := false |}] ->
            size (entry_path e) < size_t_modulus) as Hsize.
  { intros e [<-|[<-|[<-|[]]]]; vm_compute; reflexivity. }
  split.
  - apply (proj2 (discover_names _ "region" Hsize)).
    exists (regular "region.nutigraph"). simpl. auto.
  - apply (proj2 (discover_names _ "notes.txt" Hsize)).
    exists (regular "notes.txt"). simpl. auto.
Defined.

Lemma compare_lt_trans x y z :
  String.compare x y = Lt -> String.compare y z = Lt -> String.compare x z = Lt.
Proof.
  intros Hxy Hyz. destruct (String.compare x z) eqn:C; [|reflexivity|].
  - apply String.compare_eq_iff in C as ->.
    rewrite String.compare_antisym, Hyz in Hxy. discriminate.
  - assert (String.le x z) as Hle.
    { transitivity y; unfold String.le, String.leb; [by rewrite Hxy|by rewrite Hyz]. }
    unfold String.le, String.leb in Hle. rewrite C in Hle. destruct Hle.
Qed.

Lemma compare_gt_lt x y : String.compare x y = Gt <-> String.compare y x = Lt.
Proof.
  rewrite (String.compare_antisym x y).
  destruct (String.compare y x); simpl; split; congruence.
Qed.

Lemma compare_refl x : String.compare x x = Eq.
Proof.
  induction x as [|a x IH]; simpl; [reflexivity|].
  unfold Ascii.compare. by rewrite N.compare_refl.
Qed.

(** Inserting two names in a set gives the same sequence in either
    order. *)
Lemma set_insert_comm x y l :
  set_insert x (set_insert y l) = set_insert y (set_insert x l).
Proof.
  induction l as [|a l IH]; simpl.
  - destruct (String.compare x y) eqn:Cxy.
    + apply String.compare_eq_iff in Cxy as ->. by rewrite compare_refl.
    + apply compare_gt_lt in Cxy as Cyx. by rewrite Cyx.
    + apply compare_gt_lt in Cxy as Cyx. by rewrite Cyx.
  - destruct (String.compare y a) eqn:Cya, (String.compare x a) eqn:Cxa; simpl;
      rewrite ?Cya, ?Cxa; try reflexivity.
    + (* y = a, x < a *)
      apply String.compare_eq_iff in Cya as ->.
      apply compare_gt_lt in Cxa as Cax. by rewrite Cax.
    + (* y < a, x = a *)
      apply String.compare_eq_iff in Cxa as ->.
      apply compare_gt_lt in Cya as Cay. by rewrite Cay.
    + (* y < a, x < a *)
      destruct (String.compare x y) eqn:Cxy.
      * apply String.compare_eq_iff in Cxy as ->. by rewrite compare_refl.
      * apply compare_gt_lt in Cxy as Cyx. rewrite Cyx. simpl.
        rewrite ?Cya, ?Cxa. reflexivity.
      * apply compare_gt_lt in Cxy as Cyx. rewrite Cyx. simpl.
        rewrite ?Cya, ?Cxa. reflexivity.
    + (* y < a < x *)
      assert (String.compare x y = Gt) as ->.
      { apply compare_gt_lt. apply (compare_lt_trans y a x); [exact Cya|].
        by apply compare_gt_lt. }
      simpl. rewrite ?Cxa. reflexivity.
    + (* x < a < y *)
      assert (String.compare y x = Gt) as ->.
      { apply compare_gt_lt. apply (compare_lt_trans x a y); [exact Cxa|].
        by apply compare_gt_lt. }
      simpl. rewrite ?Cya. reflexivity.
    + (* a < y, a < x *)
      by rewrite IH.
Qed.

Lemma fold_discover_Permutation dir dir' :
  Permutation dir dir' ->
  forall acc,
    fold_left
      (fun nutigraph_files e =>
         let file_name := entry_path e in
         if entry_is_regular_file e && has_nutigraph_ext file_name
         then set_insert (substr0 (to_size_t (size file_name - 10)) file_name)
                         nutigraph_files
         else nutigraph_files)
      dir acc
    = fold_left
        (fun nutigraph_files e =>
           let file_name := entry_path e in
           if entry_is_regular_file e && has_nutigraph_ext file_name
           then set_insert (substr0 (to_size_t (size file_name - 10)) file_name)
                           nutigraph_files
           else nutigraph_files)
        dir' acc.
Proof.
  induction 1 as [|e d d' _ IH|e1 e2 d|d1 d2 d3 _ IH1 _ IH2]; intros acc; simpl.
  - reflexivity.
  - apply IH.
  - f_equal.
    destruct (entry_is_regular_file e1 && has_nutigraph_ext (entry_path e1)),
      (entry_is_regular_file e2 && has_nutigraph_ext (entry_path e2));
      try reflexivity.
    apply set_insert_comm.
  - by rewrite IH1.
Qed.

(** X2: the set of discovered names, and with it everything the
    constructor does, does not depend on the order in which the
    directory iterator yields the entries. *)
Theorem discover_order_independent
    {Graph : Type} (import : string -> Graph -> import_outcome * Graph)
    (routing_graph : Graph) (dir dir' : list directory_entry) :
  Permutation dir dir' ->
  discover dir = discover dir'
  /\ construct import dir routing_graph = construct import dir' routing_graph.
Proof.
  intros H.
  assert (discover dir = discover dir') as E
    by (unfold discover; by apply fold_discover_Permutation).
  split; [exact E|]. unfold construct. by rewrite E.
Qed.

(** X2 on a directory listed in two orders. *)
Lemma discover_order_independent_witness :
  discover [regular "b.nutigraph"; regular "a.nutigraph"; regular "b-x.nutigraph"]
  = discover [regular "a.nutigraph"; regular "b-x.nutigraph"; regular "b.nutigraph"]
  /\ construct import_ok
       [regular "b.nutigraph"; regular "a.nutigraph"; regular "b-x.nutigraph"] []
     = construct import_ok
         [regular "a.nutigraph"; regular "b-x.nutigraph"; regular "b.nutigraph"] [].
Proof.
  apply (discover_order_independent import_ok []).
  apply perm_trans with [regular "a.nutigraph"; regular "b.nutigraph"; regular "b-x.nutigraph"].
  - apply perm_swap.
  - apply perm_skip. apply perm_swap.
Defined.

End DiscoverFacts.

(** ** Which packages the constructor loads *)

Module ConstructorFacts.

Import Machine StdString NutiViaRoute MachineFacts NutiViaRouteFacts DiscoverFacts.

Lemma skip_parent_None files f :
  skip_parent files f = None <->
  find "-"%char f = npos \/ ~ In (substr0 (find "-"%char f) f) files.
Proof.
  split.
  - intros HNone. destruct (Z.eq_dec (find "-"%char f) npos) as [E|E]; [by left|].
    right. intros HIn.
    assert (skip_parent files f = Some (substr0 (find "-"%char f) f)) as HSome
      by (apply skip_parent_Some; auto).
    congruence.
  - intros H. destruct (skip_parent files f) as [p|] eqn:S; [|reflexivity].
    apply skip_parent_Some in S as (Hdash & -> & HIn).
    destruct H as [H|H]; contradiction.
Qed.

(** X3: a package file is handed to [import] exactly when its name was
    discovered and either has no ['-'] or the text before its first ['-']
    is not itself a discovered name; dashes after the first play no
    part. *)
Theorem attempted_iff
    {Graph : Type} (import : string -> Graph -> import_outcome * Graph)
    (routing_graph : Graph) (dir : list directory_entry) (f : string) :
  In (f +:+ nutigraph_ext) (attempted (construct import dir routing_graph).2)
  <-> In f (discover dir)
      /\ (find "-"%char f = npos
          \/ ~ In (substr0 (find "-"%char f) f) (discover dir)).
Proof.
  unfold construct. rewrite load_files_attempted, in_map_iff.
  split.
  - intros (f' & E & HIn). apply append_inj_l in E as ->.
    apply filter_In in HIn as (HIn & Hs). split; [exact HIn|].
    apply skip_parent_None. unfold skipped in Hs.
    by destruct (skip_parent (discover dir) f).
  - intros (HIn & H). exists f. split; [reflexivity|].
    apply filter_In. split; [exact HIn|].
    apply skip_parent_None in H. unfold skipped. by rewrite H.
Qed.

Lemma find_index_of_prefix c d f i :
  String.prefix d f = true -> find_index c d = Some i -> find_index c f = Some i.
Proof.
  intros [post ->]%prefix_split. revert i.
  induction d as [|a d IH]; intros i; [discriminate|].
  change (String a d +:+ post) with (String a (d +:+ post)). simpl.
  destruct (Ascii.eqb a c); [done|].
  destruct (find_index c d) as [j|]; [|discriminate].
  intros [= <-]. by rewrite (IH j eq_refl).
Qed.

Lemma length_substring n s :
  (n <= String.length s)%nat -> String.length (String.substring 0 n s) = n.
Proof.
  revert n. induction s as [|a s IH]; intros [|n]; simpl; try lia; try reflexivity.
  intros H. rewrite IH by lia. reflexivity.
Qed.

Lemma filter_all {A} (p : A -> bool) l :
  (forall x, In x l -> p x = true) -> List.filter p l = l.
Proof.
  induction l as [|a l IH]; intros H; simpl; [reflexivity|].
  rewrite (H a) by (by left). f_equal. apply IH. intros x Hx. apply H. by right.
Qed.

Lemma written_app level (evs1 evs2 : list event) :
  written level (evs1 ++ evs2) = written level evs1 ++ written level evs2.
Proof. unfold written. apply omap_app. Qed.

(** When nothing is skipped, the INFO lines are the "Loading" lines of
    the names, in order. *)
Lemma load_files_written_info {Graph : Type}
    (import : string -> Graph -> import_outcome * Graph) files rest g :
  (forall f, In f rest -> skip_parent files f = None) ->
  written logINFO (load_files import files rest g).2 = map loading_message rest.
Proof.
  revert g. induction rest as [|f rest IH]; intros g H; simpl; [reflexivity|].
  destruct (load_one import files f g) as [g1 evs1] eqn:E1.
  destruct (load_files import files rest g1) as [g2 evs2] eqn:E2.
  simpl. rewrite written_app. specialize (IH g1). rewrite E2 in IH.
  simpl in IH. rewrite IH by (intros f' Hf'; apply H; by right). clear IH.
  rewrite (load_one_loaded _ _ _ _ (H f (or_introl eq_refl))) in E1.
  injection E1 as <- <-. simpl.
  by destruct (import (f +:+ nutigraph_ext) g).1.
Qed.

(** X4: the names are whole paths, so when all discovered names start
    with the same text that contains a ['-'] (a base path with a dash),
    no package is skipped: every discovered package is handed to
    [import], and every INFO line is a "Loading" line. *)
Theorem dash_in_base_path_disables_skip
    {Graph : Type} (import : string -> Graph -> import_outcome * Graph)
    (routing_graph : Graph) (dir : list directory_entry) (base : string) :
  find "-"%char base <> npos ->
  (forall f, In f (discover dir) -> String.prefix base f = true) ->
  let evs := (construct import dir routing_graph).2 in
  attempted evs = map (fun f => f +:+ nutigraph_ext) (discover dir)
  /\ written logINFO evs = map loading_message (discover dir).
Proof.
  intros Hdash Hbase.
  assert (forall f, In f (discover dir) -> skip_parent (discover dir) f = None) as Hnone.
  { intros f Hf. apply skip_parent_None.
    destruct (Z.eq_dec (find "-"%char f) npos) as [E|E]; [by left|]. right.
    unfold find in Hdash. destruct (find_index "-" base) as [i|] eqn:Ei; [|done].
    pose proof (find_index_of_prefix _ _ _ _ (Hbase f Hf) Ei) as Ef.
    pose proof (find_index_lt _ _ _ Ei) as Hi.
    pose proof (prefix_length _ _ (Hbase f Hf)) as Hlen.
    unfold find. rewrite Ef. unfold substr0, size.
    rewrite Z.min_l by lia. rewrite Nat2Z.id.
    intros Hin. apply Hbase, prefix_length in Hin.
    rewrite length_substring in Hin by lia. lia. }
  unfold construct. split.
  - rewrite load_files_attempted. f_equal. apply filter_all.
    intros f Hf. unfold skipped. by rewrite (Hnone f Hf).
  - by apply load_files_written_info.
Qed.

(** X4 on the directory [/srv/my-maps]: [region-sub] is loaded although
    [region] is there. *)
Lemma dash_in_base_path_disables_skip_witness :
  let dir := [regular "/srv/my-maps/region.nutigraph";
              regular "/srv/my-maps/region-sub.nutigraph"] in
  let evs := (construct import_ok dir []).2 in
  attempted evs = map (fun f => f +:+ nutigraph_ext) (discover dir)
  /\ written logINFO evs = map loading_message (discover dir).
Proof.
  apply (dash_in_base_path_disables_skip import_ok []
           [regular "/srv/my-maps/region.nutigraph";
            regular "/srv/my-maps/region-sub.nutigraph"] "/srv/my-maps/").
  - vm_compute. discriminate.
  - intros f Hf. vm_compute in Hf. destruct Hf as [<-|[<-|[]]]; reflexivity.
Defined.

Example dash_in_base_path_example :
  attempted (construct import_ok
               [regular "/srv/my-maps/region.nutigraph";
                regular "/srv/my-maps/region-sub.nutigraph"] []).2
  = ["/srv/my-maps/region.nutigraph"; "/srv/my-maps/region-sub.nutigraph"].
Proof. vm_compute. reflexivity. Qed.

End ConstructorFacts.

(** ** What [HandleRequest] answers *)

Module HandleRequestMoreFacts.

Import Machine NutiViaRoute MachineFacts HandleRequestFacts.

Section Request.

Context (coordinate_to_degrees : Z -> double).
Context {RoutingResult : Type} (result_failed : RoutingResult -> bool).
Context (find : RoutingQuery -> find_outcome RoutingResult).
Context (route_geometry : list RoutingResult -> Z -> json_value).
Context (route_instructions : list RoutingResult -> json_value).

#[local] Abbreviation route_legs :=
  (route_legs coordinate_to_degrees RoutingResult result_failed find).
#[local] Abbreviation leg_query := (leg_query coordinate_to_degrees).
#[local] Abbreviation HandleRequest :=
  (HandleRequest coordinate_to_degrees RoutingResult result_failed find
                 route_geometry route_instructions).

(** When the one query succeeds, every leg collects the same result. *)
Lemma route_legs_found coordinates legs r :
  find (leg_query coordinates) = Found r -> result_failed r = false ->
  route_legs coordinates legs
  = (repeat (leg_query coordinates) legs, inr (repeat r legs)).
Proof.
  intros Hfind Hok. induction legs as [|legs IH]; simpl; [reflexivity|].
  by rewrite Hfind, Hok, IH.
Qed.

Lemma guards_pass max_locations_viaroute (n : Z) :
  n < 2 ^ 31 -> 2 <= n -> ~ 0 < max_locations_viaroute < n ->
  (0 <? max_locations_viaroute) && (max_locations_viaroute <? to_int n) = false
  /\ (n <? 2) = false.
Proof.
  intros Hn H2 Hmax. rewrite to_int_id by (unfold int_range; lia). split.
  - apply andb_false_iff.
    destruct (Z.ltb_spec 0 max_locations_viaroute); [|by left].
    right. apply Z.ltb_ge. lia.
  - apply Z.ltb_ge. lia.
Qed.

(** X5: a request that passes the two guards is answered from the one
    query between its first two coordinates. If that query finds a
    route, the call returns [Ok] and describes [n - 1] copies of that
    same result; if the route finder throws or reports [FAILED], the call
    returns [Error] after this one query, with the message "Routing
    failed, exception: <what>" or "Routing failed". *)
Theorem HandleRequest_answers_from_first_leg
    max_locations_viaroute coordinates zoom_level json_result :
  let n := Z.of_nat (length coordinates) in
  let query := leg_query coordinates in
  let r := HandleRequest max_locations_viaroute coordinates zoom_level json_result in
  n < 2 ^ 31 -> 2 <= n -> ~ 0 < max_locations_viaroute < n ->
  match find query with
  | Found result =>
      if result_failed result then
        r = {| status := Error;
               values := <["status_message" := JString "Routing failed"]> json_result;
               queries := [query] |}
      else
        let results := repeat result (length coordinates - 1) in
        r = {| status := Ok;
               values :=
                 <["route_instructions" := route_instructions results]>
                   (<["status_message" := JString "Found route between points"]>
                      (<["route_geometry" := route_geometry results zoom_level]>
                         json_result));
               queries := repeat query (length coordinates - 1) |}
  | FindThrew what =>
      r = {| status := Error;
             values := <["status_message" :=
                           JString ("Routing failed, exception: " +:+ what)]>
                         json_result;
             queries := [query] |}
  end.
Proof.
  intros n query r Hn H2 Hmax. subst r.
  destruct (guards_pass max_locations_viaroute n Hn H2 Hmax) as (G1 & G2).
  unfold NutiViaRoute.HandleRequest. fold n. rewrite G1, G2.
  replace (Z.to_nat (n - 1)) with (length coordinates - 1)%nat by lia.
  destruct (find query) as [result|what] eqn:F.
  - destruct (result_failed result) eqn:Hf.
    + destruct (length coordinates - 1)%nat as [|legs] eqn:E; [lia|].
      simpl. fold query. by rewrite F, Hf.
    + by rewrite (route_legs_found coordinates _ result F Hf).
  - destruct (length coordinates - 1)%nat as [|legs] eqn:E; [lia|].
    simpl. fold query. by rewrite F.
Qed.

(** X6: every call leaves a string under ["status_message"]; a call that
    returns [Error] changes no other key of [json_result], and a call
    that returns [Ok] changes only ["route_geometry"], ["status_message"]
    and ["route_instructions"]. No key is ever removed. *)
Theorem HandleRequest_touches_only_its_keys
    max_locations_viaroute coordinates zoom_level json_result :
  let r := HandleRequest max_locations_viaroute coordinates zoom_level json_result in
  (exists message, values r !! "status_message" = Some (JString message))
  /\ (status r = Error ->
        forall key, key <> "status_message" -> values r !! key = json_result !! key)
  /\ (forall key,
        key <> "route_geometry" -> key <> "status_message" ->
        key <> "route_instructions" ->
        values r !! key = json_result !! key)
  /\ (forall key, is_Some (json_result !! key) -> is_Some (values r !! key)).
Proof.
  intros r. subst r. unfold NutiViaRoute.HandleRequest.
  destruct (_ && _).
  { simpl. split; [eexists; by rewrite lookup_insert_eq|]. split; [|split].
    - intros _ key Hk. by rewrite lookup_insert_ne.
    - intros key _ Hk _. by rewrite lookup_insert_ne.
    - intros key Hs. rewrite lookup_insert_is_Some. destruct (decide ("status_message" = key)); auto. }
  destruct (_ <? 2).
  { simpl. split; [eexists; by rewrite lookup_insert_eq|]. split; [|split].
    - intros _ key Hk. by rewrite lookup_insert_ne.
    - intros key _ Hk _. by rewrite lookup_insert_ne.
    - intros key Hs. rewrite lookup_insert_is_Some. destruct (decide ("status_message" = key)); auto. }
  destruct (route_legs coordinates _) as [qs [message|results]]; simpl.
  - split; [eexists; by rewrite lookup_insert_eq|]. split; [|split].
    + intros _ key Hk. by rewrite lookup_insert_ne.
    + intros key _ Hk _. by rewrite lookup_insert_ne.
    + intros key Hs. rewrite lookup_insert_is_Some. destruct (decide ("status_message" = key)); auto.
  - split.
    { eexists. rewrite lookup_insert_ne by done. by rewrite lookup_insert_eq. }
    split; [discriminate|]. split.
    + intros key H1 H2 H3. by rewrite !lookup_insert_ne.
    + intros key Hs. rewrite !lookup_insert_is_Some.
      destruct (decide ("route_instructions" = key)); [by left|right; split; [done|]].
      destruct (decide ("status_message" = key)); [by left|right; split; [done|]].
      destruct (decide ("route_geometry" = key)); [by left|right; by split].
Qed.

End Request.

(** X5 on a request with three coordinates and a route finder that finds
    a route. *)
Lemma HandleRequest_answers_from_first_leg_witness :
  HandleRequest_any 0 [berlin; paris; rome] 18 ∅
  = {| status := Ok;
       values :=
         <["route_instructions" := JArray []]>
           (<["status_message" := JString "Found route between points"]>
              (<["route_geometry" := JString "geometry"]> ∅));
       queries := repeat (leg_query degrees [berlin; paris; rome]) 2 |}.
Proof.
  apply (HandleRequest_answers_from_first_leg degrees (fun _ => false) find_any
           (fun _ _ => JString "geometry") (fun _ => JArray [])
           0 [berlin; paris; rome] 18 ∅); simpl; lia.
Defined.

End HandleRequestMoreFacts.

(** ** The plugin registry and query dispatch *)

Module OSRMFacts.

Import OSRM.

Section Impl.

Context {RouteParameters : Type} (service : RouteParameters -> string).
Context {Status : Type} (status_code : Status -> Z).

#[local] Abbreviation RunQuery := (RunQuery service status_code).

Lemma register_all_snoc (impl : OSRM_impl RouteParameters Status) plugins plugin :
  (register_all impl (plugins ++ [plugin])).1
  = (RegisterPlugin (register_all impl plugins).1 plugin).1.
Proof.
  unfold register_all. rewrite fold_left_app. simpl.
  by destruct (fold_left _ plugins (impl, [])).
Qed.

(** The registry after some registrations: a descriptor that none of
    them has is as before. *)
Lemma register_all_lookup_other (impl : OSRM_impl RouteParameters Status) plugins name :
  (forall p, In p plugins -> GetDescriptor p <> name) ->
  plugin_map (register_all impl plugins).1 !! name = plugin_map impl !! name.
Proof.
  induction plugins as [|p plugins IH] using rev_ind; intros H; [reflexivity|].
  rewrite register_all_snoc. simpl. rewrite lookup_insert_ne.
  - apply IH. intros q Hq. apply H, in_or_app. by left.
  - apply H, in_or_app. right. by left.
Qed.

(** The registry after some registrations: a descriptor belongs to the
    plugin that registered it last. *)
Lemma register_all_lookup_last (impl : OSRM_impl RouteParameters Status) pre p post :
  (forall q, In q post -> GetDescriptor q <> GetDescriptor p) ->
  plugin_map (register_all impl (pre ++ p :: post)).1 !! GetDescriptor p = Some p.
Proof.
  induction post as [|q post IH] using rev_ind; intros H.
  - rewrite register_all_snoc. simpl. by rewrite lookup_insert_eq.
  - replace (pre ++ p :: post ++ [q]) with ((pre ++ p :: post) ++ [q])
      by (by rewrite <- app_assoc).
    rewrite register_all_snoc. simpl. rewrite lookup_insert_ne.
    + apply IH. intros r Hr. apply H, in_or_app. by left.
    + apply H, in_or_app. right. by left.
Qed.

Lemma register_all_barrier (impl : OSRM_impl RouteParameters Status) plugins :
  barrier (register_all impl plugins).1 = barrier impl.
Proof.
  induction plugins as [|p plugins IH] using rev_ind; [reflexivity|].
  by rewrite register_all_snoc.
Qed.


(** X8: a query is answered by the plugin that registered the service's
    name last: a later registration under the same descriptor replaces
    the earlier one. The returned code is the plugin's status as an
    [int], [json_result] is what the plugin made of it. *)
Theorem RunQuery_last_registered impl pre p post route_parameters json :
  (forall q, In q post -> GetDescriptor q <> GetDescriptor p) ->
  service route_parameters = GetDescriptor p ->
  let r := RunQuery (register_all impl (pre ++ p :: post)).1 route_parameters json in
  return_code r = status_code (HandleRequest p route_parameters json).1
  /\ json_result r = (HandleRequest p route_parameters json).2.
Proof.
  intros Hpost Hservice. unfold OSRM.RunQuery.
  rewrite Hservice, (register_all_lookup_last impl pre p post Hpost).
  destruct (increase_concurrent_query_count _) as [impl1 ev1].
  destruct (HandleRequest p route_parameters json) as [code json'].
  destruct (decrease_concurrent_query_count impl1) as [impl2 ev2].
  by split.
Qed.

(** X9: a query leaves the object as it was: the number of running
    queries is raised before the plugin is called and lowered after. When
    the number was not negative the assertion holds, the reload check of
    the facade is made once, and the waiting processes are notified
    exactly when no other query was running; without a barrier nothing
    is counted. *)
Theorem RunQuery_counts_balanced (impl : OSRM_impl RouteParameters Status)
    route_parameters json :
  (forall b, barrier impl = Some b -> 0 <= number_of_queries b) ->
  let r := RunQuery impl route_parameters json in
  impl_after r = impl
  /\ events r
     = match plugin_map impl !! service route_parameters, barrier impl with
       | Some _, Some b =>
           CheckAndReloadFacade
             :: (if number_of_queries b =? 0 then [notify_all] else [])
       | _, _ => []
       end.
Proof.
  intros Hb. unfold OSRM.RunQuery.
  destruct (plugin_map impl !! service route_parameters) as [plugin|];
    [|by destruct (barrier impl)].
  unfold increase_concurrent_query_count, decrease_concurrent_query_count.
  destruct impl as [pm [[n]|]]; simpl in *.
  - specialize (Hb _ eq_refl). simpl in Hb.
    destruct (HandleRequest plugin route_parameters json) as [code json'].
    simpl. replace (n + 1 - 1) with n by lia.
    split; [reflexivity|].
    assert ((0 <=? n) = true) as -> by (apply Z.leb_le; lia).
    by destruct n.
  - by destruct (HandleRequest plugin route_parameters json) as [code json'].
Qed.

End Impl.

Section NutiServer.

Context {RouteParameters : Type} (service : RouteParameters -> string).
Context (coordinates : RouteParameters -> list NutiViaRoute.FixedPointCoordinate).
Context (zoom_level : RouteParameters -> Z).
Context (coordinate_to_degrees : Z -> NutiViaRoute.double).
Context {RoutingResult : Type} (result_failed : RoutingResult -> bool).
Context (find : NutiViaRoute.RoutingQuery -> NutiViaRoute.find_outcome RoutingResult).
Context (route_geometry : list RoutingResult -> Z -> NutiViaRoute.json_value).
Context (route_instructions : list RoutingResult -> NutiViaRoute.json_value).
Context (status_code : NutiViaRoute.Status -> Z).

(** X10: the object built with [NUTISERVER] defined serves one service,
    "viaroute": a query for it returns the status of
    [NutiViaRoutePlugin::HandleRequest] and its [json_result], a query
    for any other service returns 400 with "Service not found". No query
    is counted, since this constructor creates no barrier. *)
Theorem nutiserver_serves_viaroute_only max_locations_viaroute route_parameters json :
  let built := OSRM_impl_nutiserver RouteParameters coordinates zoom_level
                 coordinate_to_degrees RoutingResult result_failed find
                 route_geometry route_instructions max_locations_viaroute in
  let r := RunQuery service status_code built.1 route_parameters json in
  let handled :=
    NutiViaRoute.HandleRequest coordinate_to_degrees RoutingResult result_failed
      find route_geometry route_instructions max_locations_viaroute
      (coordinates route_parameters) (zoom_level route_parameters) json in
  built.2 = [Log "loaded plugin: viaroute"]
  /\ impl_after r = built.1
  /\ events r = []
  /\ (service route_parameters = "viaroute" ->
        return_code r = status_code (NutiViaRoute.status handled)
        /\ json_result r = NutiViaRoute.values handled)
  /\ (service route_parameters <> "viaroute" ->
        return_code r = 400
        /\ json_result r
           = <["status_message" := NutiViaRoute.JString "Service not found"]> json).
Proof.
  simpl. unfold RunQuery. simpl.
  destruct (decide ("viaroute" = service route_parameters)) as [E|E].
  - rewrite <- E, lookup_insert_eq. simpl. repeat split; congruence.
  - rewrite lookup_insert_ne by done. rewrite lookup_empty. simpl.
    repeat split; congruence.
Qed.

End NutiServer.

Example RunQuery_replaced_plugin :
  return_code
    (RunQuery (fun s : string => s) (fun code : Z => code)
       (register_all OSRM_impl_empty
          [echo_plugin "viaroute" 200; echo_plugin "nearest" 200;
           echo_plugin "viaroute" 207]).1
       "viaroute" ∅)
  = 207.
Proof. vm_compute. reflexivity. Qed.


(** X8 on a registry where "viaroute" is registered twice. *)
Lemma RunQuery_last_registered_witness :
  let r := RunQuery (fun s : string => s) (fun code : Z => code)
             (register_all OSRM_impl_empty
                ([echo_plugin "viaroute" 200]
                   ++ echo_plugin "viaroute" 207 :: [echo_plugin "nearest" 200])).1
             "viaroute" ∅ in
  return_code r = 207
  /\ json_result r = <["status_message" := NutiViaRoute.JString "viaroute"]> ∅.
Proof.
  apply (RunQuery_last_registered (fun s : string => s) (fun code : Z => code)
           OSRM_impl_empty [echo_plugin "viaroute" 200] (echo_plugin "viaroute" 207)
           [echo_plugin "nearest" 200] "viaroute" ∅).
  - intros q [<-|[]]. discriminate.
  - reflexivity.
Defined.

(** X9 on an object with a barrier and no running query. *)
Lemma RunQuery_counts_balanced_witness :
  let impl := {| plugin_map := {["viaroute" := echo_plugin "viaroute" 200]};
                 barrier := Some {| number_of_queries := 0 |} |} in
  let r := RunQuery (fun s : string => s) (fun code : Z => code) impl "viaroute" ∅ in
  impl_after r = impl
  /\ events r
     = match plugin_map impl !! "viaroute", barrier impl with
       | Some _, Some b =>
           CheckAndReloadFacade
             :: (if number_of_queries b =? 0 then [notify_all] else [])
       | _, _ => []
       end.
Proof.
  apply (RunQuery_counts_balanced (fun s : string => s) (fun code : Z => code)
           {| plugin_map := {["viaroute" := echo_plugin "viaroute" 200]};
              barrier := Some {| number_of_queries := 0 |} |} "viaroute" ∅).
  intros b [= <-]. simpl. lia.
Defined.

End OSRMFacts.

(** ** The OSM XML parser below the root *)

Module XMLElementsFacts.

Import XMLParser XMLElements.

Lemma member_attrs_add_member (attrs : list (string * string)) (type : ascii)
    (ref : option string) (role : string) :
  exists t r o, member_attrs attrs type ref role = add_member t r o.
Proof.
  revert type ref role.
  induction attrs as [|[name value] rest IH]; intros type ref role; simpl.
  - by eexists _, _, _.
  - repeat case_match; apply IH.
Qed.

Lemma nd_attrs_calls (attrs : list (string * string)) (c : call) :
  In c (nd_attrs attrs) -> exists ref, c = add_node_ref ref.
Proof.
  unfold nd_attrs. rewrite <- list_elem_of_In, list_elem_of_omap.
  intros [[name value] [_ H]]. case_match; simplify_eq. by eexists.
Qed.

Lemma bounds_attrs_calls (attrs : list (string * string)) (c : call) :
  In c (bounds_attrs attrs) -> is_commit c = false /\ is_set_visible_false c = false.
Proof.
  unfold bounds_attrs. rewrite <- list_elem_of_In, list_elem_of_omap.
  intros [[name value] [_ H]]. repeat case_match; by simplify_eq.
Qed.

(** What the attribute loop of [init_object] calls. *)
Lemma init_object_attrs_calls (attrs : list (string * string)) (user : string) (c : call) :
  In c (init_object_attrs attrs user).1 ->
  (exists v, c = location_set_lon v) \/ (exists v, c = location_set_lat v)
  \/ exists n v, c = set_attribute n v.
Proof.
  revert user. induction attrs as [|[name value] rest IH]; intros user; simpl.
  - intros [].
  - repeat case_match; simpl; try apply IH.
    all: match goal with H : init_object_attrs _ _ = _ |- _ =>
           specialize (IH user); rewrite H in IH; simpl in IH end.
    all: intros [<-|Hin]; [|by apply IH]; eauto.
Qed.

Lemma init_changeset_attrs_calls (attrs : list (string * string)) (user : string) (c : call) :
  In c (init_changeset_attrs attrs user).1 ->
  is_commit c = false /\ is_set_visible_false c = false.
Proof.
  revert user. induction attrs as [|[name value] rest IH]; intros user; simpl.
  - intros [].
  - repeat case_match; simpl; try apply IH.
    all: match goal with H : init_changeset_attrs _ _ = _ |- _ =>
           specialize (IH user); rewrite H in IH; simpl in IH end.
    all: intros [<-|Hin]; [done|by apply IH].
Qed.

Lemma count_commits_app (a b : list call) :
  count_commits (a ++ b) = (count_commits a + count_commits b)%nat.
Proof. unfold count_commits. by rewrite List.filter_app, length_app. Qed.

Lemma count_commits_none (cs : list call) :
  (forall c, In c cs -> is_commit c = false) -> count_commits cs = 0%nat.
Proof.
  unfold count_commits. induction cs as [|c cs IH]; intros H; [done|].
  simpl. rewrite (H c) by by left. apply IH. intros c' Hc. apply H. by right.
Qed.

Ltac open_parser p :=
  destruct p as [? ? ? ? [? ? ? ? ? ? ? ?] ? ?]; simpl in *.

Lemma start_child_facts (p : XMLParser Builders) (k : kind) (element : string)
    (attrs : list (string * string)) :
  let q := start_child p k element attrs in
  m_context q = in_object /\ m_last_context Builders q = kind_context k
  /\ settings q = settings p
  /\ m_header_is_done Builders q = m_header_is_done Builders p
  /\ (object_open k (builders p) = true -> object_open k (builders q) = true)
  /\ exists cs, calls_since p q cs
       /\ forall c, In c cs -> is_commit c = false /\ is_set_visible_false c = false.
Proof.
  unfold start_child, check_tag, calls_since, settings.
  open_parser p.
  destruct k; repeat case_match; simpl; repeat split; try done.
  all: try (by exists []; rewrite app_nil_r).
  all: try (intros Hopen; repeat match goal with b : bool |- _ => destruct b end; done).
  all: eexists; split; [reflexivity|].
  all: intros c Hc.
  all: repeat first
    [ apply in_app_or in Hc as [Hc|Hc]
    | apply nd_attrs_calls in Hc as [ref ->]
    | destruct Hc as [<-|Hc]
    | destruct Hc ]; try done.
  all: by destruct (member_attrs_add_member attrs "x"%char None "") as (t & r & o & ->).
Qed.

Section Callbacks.

Variable NDEBUG : bool.
Variable nothing : Z.
Variable kind_bit : kind -> Z.

#[local] Abbreviation start_element :=
  (XMLElements.start_element NDEBUG nothing kind_bit).
#[local] Abbreviation end_element := (XMLElements.end_element NDEBUG nothing).
#[local] Abbreviation handle := (XMLElements.handle NDEBUG nothing kind_bit).
#[local] Abbreviation run := (XMLElements.run NDEBUG nothing kind_bit).
#[local] Abbreviation reads := (XMLElements.reads kind_bit).

Lemma run_app (p : XMLParser Builders) (a b : list callback) :
  run p (a ++ b)
  = match raised (run p a) with
    | Some _ => run p a
    | None => run (after (run p a)) b
    end.
Proof.
  revert p. induction a as [|c a IH]; intros p; simpl; [done|].
  destruct (raised (handle p c)) eqn:E; [by rewrite E|]. apply IH.
Qed.

Lemma run_returns_app (p q : XMLParser Builders) (a b : list callback) :
  run p a = returns q -> run p (a ++ b) = run q b.
Proof. intros H. by rewrite run_app, H. Qed.

Lemma start_element_in_object (p : XMLParser Builders) (k : kind) (element : string)
    (attrs : list (string * string)) :
  m_context p = kind_context k ->
  start_element p element attrs = returns (start_child p k element attrs).
Proof.
  unfold XMLElements.start_element. intros ->. by destruct k.
Qed.

(** X11: a child element of an open object: [start_element] returns
    in the context [in_object] and [end_element], whatever name it is
    given, returns in the context of the object, with the settings of the
    parser, the builders of the object and the number of commits as
    before. An element inside the child fails the assertion, or is passed
    over where assertions are compiled out. *)
Theorem child_element_round_trip (p : XMLParser Builders) (k : kind)
    (element closing inner : string) (attrs inner_attrs : list (string * string)) :
  m_context p = kind_context k ->
  let r := start_element p element attrs in
  let r' := end_element (after r) closing in
  raised r = None /\ m_context (after r) = in_object
  /\ raised r' = None /\ m_context (after r') = kind_context k
  /\ settings (after r') = settings p
  /\ m_header_is_done Builders (after r') = m_header_is_done Builders p
  /\ count_commits (calls (builders (after r')))
     = count_commits (calls (builders p))
  /\ (object_open k (builders p) = true ->
      object_open k (builders (after r')) = true)
  /\ start_element (after r) inner inner_attrs
     = if NDEBUG then returns (after r)
       else {| raised := Some assert_failed; after := after r |}.
Proof.
  intros Hctx. rewrite (start_element_in_object p k) by done. simpl.
  destruct (start_child_facts p k element attrs)
    as (Hc & Hl & Hs & Hd & Ho & cs & Hcs & Hno).
  unfold XMLElements.end_element, XMLElements.start_element. rewrite Hc. simpl.
  rewrite Hl. repeat split; try done.
  - unfold builders in *. simpl. unfold calls_since, builders in Hcs. rewrite Hcs.
    rewrite count_commits_app, (count_commits_none cs); [lia|].
    intros c Hin. by apply Hno.
  - unfold assert. by destruct NDEBUG.
Qed.

Lemma handle_ignored (p : XMLParser Builders) (k : kind) (c : callback) :
  m_context p = kind_ignored k -> ends (kind_name k) c = false ->
  handle p c = returns p.
Proof.
  intros Hctx Hc. destruct c as [element attrs|element]; simpl.
  - unfold XMLElements.start_element. rewrite Hctx. by destruct k.
  - unfold XMLElements.end_element, end_ignored. rewrite Hctx.
    simpl in Hc. destruct k; simpl in *; by rewrite Hc.
Qed.

Lemma run_ignored (p : XMLParser Builders) (k : kind) (cs : list callback) :
  m_context p = kind_ignored k ->
  Forall (fun c => ends (kind_name k) c = false) cs ->
  run p cs = returns p.
Proof.
  intros Hctx. induction 1 as [|c cs Hc _ IH]; simpl; [done|].
  by rewrite (handle_ignored p k c).
Qed.

Lemma end_element_ignored (p : XMLParser Builders) (k : kind) :
  m_context p = kind_ignored k ->
  end_element p (kind_name k) = returns (with_context Builders p top).
Proof.
  intros Hctx. unfold XMLElements.end_element, end_ignored. rewrite Hctx.
  by destruct k.
Qed.

Lemma ignored_run (p : XMLParser Builders) (k : kind) (cs : list callback) :
  m_context p = kind_ignored k ->
  Forall (fun c => ends (kind_name k) c = false) cs ->
  run p (cs ++ [End_ (kind_name k)]) = returns (with_context Builders p top).
Proof.
  intros Hctx Hcs.
  rewrite (run_returns_app p p) by by apply (run_ignored p k).
  simpl. by rewrite (end_element_ignored p k).
Qed.

(** X12: an object of a kind that is not read: every callback up to
    the first end tag with the name of the object returns with the parser
    as it was, so that no builder is called, and that end tag only puts
    the parser back at the top level. Elements nested at any depth are
    passed over, and an end tag of a nested element with the name of the
    object ends the object. *)
Theorem ignored_object_skipped (p : XMLParser Builders) (k : kind)
    (cs rest : list callback) :
  m_context p = kind_ignored k ->
  Forall (fun c => ends (kind_name k) c = false) cs ->
  run p cs = returns p
  /\ run p (cs ++ End_ (kind_name k) :: rest)
     = run (with_context Builders p top) rest.
Proof.
  intros Hctx Hcs. split; [by apply (run_ignored p k)|].
  rewrite (run_returns_app p p) by by apply (run_ignored p k).
  simpl. by rewrite (end_element_ignored p k).
Qed.

Lemma assert_true (p : XMLParser Builders) : assert NDEBUG true p = None.
Proof. unfold assert. by rewrite orb_true_r. Qed.

Lemma start_element_object (p : XMLParser Builders) (k : kind)
    (attrs : list (string * string)) :
  m_context p = top ->
  NDEBUG = true \/ m_tl_builder (builders p) = false ->
  start_element p (kind_name k) attrs = start_object nothing kind_bit p k attrs.
Proof.
  intros Hctx Htl. unfold XMLElements.start_element, start_element_top.
  rewrite Hctx.
  replace (assert NDEBUG (negb (m_tl_builder (builders p))) p) with (@None result).
  - by destruct k.
  - unfold assert. destruct Htl as [->| ->]; [done|]. by rewrite orb_true_r.
Qed.

(** X13: a parser that is to read no kind of object: at the top level,
    the start of a node, way, relation or changeset and the end of the
    root element set [m_header_is_done] and throw [ParserIsDone]; nothing
    else of the parser changes, no builder is made, and no later callback
    is handled. *)
Theorem nothing_to_read_stops_at_first_object (p : XMLParser Builders)
    (k : kind) (attrs : list (string * string)) (rest : list callback) :
  m_context p = top ->
  m_read_types Builders p = nothing ->
  NDEBUG = true \/ m_tl_builder (builders p) = false ->
  let done := {| raised := Some ParserIsDone; after := with_header_is_done p true |} in
  run p (Start (kind_name k) attrs :: rest) = done
  /\ run p (End_ "osm" :: rest) = done
  /\ run p (End_ "osmChange" :: rest) = done.
Proof.
  intros Hctx Hread Htl. simpl.
  rewrite (start_element_object p k) by done.
  unfold start_object, XMLElements.end_element, header_is_done. rewrite Hctx. simpl.
  rewrite Hread, Z.eqb_refl. done.
Qed.

Lemma run_child (p : XMLParser Builders) (k : kind) (element closing : string)
    (attrs : list (string * string)) :
  m_context p = kind_context k ->
  run p [Start element attrs; End_ closing]
  = returns (with_context Builders (start_child p k element attrs) (kind_context k)).
Proof.
  intros Hctx. simpl. rewrite (start_element_in_object p k) by done. simpl.
  destruct (start_child_facts p k element attrs) as (Hc & Hl & _).
  unfold XMLElements.end_element. by rewrite Hc, Hl.
Qed.

Lemma run_children (p : XMLParser Builders) (k : kind)
    (children : list (string * list (string * string))) :
  m_context p = kind_context k ->
  exists q,
    run p (flat_map (fun '(element, attrs) => [Start element attrs; End_ element])
                    children)
    = returns q
    /\ m_context q = kind_context k
    /\ settings q = settings p
    /\ m_header_is_done Builders q = m_header_is_done Builders p
    /\ count_commits (calls (builders q)) = count_commits (calls (builders p))
    /\ (object_open k (builders p) = true -> object_open k (builders q) = true).
Proof.
  revert p. induction children as [|[element attrs] children IH]; intros p Hctx.
  - by exists p.
  - destruct (start_child_facts p k element attrs)
      as (Hc & Hl & Hs & Hd & Ho & cs & Hcs & Hno).
    set (q := with_context Builders (start_child p k element attrs) (kind_context k)).
    destruct (IH q eq_refl) as (q' & Hrun & Hctx' & Hs' & Hd' & Hn' & Ho').
    exists q'. split; [|repeat split].
    + change (flat_map _ (_ :: children))
        with ([Start element attrs; End_ element]
              ++ flat_map (fun '(element, attrs) => [Start element attrs; End_ element])
                          children).
      by rewrite (run_returns_app p q) by by apply run_child.
    + done.
    + by rewrite Hs', <- Hs.
    + by rewrite Hd', <- Hd.
    + rewrite Hn'. unfold q, builders in *. simpl. unfold calls_since, builders in Hcs.
      rewrite Hcs, count_commits_app, (count_commits_none cs); [lia|].
      intros c Hin. by apply Hno.
    + intros Hopen. apply Ho'. by apply Ho.
Qed.

Lemma reads_settings (p q : XMLParser Builders) (k : kind) :
  settings q = settings p -> reads q k = reads p k.
Proof. unfold settings, XMLElements.reads. by intros [= _ _ ->]. Qed.

(** The start of an object at the top level. *)
Lemma start_object_facts (p : XMLParser Builders) (k : kind)
    (attrs : list (string * string)) :
  m_read_types Builders p <> nothing ->
  idle (builders p) = true ->
  let r := start_object nothing kind_bit p k attrs in
  raised r = None
  /\ settings (after r) = settings p
  /\ m_header_is_done Builders (after r) = true
  /\ if reads p k
     then m_context (after r) = kind_context k
          /\ object_open k (builders (after r)) = true
          /\ exists cs, calls_since p (after r) cs
               /\ (forall c, In c cs -> is_commit c = false)
               /\ (In set_visible_false cs
                   <-> m_in_delete_section Builders p = true /\ k <> k_changeset)
     else after r = with_context Builders (with_header_is_done p true) (kind_ignored k).
Proof.
  intros Hread Hidle. unfold start_object, header_is_done. simpl.
  apply Z.eqb_neq in Hread. rewrite Hread. simpl.
  change (XMLElements.reads kind_bit (with_header_is_done p true) k)
    with (reads p k).
  destruct (reads p k); [|done].
  simpl. repeat split; try done.
  - unfold idle, builders in Hidle. unfold builders.
    destruct p as [? ? ? ? [nb wb rb cb tl wnl rml ?] ? ?]; simpl in *.
    apply negb_true_iff in Hidle.
    repeat (apply orb_false_elim in Hidle as [Hidle ?]). subst.
    by destruct k.
  - unfold calls_since, builders, init_object, init_changeset. simpl.
    destruct (init_object_attrs attrs "") as [cs user] eqn:Eo.
    destruct (init_changeset_attrs attrs "") as [cs' user'] eqn:Ec.
    pose proof (init_object_attrs_calls attrs "") as Ho. rewrite Eo in Ho.
    pose proof (init_changeset_attrs_calls attrs "") as Hc. rewrite Ec in Hc.
    simpl in Ho, Hc.
    destruct (m_in_delete_section Builders p) eqn:Ed.
    all: destruct k; (eexists; split; [reflexivity|]); (split; [|split]).
    all: try (intros c Hin; simpl in Hin;
      repeat first
        [ apply in_app_or in Hin as [Hin|Hin]
        | apply Hc in Hin as [Hin _]
        | apply Ho in Hin as [[v ->]|[[v ->]|[n [v ->]]]]
        | destruct Hin as [<-|Hin]
        | destruct Hin ]; done).
    all: try (intros Hin; exfalso; simpl in Hin;
      repeat first
        [ apply in_app_or in Hin as [Hin|Hin]
        | apply Hc in Hin as [_ Hin]
        | apply Ho in Hin as [[v Hin]|[[v Hin]|[n [v Hin]]]]
        | discriminate Hin
        | destruct Hin as [Hin|Hin]
        | contradiction ]; done).
    all: try (by intros [? ?]).
    all: try (by intros _; right; left).
    all: by intros _.
Qed.

(** The end of an open object. *)
Lemma end_object_facts (p : XMLParser Builders) (k : kind) :
  m_context p = kind_context k ->
  object_open k (builders p) = true ->
  exists q,
    end_element p (kind_name k) = returns q
    /\ m_context q = top
    /\ idle (builders q) = true
    /\ settings q = settings p
    /\ m_header_is_done Builders q = m_header_is_done Builders p
    /\ calls_since p q [commit; flush_buffer].
Proof.
  intros Hctx Hopen. unfold XMLElements.end_element, end_object. rewrite Hctx.
  destruct k; simpl; rewrite assert_true.
  all: eexists; split; [reflexivity|].
  all: unfold idle, calls_since, settings, builders in *.
  all: destruct p as [? ? ? ? [nb wb rb cb tl wnl rml ?] ? ?]; simpl in *.
  all: repeat split; try done.
  all: apply andb_prop in Hopen as [-> Hopen]; apply negb_true_iff in Hopen.
  all: repeat (apply orb_false_elim in Hopen as [Hopen ?]); by subst.
Qed.

(** One object element with its children, from the top level to the top
    level. *)
Lemma run_object (p : XMLParser Builders) (o : object) :
  m_context p = top ->
  idle (builders p) = true ->
  m_read_types Builders p <> nothing ->
  reads p (object_kind o) = true \/ well_nested o = true ->
  exists q,
    run p (object_callbacks o) = returns q
    /\ m_context q = top
    /\ idle (builders q) = true
    /\ settings q = settings p
    /\ m_header_is_done Builders q = true
    /\ count_commits (calls (builders q))
       = (count_commits (calls (builders p))
          + if reads p (object_kind o) then 1 else 0)%nat.
Proof.
  intros Hctx Hidle Hread Hnested.
  destruct o as [k attrs children]. unfold object_callbacks. simpl in *.
  assert (Htl : NDEBUG = true \/ m_tl_builder (builders p) = false).
  { right. unfold idle in Hidle. by destruct (m_tl_builder (builders p)),
      (m_node_builder (builders p)), (m_way_builder (builders p)),
      (m_relation_builder (builders p)), (m_changeset_builder (builders p)). }
  rewrite (start_element_object p k) by done.
  destruct (start_object_facts p k attrs Hread Hidle) as (Hr & Hs & Hd & Hk).
  rewrite Hr.
  set (p1 := after (start_object nothing kind_bit p k attrs)) in *.
  destruct (reads p k) eqn:Ereads.
  - destruct Hk as (Hctx1 & Hopen1 & cs & Hcs & Hno & _).
    destruct (run_children p1 k children Hctx1)
      as (p2 & Hrun & Hctx2 & Hs2 & Hd2 & Hn2 & Ho2).
    destruct (end_object_facts p2 k Hctx2 (Ho2 Hopen1))
      as (q & Hend & Hctxq & Hidleq & Hsq & Hdq & Hcq).
    exists q. split; [|repeat split]; try done.
    + rewrite (run_returns_app p1 p2) by done. simpl. by rewrite Hend.
    + by rewrite Hsq, Hs2.
    + by rewrite Hdq, Hd2.
    + unfold calls_since in *. rewrite Hcq, count_commits_app, Hn2, Hcs.
      rewrite count_commits_app, (count_commits_none cs) by done.
      change (count_commits [commit; flush_buffer]) with 1%nat. lia.
  - destruct Hnested as [?|Hnested]; [done|].
    assert (Hctx1 : m_context p1 = kind_ignored k) by by rewrite Hk.
    exists (with_context Builders p1 top). split; [|repeat split]; try done.
    + apply (ignored_run p1 k).
      * done.
      * unfold well_nested in Hnested. simpl in Hnested.
        induction children as [|[element a] children IH]; simpl in *; [constructor|].
        apply andb_prop in Hnested as [Hne Hrest].
        apply negb_true_iff in Hne.
        repeat constructor; simpl; try done. by apply IH.
    + rewrite Hk. unfold idle in *. by open_parser p.
    + rewrite Hk. by rewrite Nat.add_0_r.
Qed.

Lemma run_objects (p : XMLParser Builders) (os : list object) :
  m_context p = top ->
  idle (builders p) = true ->
  m_read_types Builders p <> nothing ->
  Forall (fun o => reads p (object_kind o) = true \/ well_nested o = true) os ->
  exists q,
    run p (flat_map object_callbacks os) = returns q
    /\ m_context q = top
    /\ idle (builders q) = true
    /\ settings q = settings p
    /\ count_commits (calls (builders q))
       = (count_commits (calls (builders p))
          + length (List.filter (fun o => reads p (object_kind o)) os))%nat.
Proof.
  intros Hctx Hidle Hread Hos. revert p Hctx Hidle Hread Hos.
  induction os as [|o os IH]; intros p Hctx Hidle Hread Hos.
  - exists p. repeat split; try done.
  - apply Forall_cons in Hos as [Ho Hos].
    destruct (run_object p o Hctx Hidle Hread Ho)
      as (p1 & Hrun1 & Hctx1 & Hidle1 & Hs1 & _ & Hn1).
    assert (Hread1 : m_read_types Builders p1 <> nothing).
    { unfold settings in Hs1. by injection Hs1 as _ _ ->. }
    destruct (IH p1 Hctx1 Hidle1 Hread1) as (q & Hrun & Hctxq & Hidleq & Hsq & Hnq).
    { eapply Forall_impl; [exact Hos|]. simpl. intros o'.
      by rewrite (reads_settings p p1). }
    exists q. repeat split; try done.
    + change (flat_map object_callbacks (o :: os))
        with (object_callbacks o ++ flat_map object_callbacks os).
      by rewrite (run_returns_app p p1).
    + by rewrite Hsq.
    + rewrite Hnq, Hn1. simpl.
      rewrite (List.filter_ext (fun o => reads p1 (object_kind o))
                 (fun o => reads p (object_kind o)))
        by (intros o'; by apply reads_settings).
      destruct (reads p (object_kind o)); simpl; lia.
Qed.

(** X14: a document body: from the top level with no builder left
    open, the callbacks of any sequence of objects, each with childless
    children, followed by the end tag of the root element all return; the
    parser ends in the root context with the header done, no builder
    open and its settings as before, and the buffer was committed once
    for each object of a kind that is read. The assertions on the way
    hold. An object that is not read must have no child with its own
    name. *)
Theorem objects_committed_once (p : XMLParser Builders) (os : list object)
    (closing : string) :
  m_context p = top ->
  idle (builders p) = true ->
  m_read_types Builders p <> nothing ->
  Forall (fun o => reads p (object_kind o) = true \/ well_nested o = true) os ->
  closing = "osm" \/ closing = "osmChange" ->
  let r := run p (flat_map object_callbacks os ++ [End_ closing]) in
  raised r = None
  /\ m_context (after r) = root
  /\ idle (builders (after r)) = true
  /\ settings (after r) = settings p
  /\ m_header_is_done Builders (after r) = true
  /\ count_commits (calls (builders (after r)))
     = (count_commits (calls (builders p))
        + length (List.filter (fun o => reads p (object_kind o)) os))%nat.
Proof.
  intros Hctx Hidle Hread Hos Hclosing.
  destruct (run_objects p os Hctx Hidle Hread Hos)
    as (q & Hrun & Hctxq & Hidleq & Hsq & Hnq).
  rewrite (run_returns_app p q) by done. simpl.
  assert (Hreadq : (m_read_types Builders q =? nothing) = false).
  { apply Z.eqb_neq. unfold settings in Hsq. by injection Hsq as _ _ ->. }
  unfold XMLElements.end_element, header_is_done. rewrite Hctxq. simpl.
  rewrite Hreadq.
  by destruct Hclosing as [-> | ->].
Qed.

Lemma start_element_delete (p : XMLParser Builders) (attrs : list (string * string)) :
  m_context p = top ->
  NDEBUG = true \/ m_tl_builder (builders p) = false ->
  start_element p "delete" attrs = returns (with_in_delete_section p true).
Proof.
  intros Hctx Htl. unfold XMLElements.start_element, start_element_top.
  rewrite Hctx.
  replace (assert NDEBUG (negb (m_tl_builder (builders p))) p) with (@None result);
    [done|].
  unfold assert. destruct Htl as [->| ->]; [done|]. by rewrite orb_true_r.
Qed.

Lemma idle_tl (b : Builders) : idle b = true -> m_tl_builder b = false.
Proof.
  unfold idle. intros H. apply negb_true_iff in H.
  repeat (apply orb_false_elim in H as [H ?]). done.
Qed.

(** X15: delete sections: a node, way or relation that starts after
    the start of a [delete] element is made invisible, in any file and
    whatever the root element is; one that starts after the end of the
    [delete] element is not; a changeset never is. *)
Theorem delete_section_marks_invisible (p : XMLParser Builders) (k : kind)
    (delete_attrs attrs : list (string * string)) :
  m_context p = top ->
  idle (builders p) = true ->
  m_read_types Builders p <> nothing ->
  reads p k = true ->
  let opened := run p [Start "delete" delete_attrs; Start (kind_name k) attrs] in
  let closed :=
    run p [Start "delete" delete_attrs; End_ "delete"; Start (kind_name k) attrs] in
  exists cs cs',
    raised opened = None /\ calls_since p (after opened) cs
    /\ (In set_visible_false cs <-> k <> k_changeset)
    /\ raised closed = None /\ calls_since p (after closed) cs'
    /\ ~ In set_visible_false cs'.
Proof.
  intros Hctx Hidle Hread Hreads. simpl.
  pose proof (idle_tl _ Hidle) as Htl.
  rewrite (start_element_delete p) by auto. simpl.
  set (p1 := with_in_delete_section p true).
  rewrite (start_element_object p1 k) by auto.
  destruct (start_object_facts p1 k attrs Hread Hidle) as (Hr & _ & _ & Hk).
  change (reads p1 k) with (reads p k) in Hk. rewrite Hreads in Hk.
  destruct Hk as (_ & _ & cs & Hcs & _ & Hvis).
  unfold XMLElements.end_element. simpl. rewrite Hctx. simpl.
  set (p2 := with_in_delete_section p1 false).
  rewrite (start_element_object p2 k) by auto.
  destruct (start_object_facts p2 k attrs Hread Hidle) as (Hr' & _ & _ & Hk').
  change (reads p2 k) with (reads p k) in Hk'. rewrite Hreads in Hk'.
  destruct Hk' as (_ & _ & cs' & Hcs' & _ & Hvis').
  exists cs, cs'. rewrite Hr, Hr'. repeat split; try done.
  - intros Hin. by apply Hvis in Hin as [_ ?].
  - intros Hne. by apply Hvis.
  - intros Hin. by apply Hvis' in Hin as [? _].
Qed.

Lemma default_last_cons {A} (d x : A) (l : list A) :
  default d (last (x :: l)) = default x (last l).
Proof. rewrite last_cons. by destruct (last l). Qed.

Lemma tag_attrs_last (attrs : list (string * string)) (key value : string) :
  tag_attrs attrs key value
  = (default key (last (omap (fun '(n, v) => if String.eqb n "k" then Some v else None)
                             attrs)),
     default value (last (omap (fun '(n, v) => if String.eqb n "v" then Some v else None)
                               attrs))).
Proof.
  revert key value. induction attrs as [|[n v] rest IH]; intros key value; [done|].
  simpl. destruct (String.eqb n "k") eqn:Ek.
  - apply String.eqb_eq in Ek as ->. simpl. rewrite IH. f_equal.
    symmetry. apply default_last_cons.
  - destruct (String.eqb n "v") eqn:Ev; rewrite IH; [|done]. f_equal.
    symmetry. apply default_last_cons.
Qed.

(** X16: a [tag] element in an open object adds one tag, whose key and
    value are those of the last attribute named [k] and the last named
    [v], or empty without one; a tag list builder is made unless one is
    open, and the builders of way nodes and relation members are
    closed. *)
Theorem tag_from_last_k_and_v (p : XMLParser Builders) (k : kind)
    (attrs : list (string * string)) :
  m_context p = kind_context k ->
  let r := start_element p "tag" attrs in
  raised r = None
  /\ calls_since p (after r)
       ((if m_tl_builder (builders p) then [] else [TagListBuilder_new])
          ++ [add_tag (last_attribute "k" attrs) (last_attribute "v" attrs)])
  /\ m_tl_builder (builders (after r)) = true
  /\ m_wnl_builder (builders (after r)) = false
  /\ m_rml_builder (builders (after r)) = false.
Proof.
  intros Hctx. rewrite (start_element_in_object p k) by done.
  unfold start_child, check_tag, calls_since, last_attribute, builders.
  rewrite tag_attrs_last. by destruct k.
Qed.

End Callbacks.

(** X11 on a tag of an open node, in a build with assertions. *)
Lemma child_element_round_trip_witness :
  let r := start_element false 0 sample_bit node_parser "tag" [("k", "name")] in
  let r' := end_element false 0 (after r) "node" in
  m_context node_parser = node
  /\ raised r = None /\ m_context (after r) = in_object
  /\ raised r' = None /\ m_context (after r') = node.
Proof.
  split; [reflexivity|].
  pose proof (child_element_round_trip false 0 sample_bit node_parser k_node
                "tag" "node" "tag" [("k", "name")] [] eq_refl)
    as (H1 & H2 & H3 & H4 & _).
  exact (conj H1 (conj H2 (conj H3 H4))).
Defined.

(** X12 on a node of a parser that reads ways only. *)
Lemma ignored_object_skipped_witness :
  m_context ignoring_parser = ignored_node
  /\ run true 0 sample_bit ignoring_parser
       [Start "tag" [("k", "name")]; Start "way" []; End_ "way"; End_ "tag"]
     = returns ignoring_parser.
Proof.
  split; [reflexivity|].
  apply (proj1 (ignored_object_skipped true 0 sample_bit ignoring_parser k_node
                  [Start "tag" [("k", "name")]; Start "way" []; End_ "way"; End_ "tag"]
                  [] eq_refl ltac:(repeat constructor))).
Defined.

(** X13 on a parser that reads the header only. *)
Lemma nothing_to_read_stops_at_first_object_witness :
  run false 0 sample_bit (top_parser 0)
      [Start "way" [("id", "7")]; Start "nd" [("ref", "1")]]
  = {| raised := Some ParserIsDone;
       after := with_header_is_done (top_parser 0) true |}.
Proof.
  apply (proj1 (nothing_to_read_stops_at_first_object false 0 sample_bit
                  (top_parser 0) k_way [("id", "7")] [Start "nd" [("ref", "1")]]
                  eq_refl eq_refl (or_intror eq_refl))).
Defined.

(** X14 on a node and a way, for a parser that reads nodes only. *)
Lemma objects_committed_once_witness :
  let r := run false 0 sample_bit (top_parser 1)
               (flat_map object_callbacks sample_objects ++ [End_ "osm"]) in
  raised r = None /\ m_context (after r) = root
  /\ count_commits (calls (builders (after r))) = 1%nat.
Proof.
  pose proof (objects_committed_once false 0 sample_bit (top_parser 1) sample_objects
                "osm" eq_refl eq_refl ltac:(discriminate)
                ltac:(repeat constructor; (by left) || (by right))
                (or_introl eq_refl))
    as (H1 & H2 & _ & _ & _ & H6).
  exact (conj H1 (conj H2 H6)).
Defined.

(** X15 on a node. *)
Lemma delete_section_marks_invisible_witness :
  exists cs cs',
    calls_since (top_parser 1)
      (after (run false 0 sample_bit (top_parser 1)
                [Start "delete" []; Start "node" [("id", "1")]])) cs
    /\ In set_visible_false cs
    /\ calls_since (top_parser 1)
         (after (run false 0 sample_bit (top_parser 1)
                   [Start "delete" []; End_ "delete"; Start "node" [("id", "1")]])) cs'
    /\ ~ In set_visible_false cs'.
Proof.
  destruct (delete_section_marks_invisible false 0 sample_bit (top_parser 1) k_node
              [] [("id", "1")] eq_refl eq_refl ltac:(discriminate) eq_refl)
    as (cs & cs' & _ & H2 & H3 & _ & H5 & H6).
  exists cs, cs'. repeat split; try assumption.
  apply H3. discriminate.
Defined.

(** X16 on a tag with two keys. *)
Lemma tag_from_last_k_and_v_witness :
  calls_since node_parser
    (after (start_element false 0 sample_bit node_parser "tag"
              [("k", "name"); ("v", "x"); ("k", "ref")]))
    [TagListBuilder_new; add_tag "ref" "x"].
Proof.
  apply (proj1 (proj2 (tag_from_last_k_and_v false 0 sample_bit node_parser k_node
                         [("k", "name"); ("v", "x"); ("k", "ref")] eq_refl))).
Defined.

(** An object that is not read ends at the first end tag with its name:
    a way inside a node inside a node is taken for a way of the top
    level, by a parser that reads ways only. *)
Example nested_same_name_ends_ignored_object :
  let r := run true 0 sample_bit (top_parser 2)
               [Start "node" []; Start "node" []; End_ "node";
                Start "way" []; End_ "way"; End_ "node"] in
  raised r = None /\ m_context (after r) = top
  /\ count_commits (calls (builders (after r))) = 1%nat.
Proof. by vm_compute. Qed.

End XMLElementsFacts.

(** ** The hashes and the node handle of the routing graph *)

Module RoutingGraphHashFacts.

Import Machine RoutingGraph RoutingGraphHash.

Lemma to_size_t_testbit (z : Z) (i : Z) :
  0 <= i < 64 -> Z.testbit (to_size_t z) i = Z.testbit z i.
Proof.
  intros Hi. unfold to_size_t, size_t_modulus.
  apply Z.mod_pow2_bits_low. lia.
Qed.

Lemma to_size_t_inj (x y : Z) :
  int_range x -> int_range y -> to_size_t x = to_size_t y -> x = y.
Proof.
  unfold int_range, to_size_t, size_t_modulus. intros Hx Hy H.
  assert (Hd : (x - y) mod 2 ^ 64 = 0).
  { rewrite Zminus_mod, H, Z.sub_diag. reflexivity. }
  apply Z.mod_divide in Hd; [|lia]. destruct Hd as [k Hk]. lia.
Qed.

Lemma lxor_cancel_l (k a b : Z) : Z.lxor k a = Z.lxor k b -> a = b.
Proof.
  intros H.
  assert (H' : Z.lxor k (Z.lxor k a) = Z.lxor k (Z.lxor k b)) by by rewrite H.
  by rewrite <- !Z.lxor_assoc, Z.lxor_nilpotent, !Z.lxor_0_l in H'.
Qed.

Lemma to_size_t_lxor_inj (k x y : Z) :
  int_range x -> int_range y ->
  to_size_t (Z.lxor k x) = to_size_t (Z.lxor k y) -> x = y.
Proof.
  intros Hx Hy H. apply to_size_t_inj; [done..|].
  apply Z.bits_inj'. intros i Hi.
  destruct (Z.lt_ge_cases i 64) as [Hlt|Hge].
  - rewrite !to_size_t_testbit by lia.
    assert (Hb : Z.testbit (to_size_t (Z.lxor k x)) i
                 = Z.testbit (to_size_t (Z.lxor k y)) i) by by rewrite H.
    rewrite !to_size_t_testbit, !Z.lxor_spec in Hb by lia.
    by destruct (Z.testbit k i), (Z.testbit x i), (Z.testbit y i).
  - unfold to_size_t, size_t_modulus. by rewrite !Z.mod_pow2_bits_high by lia.
Qed.

(** X17: the hashes agree with [operator==], and they tell apart the
    blocks of one package and the elements of one block: two block ids
    with the same package and the same hash are equal, and so are two
    element ids with the same block and the same hash. The members are
    [int]s and the product in [BlockId::Hash] does not overflow. *)
Theorem Hash_separates_siblings (a b : ElementId) :
  ElementId_in_range a -> ElementId_in_range b ->
  is_Some (BlockId_Hash (blockId a)) ->
  (ElementId_eqb a b = true -> ElementId_Hash a = ElementId_Hash b)
  /\ (packageId (blockId a) = packageId (blockId b) ->
      BlockId_Hash (blockId a) = BlockId_Hash (blockId b) ->
      blockId a = blockId b)
  /\ (blockId a = blockId b -> ElementId_Hash a = ElementId_Hash b -> a = b).
Proof.
  destruct a as [[pa ba] ea], b as [[pb bb] eb].
  unfold ElementId_in_range, BlockId_in_range, ElementId_eqb, BlockId_eqb,
    ElementId_Hash, BlockId_Hash. simpl.
  intros [[Hpa Hba] Hea] [[Hpb Hbb] Heb] Hsome. repeat split.
  - intros H. apply andb_prop in H as [H He]. apply andb_prop in H as [Hp Hb].
    apply Z.eqb_eq in He, Hp, Hb. by subst.
  - intros <-. destruct (_ && _); [|by destruct Hsome].
    intros [= H]. f_equal. by apply to_size_t_lxor_inj in H.
  - intros [= <- <-]. destruct (_ && _); [|by destruct Hsome].
    intros [= H]. f_equal. apply lxor_cancel_l in H. by apply to_size_t_inj.
Qed.

(** X17 on the first two elements of a block. *)
Lemma Hash_separates_siblings_witness :
  ElementId_Hash {| blockId := {| packageId := 3; blockIndex := 5 |};
                    elementIndex := 0 |}
  <> ElementId_Hash {| blockId := {| packageId := 3; blockIndex := 5 |};
                       elementIndex := 1 |}.
Proof.
  intros H.
  pose proof (proj2 (proj2 (Hash_separates_siblings
                         {| blockId := {| packageId := 3; blockIndex := 5 |};
                            elementIndex := 0 |}
                         {| blockId := {| packageId := 3; blockIndex := 5 |};
                            elementIndex := 1 |}
                         ltac:(unfold ElementId_in_range, BlockId_in_range, int_range;
                               simpl; lia)
                         ltac:(unfold ElementId_in_range, BlockId_in_range, int_range;
                               simpl; lia)
                         ltac:(by eexists))) eq_refl H) as E.
  discriminate E.
Defined.

(** Block ids of different packages do collide. *)
Example BlockId_Hash_collision :
  BlockId_Hash {| packageId := 0; blockIndex := 98317 |}
  = BlockId_Hash {| packageId := 1; blockIndex := 0 |}.
Proof. reflexivity. Qed.

End RoutingGraphHashFacts.

Module NodePtrFacts.

Import Machine RoutingGraph.

(** X18: a [NodePtr] built from a [shared_ptr] to a live block and then
    destroyed leaves the store as it was; while it lives it dereferences
    to the node at the index, converted to [std::size_t], and it still
    does after the [shared_ptr] it was built from is destroyed. A
    construction that throws leaves the store as it was. *)
Theorem NodePtr_new_then_delete (h : Store) (nodeBlock : nat) (elementIndex : Z) :
  (forall cb, h !! nodeBlock = Some cb -> (0 < use_count cb)%nat) ->
  match NodePtr_new nodeBlock elementIndex h with
  | (inr p, h') =>
      NodePtr_delete p h' = h
      /\ (exists cb node,
            h !! nodeBlock = Some cb
            /\ nodes (pointee cb) !! Z.to_nat (to_size_t elementIndex) = Some node
            /\ deref p h' = Some node
            /\ deref p (shared_release nodeBlock h') = Some node)
  | (inl _, h') => h' = h
  end.
Proof.
  intros Hlive. unfold NodePtr_new.
  destruct (h !! nodeBlock) as [cb|] eqn:Eh; [|done].
  destruct (vector_at _ _) as [node|] eqn:Ev; [|done].
  specialize (Hlive cb eq_refl).
  unfold vector_at in Ev. case_match; [|done].
  unfold NodePtr_delete, deref, shared_release, shared_copy. simpl.
  rewrite Eh, lookup_insert_eq. simpl.
  destruct cb as [block [|n]]; simpl in *; [lia|].
  split.
  - rewrite insert_insert_eq. by apply insert_id.
  - exists {| pointee := block; use_count := S n |}, node.
    by rewrite !lookup_insert_eq.
Qed.

(** X18 on the second node of a block with one owner. *)
Lemma NodePtr_new_then_delete_witness :
  let h : Store := {[ 0%nat := {| pointee := sample_block 0; use_count := 1 |} ]} in
  match NodePtr_new 0 1 h with
  | (inr p, h') => NodePtr_delete p h' = h
  | (inl _, h') => h' = h
  end.
Proof.
  intros h.
  pose proof (NodePtr_new_then_delete h 0 1) as H.
  destruct (NodePtr_new 0 1 h) as [[e|p] h'].
  - apply H. intros cb. unfold h. rewrite lookup_singleton_eq. intros [= <-]. simpl. lia.
  - apply H. intros cb. unfold h. rewrite lookup_singleton_eq. intros [= <-]. simpl. lia.
Defined.

End NodePtrFacts.

(** ** The promise keeper *)

Module PromiseKeeperFacts.

Import PromiseKeeper.

Lemma fullfill_all_done {T} (k : PromiseKeeper) (datas : list T) :
  m_done k = true -> fullfill_all k datas = (k, []).
Proof.
  intros Hk. induction datas as [|data rest IH]; [done|].
  simpl. unfold fullfill_promise. by rewrite Hk, IH.
Qed.

(** X19: in the life of a promise keeper the promise is set exactly
    once, whatever the number of calls of [fullfill_promise]: to the data
    as they are at the first call, or at destruction when there was no
    call. *)
Theorem promise_set_exactly_once {T} (datas : list T) (final : T) :
  lifetime datas final = [hd final datas].
Proof.
  unfold lifetime. destruct datas as [|data rest]; [done|].
  simpl. by rewrite fullfill_all_done.
Qed.

End PromiseKeeperFacts.

(** ** The description of a found route *)

Module RouteDescriptionFacts.

Import Machine NutiViaRoute RouteDescription.

Section Describe.

Variable degrees_to_coordinate : double -> Z.
Variable constructed_pre_turn_bearing : Z.
Variable constructed_post_turn_bearing : Z.
Variable bearing_tenths : FixedPointCoordinate -> FixedPointCoordinate -> Z.
Variable type_code : InstructionType -> Z.
Variable size_t_to_double : Z -> double.
Variable unsigned_text : double -> string.
Variable tenths_to_double : Z -> double.
Variable bearing_get : double -> string.

#[local] Abbreviation new_segment :=
  (RouteDescription.new_segment degrees_to_coordinate constructed_pre_turn_bearing
     constructed_post_turn_bearing).
#[local] Abbreviation set_bearings := (RouteDescription.set_bearings bearing_tenths).
#[local] Abbreviation linked := (RouteDescription.linked bearing_tenths).
#[local] Abbreviation instruction_row :=
  (RouteDescription.instruction_row type_code size_t_to_double unsigned_text
     tenths_to_double bearing_get).
#[local] Abbreviation instruction_rows :=
  (RouteDescription.instruction_rows type_code size_t_to_double unsigned_text
     tenths_to_double bearing_get).
#[local] Abbreviation describe_from :=
  (RouteDescription.describe_from degrees_to_coordinate constructed_pre_turn_bearing
     constructed_post_turn_bearing bearing_tenths type_code size_t_to_double
     unsigned_text tenths_to_double bearing_get).
#[local] Abbreviation describe :=
  (RouteDescription.describe degrees_to_coordinate constructed_pre_turn_bearing
     constructed_post_turn_bearing bearing_tenths type_code size_t_to_double
     unsigned_text tenths_to_double bearing_get).
#[local] Abbreviation result_points :=
  (RouteDescription.result_points degrees_to_coordinate constructed_pre_turn_bearing
     constructed_post_turn_bearing).

Lemma set_bearings_length (pd : list SegmentInformation) (k : nat) :
  length (set_bearings pd k) = length pd.
Proof. apply length_imap. Qed.

Lemma set_bearings_location (pd : list SegmentInformation) (k : nat) :
  map location (set_bearings pd k) = map location pd.
Proof.
  apply list_eq. intros i. unfold RouteDescription.set_bearings.
  change (map location) with (fmap (M := list) location).
  rewrite !list_lookup_fmap, list_lookup_imap.
  destruct (pd !! i) as [second|]; [|done]. simpl.
  by repeat case_match.
Qed.

Lemma set_bearings_lookup_lt (pd : list SegmentInformation) (k i : nat) :
  (i < k)%nat -> set_bearings pd k !! i = pd !! i.
Proof.
  intros Hi. unfold RouteDescription.set_bearings. rewrite list_lookup_imap.
  destruct (pd !! i); [|done]. simpl.
  by destruct (Nat.leb_spec k i); [lia|].
Qed.

Lemma set_bearings_lookup_ge (pd : list SegmentInformation) (k i : nat)
    (first second : SegmentInformation) :
  (k <= S i)%nat -> pd !! i = Some first -> pd !! S i = Some second ->
  set_bearings pd k !! S i
  = Some {| location := location second;
            pre_turn_bearing := bearing_tenths (location second) (location first);
            post_turn_bearing := bearing_tenths (location first) (location second) |}.
Proof.
  intros Hk Hf Hs. unfold RouteDescription.set_bearings.
  rewrite list_lookup_imap, Hs. simpl.
  destruct (Nat.leb_spec k (S i)); [|lia].
  by rewrite Nat.sub_0_r, Hf.
Qed.

Lemma lookup_location (pd pd' : list SegmentInformation) (i : nat)
    (s : SegmentInformation) :
  map location pd = map location pd' -> pd !! i = Some s ->
  exists s', pd' !! i = Some s' /\ location s' = location s.
Proof.
  intros Hmap Hs.
  assert (H : map location pd !! i = Some (location s)).
  { change (map location) with (fmap (M := list) location).
    by rewrite list_lookup_fmap, Hs. }
  rewrite Hmap in H.
  change (map location) with (fmap (M := list) location) in H.
  rewrite list_lookup_fmap in H.
  destruct (pd' !! i) as [s'|]; [|done]. exists s'. simpl in H. by injection H as ->.
Qed.

(** A result links its points to the path collected so far. *)
Lemma linked_set_bearings (pd new : list SegmentInformation) :
  linked pd -> linked (set_bearings (pd ++ new) (Nat.max 1 (length pd))).
Proof.
  intros Hlinked i first second Hf Hs.
  set (k := Nat.max 1 (length pd)) in *.
  destruct (Nat.lt_ge_cases (S i) k) as [Hlt|Hge].
  - rewrite set_bearings_lookup_lt in Hf, Hs by lia.
    assert (Hlen : (S i < length pd)%nat) by (unfold k in Hlt; lia).
    rewrite lookup_app_l in Hf, Hs by lia.
    by apply (Hlinked i).
  - destruct (lookup_location _ (pd ++ new) i first
                (set_bearings_location (pd ++ new) k) Hf) as (f0 & Hf0 & Elf).
    destruct (lookup_location _ (pd ++ new) (S i) second
                (set_bearings_location (pd ++ new) k) Hs) as (s0 & Hs0 & Els).
    rewrite (set_bearings_lookup_ge (pd ++ new) k i f0 s0) in Hs by done.
    injection Hs as <-. simpl. by rewrite Elf.
Qed.

Lemma describe_from_cons (result : RoutingResult) (rest : list RoutingResult)
    (pd0 : list SegmentInformation) :
  describe_from (result :: rest) pd0
  = match getInstructions result with
    | [] => describe_from rest pd0
    | _ :: _ =>
        let pd1 := set_bearings (pd0 ++ map new_segment (getGeometry result))
                                (Nat.max 1 (length pd0)) in
        match instruction_rows pd1 (length pd0)
                (match rest with [] => false | _ => true end)
                (getInstructions result) double_zero double_zero with
        | Some rows =>
            match describe_from rest pd1 with
            | Some (pd, more) => Some (pd, rows ++ more)
            | None => None
            end
        | None => None
        end
    end.
Proof. simpl. by destruct (getInstructions result). Qed.

Lemma describe_from_path (results : list RoutingResult)
    (pd0 pd : list SegmentInformation) (rows : list json_value) :
  describe_from results pd0 = Some (pd, rows) ->
  map location pd = map location pd0 ++ flat_map result_points results
  /\ (linked pd0 -> linked pd)
  /\ (pd0 <> [] -> pd !! 0%nat = pd0 !! 0%nat)
  /\ (pd0 = [] -> forall s, pd !! 0%nat = Some s ->
        pre_turn_bearing s = constructed_pre_turn_bearing
        /\ post_turn_bearing s = constructed_post_turn_bearing).
Proof.
  revert pd0 pd rows.
  induction results as [|result rest IH]; intros pd0 pd rows.
  - simpl. intros [= <- <-]. rewrite app_nil_r. split; [|split; [|split]]; try done.
    by intros -> s.
  - rewrite describe_from_cons.
    change (flat_map result_points (result :: rest))
      with (result_points result ++ flat_map result_points rest).
    unfold RouteDescription.result_points at 1.
    destruct (getInstructions result) as [|instr instrs] eqn:Ei.
    { intros H. by apply IH in H. }
    cbv zeta.
    set (pd1 := set_bearings (pd0 ++ map new_segment (getGeometry result))
                             (Nat.max 1 (length pd0))).
    destruct (instruction_rows pd1 _ _ _ _ _) as [rows1|]; [|done].
    destruct (describe_from rest pd1) as [[pd2 more]|] eqn:Erest; [|done].
    intros [= <- <-].
    apply IH in Erest as (Hloc & Hlinked & Hhead & Hnew).
    assert (Hloc1 : map location pd1
                    = map location pd0
                      ++ map (fun pos => location (new_segment pos)) (getGeometry result)).
    { unfold pd1. by rewrite set_bearings_location, map_app, map_map. }
    split; [|split; [|split]].
    + by rewrite Hloc, Hloc1, <- app_assoc.
    + intros H0. apply Hlinked. by apply linked_set_bearings.
    + intros Hne. destruct pd0 as [|s0 pd0']; [done|].
      rewrite Hhead.
      * unfold pd1. by rewrite set_bearings_lookup_lt by (simpl; lia).
      * unfold pd1. intros Hnil.
        apply (f_equal length) in Hnil. rewrite set_bearings_length in Hnil.
        done.
    + intros -> s Hs.
      destruct (getGeometry result) as [|pos geometry] eqn:Eg.
      * apply Hnew; [|done]. by unfold pd1.
      * rewrite Hhead in Hs.
        -- unfold pd1 in Hs. rewrite set_bearings_lookup_lt in Hs by (simpl; lia).
           by injection Hs as <-.
        -- unfold pd1. intros Hnil.
           apply (f_equal length) in Hnil. rewrite set_bearings_length in Hnil.
           done.
Qed.

(** X20: the path of a described route is the geometries, in order, of
    the results that have instructions; the geometry of a result without
    instructions is left out. The first segment keeps the bearings it was
    constructed with, and every other segment, the first of a later
    result included, has the bearings to and from the segment before
    it. *)
Theorem described_path (results : list RoutingResult)
    (path_description : list SegmentInformation) (rows : list json_value) :
  describe results = Some (path_description, rows) ->
  map location path_description = flat_map result_points results
  /\ linked path_description
  /\ forall s, path_description !! 0%nat = Some s ->
       pre_turn_bearing s = constructed_pre_turn_bearing
       /\ post_turn_bearing s = constructed_post_turn_bearing.
Proof.
  intros H. apply describe_from_path in H as (Hloc & Hlinked & _ & Hnew).
  split; [|split].
  - done.
  - apply Hlinked. by intros i first second Hf.
  - by apply Hnew.
Qed.

Lemma instruction_rows_defined (pd : list SegmentInformation) (path_index n : nat)
    (more_results : bool) (instructions : list RoutingInstruction)
    (distance time : double) :
  Forall (fun instr => 0 <= getGeometryIndex instr < Z.of_nat n) instructions ->
  (path_index + n <= length pd)%nat ->
  Z.of_nat (length pd) < size_t_modulus ->
  exists rows,
    instruction_rows pd path_index more_results instructions distance time = Some rows
    /\ length rows
       = length (List.filter (fun instr => negb (no_row (getType instr))) instructions).
Proof.
  intros Hin Hlen Hsize. revert distance time.
  induction Hin as [|instr rest Hi _ IH]; intros distance time; simpl.
  - by exists [].
  - destruct (no_row (getType instr)); simpl; [apply IH|].
    assert (Hidx : to_size_t (Z.of_nat path_index + getGeometryIndex instr)
                   = Z.of_nat path_index + getGeometryIndex instr).
    { unfold to_size_t. apply Z.mod_small. lia. }
    rewrite Hidx.
    destruct (lookup_lt_is_Some_2 pd
                (Z.to_nat (Z.of_nat path_index + getGeometryIndex instr)))
      as [segment ->]; [lia|].
    destruct (IH double_zero double_zero) as (rows & -> & Hrows).
    eexists. split; [reflexivity|]. simpl. by rewrite Hrows.
Qed.

Lemma describe_from_defined (results : list RoutingResult)
    (pd0 : list SegmentInformation) :
  Forall indexes_in_geometry results ->
  Z.of_nat (length pd0 + length (flat_map getGeometry results)) < size_t_modulus ->
  exists pd rows,
    describe_from results pd0 = Some (pd, rows)
    /\ length rows = count_rows results.
Proof.
  intros Hin. revert pd0. unfold count_rows.
  induction Hin as [|result rest Hi _ IH]; intros pd0 Hsize.
  - by exists pd0, [].
  - rewrite describe_from_cons.
    change (flat_map getGeometry (result :: rest))
      with (getGeometry result ++ flat_map getGeometry rest) in Hsize.
    change (flat_map getInstructions (result :: rest))
      with (getInstructions result ++ flat_map getInstructions rest).
    rewrite length_app in Hsize.
    unfold indexes_in_geometry in Hi.
    destruct (getInstructions result) as [|instr instrs] eqn:Ei.
    { apply IH. lia. }
    cbv zeta.
    set (pd1 := set_bearings (pd0 ++ map new_segment (getGeometry result))
                             (Nat.max 1 (length pd0))).
    assert (Hlen1 : length pd1 = (length pd0 + length (getGeometry result))%nat).
    { unfold pd1. by rewrite set_bearings_length, length_app, length_map. }
    destruct (instruction_rows_defined pd1 (length pd0) (length (getGeometry result))
                (match rest with [] => false | _ => true end)
                (instr :: instrs) double_zero double_zero Hi)
      as (rows1 & -> & Hrows1); [lia..|].
    destruct (IH pd1) as (pd & more & -> & Hmore); [lia|].
    exists pd, (rows1 ++ more). split; [done|].
    by rewrite length_app, Hrows1, Hmore, List.filter_app, length_app.
Qed.

(** X21: when the geometry index of every instruction points into the
    geometry of its result, and the points are fewer than [2^64], no
    segment is read out of range: the description is defined, and it has
    one row for each instruction that is neither [NO_TURN] nor
    [STAY_ON_ROUNDABOUT]. *)
Theorem describe_defined (results : list RoutingResult) :
  Forall indexes_in_geometry results ->
  Z.of_nat (length (flat_map getGeometry results)) < size_t_modulus ->
  exists path_description rows,
    describe results = Some (path_description, rows)
    /\ length rows = count_rows results.
Proof.
  intros Hin Hsize. by apply describe_from_defined.
Qed.

(** X22: the distance and the time of a row are the sums, from the
    values at hand, over the instructions since the row before, those
    that give no row included; after a row both start from zero. The row
    reports [REACH_VIA_LOCATION] for [REACHED_YOUR_DESTINATION] when more
    results follow, and its own type otherwise. *)
Theorem row_sums_skipped_instructions (pd : list SegmentInformation)
    (path_index : nat) (more_results : bool)
    (skipped : list RoutingInstruction) (instr : RoutingInstruction)
    (rest : list RoutingInstruction) (distance time : double) :
  Forall (fun i => no_row (getType i) = true) skipped ->
  no_row (getType instr) = false ->
  let point_index := to_size_t (Z.of_nat path_index + getGeometryIndex instr) in
  let reported :=
    if more_results then
      match getType instr with
      | REACHED_YOUR_DESTINATION => REACH_VIA_LOCATION
      | type => type
      end
    else getType instr in
  instruction_rows pd path_index more_results (skipped ++ instr :: rest) distance time
  = match pd !! Z.to_nat point_index,
          instruction_rows pd path_index more_results rest double_zero double_zero with
    | Some segment, Some rows =>
        Some (instruction_row reported (getAddress instr)
                (fold_left double_add (map getDistance (skipped ++ [instr])) distance)
                (fold_left double_add (map getTime (skipped ++ [instr])) time)
                point_index segment :: rows)
    | _, _ => None
    end.
Proof.
  intros Hskipped Hinstr. revert distance time.
  induction Hskipped as [|s skipped Hs _ IH]; intros distance time; simpl.
  - rewrite Hinstr. by destruct more_results, (getType instr).
  - rewrite Hs. apply IH.
Qed.

End Describe.

(** X20 on a route of two results. *)
Lemma described_path_witness :
  exists path_description rows,
    sample_describe [sample_result; sample_result] = Some (path_description, rows)
    /\ map location path_description
       = flat_map (result_points (fun _ => 0) 0 0) [sample_result; sample_result].
Proof.
  eexists _, _. split; [reflexivity|].
  refine (proj1 (described_path (fun _ => 0) 0 0 (fun a b => lat b - lat a)
                   (fun _ => 0) (fun _ => double_zero) (fun _ => "0")
                   (fun _ => double_zero) (fun _ => "N")
                   [sample_result; sample_result] _ _ _)).
  reflexivity.
Defined.

(** X21 on a route of two results. *)
Lemma describe_defined_witness :
  exists path_description rows,
    sample_describe [sample_result; sample_result] = Some (path_description, rows)
    /\ length rows = count_rows [sample_result; sample_result].
Proof.
  apply (describe_defined (fun _ => 0) 0 0 (fun a b => lat b - lat a)
           (fun _ => 0) (fun _ => double_zero) (fun _ => "0")
           (fun _ => double_zero) (fun _ => "N") [sample_result; sample_result]).
  - repeat constructor; simpl; lia.
  - simpl. unfold size_t_modulus. lia.
Defined.

(** X22 on the first row of the sample result. *)
Lemma row_sums_skipped_instructions_witness :
  exists row rows,
    sample_instruction_rows
      [ {| location := {| lat := 0; lon := 0 |};
           pre_turn_bearing := 0; post_turn_bearing := 0 |};
        {| location := {| lat := 1; lon := 0 |};
           pre_turn_bearing := 0; post_turn_bearing := 0 |};
        {| location := {| lat := 2; lon := 0 |};
           pre_turn_bearing := 0; post_turn_bearing := 0 |} ]
      (getInstructions sample_result)
    = Some (row :: rows).
Proof.
  eexists _, _. unfold sample_instruction_rows.
  etransitivity.
  - apply (row_sums_skipped_instructions (fun _ => 0) (fun _ => double_zero)
             (fun _ => "0") (fun _ => double_zero) (fun _ => "N")
             _ 0 false
             [ {| getType := NO_TURN; getAddress := "Main Street";
                  getDistance := double_zero; getTime := double_zero;
                  getGeometryIndex := 0 |} ]
             {| getType := other_type 3; getAddress := "Side Street";
                getDistance := double_zero; getTime := double_zero;
                getGeometryIndex := 1 |}
             [ {| getType := REACHED_YOUR_DESTINATION; getAddress := "";
                  getDistance := double_zero; getTime := double_zero;
                  getGeometryIndex := 2 |} ]).
    + by repeat constructor.
    + reflexivity.
  - reflexivity.
Defined.

End RouteDescriptionFacts.
